(** * Valmma Placement: the image-geometry and AI-orchestration service

    A shallow embedding of [services/geminiService.ts] (letterbox resize,
    marker stamping, crop-back, data-URL handling, prompt assembly and the two
    orchestrators) and of the drop-point computation of the touch handler of
    the main component, followed by the properties stated about them.

    Conventions.
    - A JavaScript [number] is a value of a type [num] carrying the
      arithmetic of the class [JsNumber].  Two instances are given:
      [Binary64] (IEEE 754 doubles, what the program executes; used to run
      the service on examples) and [Rounded r] (rationals, every operation
      followed by a rounding [r] that has the laws of round-to-nearest
      short of overflow; used for the properties that hold of every input).
      [exact] is the rounding that does nothing.  No property divides by 0.
    - A string is the UTF-8 encoding of the JavaScript string: the literals
      of the source are kept byte for byte, and the characters the program
      looks for (comma, colon, semicolon, white space, line terminators) are
      found by their encodings.
    - A rejected promise and a thrown exception are both [Err msg]; an event
      interpolated into a message prints as [[object Event]] or
      [[object ProgressEvent]].
    - The browser (file reader, image decoder, canvas encoder, [atob]), the
      process environment and the AI service are the fields of a record
      [browser].  Console output and the [lastModified] stamp of a file are
      not modelled; a [console.log] whose argument throws is. *)

From Stdlib Require Import ZArith QArith Qabs Qround Floats String Ascii List Bool Lia Lqa.
Import ListNotations.

Set Implicit Arguments.

(** ** Results *)

Inductive result (A : Type) : Type :=
| Ok (a : A)
| Err (msg : string).
Arguments Ok {A} a.
Arguments Err {A} msg.

Definition is_ok {A} (r : result A) : bool :=
  match r with Ok _ => true | Err _ => false end.

(** ** Numbers *)

Class JsNumber (num : Type) : Type := {
  of_Z : Z -> num;                 (* an integer literal or integer attribute *)
  add : num -> num -> num;
  sub : num -> num -> num;
  mul : num -> num -> num;
  div : num -> num -> num;
  ltb : num -> num -> bool;        (* a < b *)
  leb : num -> num -> bool;        (* a <= b *)
  Math_max : num -> num -> num;
  Math_min : num -> num -> num;
  Math_PI : num;
  truncate : num -> Z              (* toward zero; 0 for NaN and infinities *)
}.

Declare Scope js_scope.
Delimit Scope js_scope with js.
Infix "+" := add : js_scope.
Infix "-" := sub : js_scope.
Infix "*" := mul : js_scope.
Infix "/" := div : js_scope.
Infix "<?" := ltb : js_scope.
Infix "<=?" := leb : js_scope.
Notation "a >? b" := (ltb b a) : js_scope.

(** A decimal literal [n/d] of the source, such as [0.015 = 15/1000]: the
    correctly rounded quotient of two exactly representable integers. *)
Definition decimal {num} `{JsNumber num} (n d : Z) : num := div (of_Z n) (of_Z d).

(** WebIDL [unsigned long] conversion of a number. *)
Definition ToUint32 {num} `{JsNumber num} (x : num) : Z := (truncate x) mod 2 ^ 32.

(** *** IEEE 754 binary64 *)

(** Integers of magnitude below [2^63]; those below [2^53] are exact. *)
Definition float_of_Z (n : Z) : float :=
  match n with
  | Z0 => PrimFloat.zero
  | Zpos p => PrimFloat.of_uint63 (Uint63.of_Z (Zpos p))
  | Zneg p => PrimFloat.opp (PrimFloat.of_uint63 (Uint63.of_Z (Zpos p)))
  end.

(** The integer part of a double, read off its significand and exponent. *)
Definition float_truncate (x : float) : Z :=
  match Prim2SF x with
  | S754_finite s m e =>
      let v := Z.shiftl (Zpos m) e in if s then (- v)%Z else v
  | _ => 0%Z
  end.

Definition float_max (a b : float) : float :=
  if PrimFloat.is_nan a then a
  else if PrimFloat.is_nan b then b
  else if PrimFloat.ltb a b then b else a.

Definition float_min (a b : float) : float :=
  if PrimFloat.is_nan a then a
  else if PrimFloat.is_nan b then b
  else if PrimFloat.ltb b a then b else a.

(** [Math.PI] is the double [0x1.921fb54442d18p+1]. *)
Definition float_PI : float :=
  PrimFloat.div (float_of_Z 884279719003555) (float_of_Z (2 ^ 48)).

Definition Binary64 : JsNumber float := {|
  of_Z := float_of_Z;
  add := PrimFloat.add;
  sub := PrimFloat.sub;
  mul := PrimFloat.mul;
  div := PrimFloat.div;
  ltb := PrimFloat.ltb;
  leb := PrimFloat.leb;
  Math_max := float_max;
  Math_min := float_min;
  Math_PI := float_PI;
  truncate := float_truncate
|}.

(** The exact value of a finite double. *)
Definition float_value (x : float) : Q :=
  match Prim2SF x with
  | S754_finite s m e =>
      let v := if (0 <=? e)%Z then inject_Z (Z.shiftl (Zpos m) e)
               else Qmake (Zpos m) (Pos.pow 2 (Z.to_pos (- e))) in
      if s then Qopp v else v
  | _ => 0%Q
  end.

(** *** Rationals with a rounding after every operation

    What is kept of round-to-nearest on doubles, overflow apart: it is
    monotone, it leaves a double unchanged, integers up to [2^53] are doubles,
    and in the range [2^-64 .. 2^64] the relative error is at most [2^-53]. *)

Record rounding : Type := {
  rnd :> Q -> Q;
  rnd_monotone : forall x y : Q, (x <= y)%Q -> (rnd x <= rnd y)%Q;
  rnd_idempotent : forall x : Q, (rnd (rnd x) == rnd x)%Q;
  rnd_integer : forall n : Z,
      (Z.abs n <= 2 ^ 53)%Z -> (rnd (inject_Z n) == inject_Z n)%Q;
  rnd_accurate : forall x : Q,
      (1 # 2 ^ 64 <= x <= inject_Z (2 ^ 64))%Q ->
      (Qabs (rnd x - x) <= x * (1 # 2 ^ 53))%Q
}.

Definition Qltb (a b : Q) : bool := negb (Qle_bool b a).

Definition Qmax (a b : Q) : Q := if Qltb a b then b else a.
Definition Qmin (a b : Q) : Q := if Qltb b a then b else a.

Definition Qtruncate (q : Q) : Z := Z.quot (Qnum q) (Zpos (Qden q)).

Definition Rounded (r : rounding) : JsNumber Q := {|
  of_Z := fun n => r (inject_Z n);
  add := fun a b => r (a + b)%Q;
  sub := fun a b => r (a - b)%Q;
  mul := fun a b => r (a * b)%Q;
  div := fun a b => r (a / b)%Q;
  ltb := Qltb;
  leb := Qle_bool;
  Math_max := Qmax;
  Math_min := Qmin;
  Math_PI := r (884279719003555 # 281474976710656)%Q;
  truncate := Qtruncate
|}.

(** ** Strings

    A string is the UTF-8 encoding of the JavaScript string.  The white space
    of [trim] and of the regular expression class [\s] is WhiteSpace and
    LineTerminator of ECMAScript; the dot of a regular expression matches
    every character but a LineTerminator. *)

Open Scope string_scope.

(** The double quote character, for literals that contain it. *)
Definition dq : string := String (ascii_of_nat 34) EmptyString.

Definition is_empty (s : string) : bool :=
  match s with EmptyString => true | String _ _ => false end.

Definition is_some {A} (o : option A) : bool :=
  match o with Some _ => true | None => false end.

(** The UTF-8 encoding of a code point of the Basic Multilingual Plane. *)
Definition utf8 (n : N) : string :=
  if (n <? 128)%N then String (ascii_of_N n) EmptyString
  else if (n <? 2048)%N then
    String (ascii_of_N (192 + n / 64)) (String (ascii_of_N (128 + n mod 64)) EmptyString)
  else
    String (ascii_of_N (224 + n / 4096))
      (String (ascii_of_N (128 + (n / 64) mod 64))
         (String (ascii_of_N (128 + n mod 64)) EmptyString)).

(** WhiteSpace of ECMAScript: TAB, VT, FF, ZWNBSP and the space separators. *)
Definition WhiteSpace : list N :=
  [ 9; 11; 12; 32; 160; 5760;
    8192; 8193; 8194; 8195; 8196; 8197; 8198; 8199; 8200; 8201; 8202;
    8239; 8287; 12288; 65279 ]%N.

(** LineTerminator of ECMAScript: LF, CR, LS, PS. *)
Definition LineTerminator : list N := [ 10; 13; 8232; 8233 ]%N.

Definition line_terminators : list string := Eval cbv in map utf8 LineTerminator.

(** The characters that [trim] strips and that [\s] matches. *)
Definition whitespace : list string := Eval cbv in map utf8 (WhiteSpace ++ LineTerminator).

(** [s] without its prefix [p]. *)
Fixpoint strip_prefix (p s : string) : option string :=
  match p with
  | EmptyString => Some s
  | String a p' =>
      match s with
      | String b s' => if Ascii.eqb a b then strip_prefix p' s' else None
      | EmptyString => None
      end
  end.

(** [s] without its first character, when that is one of [chars]. *)
Fixpoint strip_first (chars : list string) (s : string) : option string :=
  match chars with
  | [] => None
  | p :: rest =>
      match strip_prefix p s with
      | Some r => Some r
      | None => strip_first rest s
      end
  end.

Definition after_whitespace (s : string) : option string := strip_first whitespace s.
Definition after_line_terminator (s : string) : option string :=
  strip_first line_terminators s.

(** [s.split(c)] *)
Fixpoint split (sep : ascii) (s : string) : list string :=
  match s with
  | EmptyString => [EmptyString]
  | String c rest =>
      if Ascii.eqb c sep then EmptyString :: split sep rest
      else match split sep rest with
           | h :: t => String c h :: t
           | [] => [String c EmptyString]
           end
  end.

(** The lazy group [(.*?)] followed by [;], matched at the start of [s]: the
    dot matches no line terminator. *)
Fixpoint lazy_group_semicolon (s : string) : option string :=
  match s with
  | EmptyString => None
  | String c rest =>
      if Ascii.eqb c ";" then Some EmptyString
      else if is_some (after_line_terminator s) then None
      else option_map (String c) (lazy_group_semicolon rest)
  end.

(** [s.match(/:(.*?);/)]: the first capture group of the leftmost match. *)
Fixpoint match_mime (s : string) : option string :=
  match s with
  | EmptyString => None
  | String c rest =>
      if Ascii.eqb c ":" then
        match lazy_group_semicolon rest with
        | Some g => Some g
        | None => match_mime rest
        end
      else match_mime rest
  end.

(** [s] without its leading white space; [fuel] bounds the number of
    characters stripped. *)
Fixpoint trimStart_fuel (fuel : nat) (s : string) : string :=
  match fuel with
  | O => s
  | S fuel' =>
      match after_whitespace s with
      | Some rest => trimStart_fuel fuel' rest
      | None => s
      end
  end.

Definition trimStart (s : string) : string := trimStart_fuel (String.length s) s.

(** [s] is made of white space only. *)
Definition is_blank (s : string) : bool := is_empty (trimStart s).

(** [s] without its longest suffix of white space. *)
Fixpoint trimEnd (s : string) : string :=
  match s with
  | EmptyString => EmptyString
  | String c rest => if is_blank s then EmptyString else String c (trimEnd rest)
  end.

(** [s.trim()] *)
Definition trim (s : string) : string := trimEnd (trimStart s).

(** [s.replace(/\s+/g, '-')]: every maximal run of white space becomes one
    hyphen.  [fuel] bounds the number of steps. *)
Fixpoint replace_fuel (fuel : nat) (s : string) : string :=
  match fuel with
  | O => EmptyString
  | S fuel' =>
      match s with
      | EmptyString => EmptyString
      | String c rest =>
          match after_whitespace s with
          | Some r => String "-" (replace_fuel fuel' (trimStart r))
          | None => String c (replace_fuel fuel' rest)
          end
      end
  end.

Definition replace_whitespace (s : string) : string := replace_fuel (String.length s) s.

(** Whether the character [c] occurs in [s]. *)
Fixpoint has_char (c : ascii) (s : string) : bool :=
  match s with
  | EmptyString => false
  | String d rest => Ascii.eqb d c || has_char c rest
  end.

(** Whether some white space occurs in [s]. *)
Fixpoint has_whitespace (s : string) : bool :=
  match s with
  | EmptyString => false
  | String c rest => is_some (after_whitespace s) || has_whitespace rest
  end.

(** Whether some line terminator occurs in [s]. *)
Fixpoint has_line_terminator (s : string) : bool :=
  match s with
  | EmptyString => false
  | String c rest => is_some (after_line_terminator s) || has_line_terminator rest
  end.

(** The type of a [File] made with [{type: t}]: empty when [t] holds a
    character outside U+0020 .. U+007E, and in lower case otherwise. *)
Definition printable (c : ascii) : bool :=
  let n := nat_of_ascii c in ((32 <=? n) && (n <=? 126))%nat.

Definition lower (c : ascii) : ascii :=
  let n := nat_of_ascii c in
  if ((65 <=? n) && (n <=? 90))%nat then ascii_of_nat (n + 32) else c.

Fixpoint map_string (f : ascii -> ascii) (s : string) : string :=
  match s with
  | EmptyString => EmptyString
  | String c rest => String (f c) (map_string f rest)
  end.

Fixpoint all_chars (p : ascii -> bool) (s : string) : bool :=
  match s with
  | EmptyString => true
  | String c rest => p c && all_chars p rest
  end.

Definition File_type (t : string) : string :=
  if all_chars printable t then map_string lower t else EmptyString.

(** [s] is made of white space characters only. *)
Inductive blank : string -> Prop :=
| blank_empty : blank EmptyString
| blank_char (w s : string) : In w whitespace -> blank s -> blank (w ++ s).

(** [sub] occurs in [s], character for character. *)
Definition contains (s sub : string) : Prop :=
  exists pre post : string, s = pre ++ sub ++ post.

(** Interpolation [${v}] of a possibly undefined string in a template. *)
Definition interpolate (v : option string) : string :=
  match v with Some s => s | None => "undefined" end.

(** ** Prompts *)

Definition lightingPrompt : string :=
  "You are an expert in lighting analysis for photography and CGI. Analyze the provided scene image and describe the primary light sources in a single, concise sentence. Focus on the direction, intensity, and color of the light. Examples: " ++ dq ++ "The scene is lit by a soft, warm light coming from a large window on the right." ++ dq ++ " or " ++ dq ++ "The primary light source is a bright, cool overhead light, causing sharp shadows directly underneath objects." ++ dq ++ " or " ++ dq ++ "The scene has multiple light sources, including a warm lamp on the left and cool ambient light from a window on the right." ++ dq.

Definition descriptionPrompt : string :=
  "
You are an expert scene analyst. I will provide you with an image that has a red marker on it.
Your task is to provide a very dense, semantic description of what is at the exact location of the red marker.
Be specific about surfaces, objects, and spatial relationships. This description will be used to guide another AI in placing a new object.

Example semantic descriptions:
- " ++ dq ++ "The product location is on the dark grey fabric of the sofa cushion, in the middle section, slightly to the left of the white throw pillow." ++ dq ++ "
- " ++ dq ++ "The product location is on the light-colored wooden floor, in the patch of sunlight coming from the window, about a foot away from the leg of the brown leather armchair." ++ dq ++ "
- " ++ dq ++ "The product location is on the white marble countertop, just to the right of the stainless steel sink and behind the green potted plant." ++ dq ++ "

On top of the semantic description above, give a rough relative-to-image description.

Example relative-to-image descriptions:
- " ++ dq ++ "The product location is about 10% away from the bottom-left of the image." ++ dq ++ "
- " ++ dq ++ "The product location is about 20% away from the right of the image." ++ dq ++ "

Provide only the two descriptions concatenated in a few sentences.
".

Definition lighting_fallback : string :=
  "The lighting in the scene should be analyzed to create realistic shadows.".

Definition location_fallback : string := "at the specified location.".

Definition custom_head : string :=
  "
-   **User's Custom Instructions (Override):**
    -   If provided, these instructions take precedence. " ++ dq.

(** The override clause, present only when the trimmed instructions are not
    empty. *)
Definition customInstructionsPart (customInstructions : string) : string :=
  if is_empty (trim customInstructions) then EmptyString
  else custom_head ++ trim customInstructions ++ dq.

Definition prompt_text0 : string :=
  "
**Role:**
You are a visual composition expert. Your task is to take a 'product' image and seamlessly integrate it into a 'scene' image, adjusting for perspective, lighting, and scale.

**Specifications:**
-   **Product to add:**
    The first image provided. It may be surrounded by black padding or background, which you should ignore and treat as transparent and only keep the product.
-   **Scene to use:**
    The second image provided. It may also be surrounded by black padding, which you should ignore.
-   **Placement Instruction (Crucial):**
    -   You must place the product at the location described below exactly. You should only place the product once. Use this dense, semantic description to find the exact spot in the scene.
    -   **Product location Description:** " ++ dq.

Definition prompt_text1 : string :=
  dq ++ "
-   **Lighting & Shadow Instructions (Crucial):**
    -   **Scene Lighting Analysis:** " ++ dq.

Definition prompt_text2 : string :=
  dq ++ "
    -   Based on this analysis, you MUST render shadows for the product that match the scene's lighting. The shadows should be subtle, context-aware, and accurately reflect the direction, softness, and color of the light sources. The shadow must ground the product in the scene naturally.
    -   **Shadow Intensity (Crucial User Override):** The user has specified the desired shadow intensity. You must render the shadows as: **" ++ dq.

Definition prompt_text3 : string :=
  dq ++ "**. This is a strict requirement.".

Definition prompt_text4 : string :=
  "
-   **Final Image Requirements:**
    -   The output image's style, lighting, shadows, reflections, and camera perspective must exactly match the original scene.
    -   Do not just copy and paste the product. You must intelligently re-render it to fit the context. Adjust the product's perspective and orientation to its most natural position, scale it appropriately.
    -   The product must have proportional realism. For example, a lamp product can't be bigger than a sofa in scene.
    -   You must not return the original scene image without product placement. The product must be always present in the composite image.

The output should ONLY be the final, composed image. Do not add any text or explanation.
".

(** The template of the synthesis prompt. *)
Definition compositePrompt (semanticLocationDescription lightingDescription : option string)
  (shadowIntensityDescription customInstructionsPart : string) : string :=
  prompt_text0 ++ interpolate semanticLocationDescription
  ++ prompt_text1 ++ interpolate lightingDescription
  ++ prompt_text2 ++ shadowIntensityDescription
  ++ prompt_text3 ++ customInstructionsPart
  ++ prompt_text4.

Definition rotation_text0 : string :=
  "
**Role:**
You are an expert 3D product visualizer. Your task is to re-render the provided product image from a different angle.

**Specifications:**
-   **Product:** The provided image contains a single product, possibly with a simple or padded background.
-   **Task:** Re-render the product to show the **" ++ dq.

Definition rotation_text1 : string :=
  dq ++ "**.
-   **Requirements:**
    -   Maintain the product's identity, design, colors, and textures perfectly.
    -   The background of the output image MUST be a solid, neutral light gray (#f0f0f0). This is crucial for easy use later. Do not include any shadows on the background.
    -   The product should be centered in the frame.
    -   The lighting on the product should be neutral and professional, as if in a studio.

The output should ONLY be the image of the rotated product. Do not add any text or explanation.
".

(** The template of the rotation prompt. *)
Definition rotationPrompt (rotationDescription : string) : string :=
  rotation_text0 ++ rotationDescription ++ rotation_text1.

(** The messages of the two orchestrators when the answer holds no image. *)
Definition composite_no_image : string :=
  "El modelo de IA no devolvió una imagen. Por favor, inténtalo de nuevo.".

(** The [TypeError] of [data.length] when the inline data of the answer has
    no [data], in the words of V8. *)
Definition data_undefined_error : string :=
  "Cannot read properties of undefined (reading 'length')".

Definition rotation_no_image : string :=
  "El modelo de IA no devolvió una imagen rotada. Por favor, inténtalo de nuevo.".

(** ** Images, canvases and files *)

Section Service.
Context {num : Type} {NUM : JsNumber num}.
Local Open Scope js_scope.

(** A decoded [Image]: for an image element outside the document, [width] and
    [height] are [naturalWidth] and [naturalHeight]. *)
Record image : Type := {
  img_src : string;
  naturalWidth : Z;
  naturalHeight : Z
}.

(** The calls made on a 2D context, in program order. *)
Inductive draw_op : Type :=
| fillStyle (color : string)
| fillRect (x y w h : num)
| drawImage2 (img : image) (dx dy : num)
| drawImage4 (img : image) (dx dy dw dh : num)
| drawImage8 (img : image) (sx sy sw sh dx dy dw dh : num)
| beginPath
| arc (x y radius startAngle endAngle : num) (counterclockwise : bool)
| fill
| lineWidth (w : num)
| strokeStyle (color : string)
| stroke.

Record canvas : Type := {
  cv_width : Z;
  cv_height : Z;
  cv_ops : list draw_op
}.

(** Assigning a number to [canvas.width] or [canvas.height]: conversion to
    [unsigned long], and the attribute's default when the value exceeds the
    range of a reflected non-negative integer. *)
Definition canvas_dimension (default : Z) (x : num) : Z :=
  let n := ToUint32 x in
  if (n <=? 2147483647)%Z then n else default.

(** What a [File] holds: bytes, or the encoding of a canvas by [toBlob]. *)
Inductive file_bits : Type :=
| RawBytes (bytes : string)
| CanvasBlob (c : canvas) (type : string) (quality : num).

Record File : Type := {
  file_name : string;
  file_type : string;
  file_content : file_bits
}.

(** ** The AI service interface *)

(** The inline data of a part: both fields are optional in an answer of the
    service. *)
Record inlineData_t : Type := { mimeType : option string; data : option string }.

Record Part : Type := {
  text : option string;
  inlineData : option inlineData_t
}.

Definition textPart (t : string) : Part := {| text := Some t; inlineData := None |}.
Definition inlinePart (d : inlineData_t) : Part := {| text := None; inlineData := Some d |}.

Record Content : Type := { parts : option (list Part) }.
Record Candidate : Type := { content : option Content }.

Record GenerateContentResponse : Type := {
  response_text : option string;
  candidates : option (list Candidate)
}.

Record request : Type := {
  model : string;
  contents : list Part
}.

(** ** The environment *)

Record browser : Type := {
  (* process.env.API_KEY *)
  env_API_KEY : option string;
  (* FileReader.readAsDataURL: [None] fires onerror, [Some url] fires onload *)
  readAsDataURL : File -> option string;
  (* assigning Image.src: [None] fires onerror, [Some img] fires onload *)
  loadImage : string -> option image;
  (* whether canvas.getContext('2d') yields a context for a canvas this size *)
  getContext2d : Z -> Z -> bool;
  (* whether canvas.toBlob hands a blob to its callback *)
  toBlob_succeeds : canvas -> bool;
  (* canvas.toDataURL(type, quality) *)
  toDataURL : canvas -> string -> num -> string;
  (* atob: [None] throws InvalidCharacterError *)
  atob : string -> option string;
  (* ai.models.generateContent for a client built with the given key, after
     the requests already made *)
  ai_generateContent : string -> list request -> request -> result GenerateContentResponse
}.

Variable B : browser.

(** ** Data URLs *)

Definition invalid_data_url : string := "URL de datos inválida".
Definition no_mime_type : string := "No se pudo extraer el tipo MIME de la URL de datos".

(** The header check shared by [dataURLtoFile] and [fileToPart]: the MIME type
    and the payload [arr[1]]. *)
Definition parse_data_url (dataurl : string) : result (string * string) :=
  let arr := split "," dataurl in
  match arr with
  | header :: payload :: _ =>
      match match_mime header with
      | None => Err no_mime_type
      | Some mime =>
          if is_empty mime then Err no_mime_type else Ok (mime, payload)
      end
  | _ => Err invalid_data_url
  end.

Definition dataURLtoFile (dataurl filename : string) : result File :=
  match parse_data_url dataurl with
  | Err e => Err e
  | Ok (mime, payload) =>
      match atob B payload with
      | None => Err "InvalidCharacterError"
      | Some bstr =>
          Ok {| file_name := filename; file_type := File_type mime;
                file_content := RawBytes bstr |}
      end
  end.

Definition fileToPart (file : File) : result Part :=
  match readAsDataURL B file with
  | None => Err "[object ProgressEvent]"
  | Some dataUrl =>
      match parse_data_url dataUrl with
      | Err e => Err e
      | Ok (mime, payload) =>
          Ok (inlinePart {| mimeType := Some mime; data := Some payload |})
      end
  end.

Definition fileToDataUrl (file : File) : result string :=
  match readAsDataURL B file with
  | None => Err "[object ProgressEvent]"
  | Some dataUrl => Ok dataUrl
  end.

(** Reading a file and decoding it, as [getImageDimensions], [resizeImage] and
    [markImage] do, with the three messages of each. *)
Definition read_and_load (file : File) (empty_msg load_msg reader_msg : string)
  : result image :=
  match readAsDataURL B file with
  | None => Err (reader_msg ++ "[object ProgressEvent]")
  | Some url =>
      if is_empty url then Err empty_msg
      else match loadImage B url with
           | None => Err (load_msg ++ "[object Event]")
           | Some img => Ok img
           end
  end.

(** The file reads as a non-empty data URL that decodes to [img]. *)
Definition decodes (file : File) (img : image) : Prop :=
  exists url,
    readAsDataURL B file = Some url /\ is_empty url = false /\ loadImage B url = Some img.

Definition getImageDimensions (file : File) : result (num * num) :=
  match read_and_load file "Error al leer el archivo."
          "Error al cargar la imagen: " "Error del lector de archivos: " with
  | Err e => Err e
  | Ok img => Ok (of_Z (naturalWidth img), of_Z (naturalHeight img))
  end.

(** ** Geometry *)

Record contentRect : Type := {
  offsetX : num;
  offsetY : num;
  contentWidth : num;
  contentHeight : num
}.

(** The rectangle [resizeImage] draws the image into ([x], [y], [newWidth],
    [newHeight] in the source). *)
Definition resizeImage_rect (img : image) (targetDimension : num) : contentRect :=
  let aspectRatio := of_Z (naturalWidth img) / of_Z (naturalHeight img) in
  let '(newWidth, newHeight) :=
    if aspectRatio >? of_Z 1
    then (targetDimension, targetDimension / aspectRatio)
    else (targetDimension * aspectRatio, targetDimension) in
  let x := (targetDimension - newWidth) / of_Z 2 in
  let y := (targetDimension - newHeight) / of_Z 2 in
  {| offsetX := x; offsetY := y; contentWidth := newWidth; contentHeight := newHeight |}.

(** The canvas [resizeImage] paints: the black square, then the image. *)
Definition resizeImage_canvas (img : image) (targetDimension : num) : canvas :=
  let rect := resizeImage_rect img targetDimension in
  {| cv_width := canvas_dimension 300 targetDimension;
     cv_height := canvas_dimension 150 targetDimension;
     cv_ops := [ fillStyle "black";
                 fillRect (of_Z 0) (of_Z 0) targetDimension targetDimension;
                 drawImage4 img (offsetX rect) (offsetY rect)
                   (contentWidth rect) (contentHeight rect) ] |}.

Definition resizeImage (file : File) (targetDimension : num) : result File :=
  match read_and_load file "Error al leer el archivo."
          "Error al cargar la imagen: " "Error del lector de archivos: " with
  | Err e => Err e
  | Ok img =>
      let c := resizeImage_canvas img targetDimension in
      if negb (getContext2d B (cv_width c) (cv_height c))
      then Err "No se pudo obtener el contexto del canvas."
      else if toBlob_succeeds B c
      then Ok {| file_name := file_name file;
                 file_type := "image/jpeg";
                 file_content := CanvasBlob c "image/jpeg" (decimal 95 100) |}
      else Err "La conversión de Canvas a Blob falló."
  end.

(** The rectangle [cropToOriginalAspectRatio] extracts. *)
Definition crop_rect (originalWidth originalHeight targetDimension : num) : contentRect :=
  let aspectRatio := originalWidth / originalHeight in
  let '(contentWidth, contentHeight) :=
    if aspectRatio >? of_Z 1
    then (targetDimension, targetDimension / aspectRatio)
    else (targetDimension * aspectRatio, targetDimension) in
  let x := (targetDimension - contentWidth) / of_Z 2 in
  let y := (targetDimension - contentHeight) / of_Z 2 in
  {| offsetX := x; offsetY := y;
     contentWidth := contentWidth; contentHeight := contentHeight |}.

(** The canvas [cropToOriginalAspectRatio] paints. *)
Definition crop_canvas (img : image) (originalWidth originalHeight targetDimension : num)
  : canvas :=
  let rect := crop_rect originalWidth originalHeight targetDimension in
  {| cv_width := canvas_dimension 300 (contentWidth rect);
     cv_height := canvas_dimension 150 (contentHeight rect);
     cv_ops := [ drawImage8 img (offsetX rect) (offsetY rect)
                   (contentWidth rect) (contentHeight rect)
                   (of_Z 0) (of_Z 0) (contentWidth rect) (contentHeight rect) ] |}.

Definition cropToOriginalAspectRatio (imageDataUrl : string)
  (originalWidth originalHeight targetDimension : num) : result string :=
  match loadImage B imageDataUrl with
  | None => Err "Error al cargar la imagen durante el recorte: [object Event]"
  | Some img =>
      let c := crop_canvas img originalWidth originalHeight targetDimension in
      if negb (getContext2d B (cv_width c) (cv_height c))
      then Err "No se pudo obtener el contexto del canvas para recortar."
      else Ok (toDataURL B c "image/jpeg" (decimal 95 100))
  end.

Record position_t : Type := { xPercent : num; yPercent : num }.
Record dimensions : Type := { originalWidth : num; originalHeight : num }.

Record marker : Type := {
  marker_rect : contentRect;
  finalMarkerX : num;
  finalMarkerY : num;
  markerRadius : num
}.

(** The marker [markImage] computes on a canvas of the given size. *)
Definition markImage_marker (canvas_width canvas_height : Z) (position : position_t)
  (originalDimensions : dimensions) : marker :=
  let targetDimension := of_Z canvas_width in
  let aspectRatio := originalWidth originalDimensions / originalHeight originalDimensions in
  let '(contentWidth, contentHeight) :=
    if aspectRatio >? of_Z 1
    then (targetDimension, targetDimension / aspectRatio)
    else (targetDimension * aspectRatio, targetDimension) in
  let offsetX := (targetDimension - contentWidth) / of_Z 2 in
  let offsetY := (targetDimension - contentHeight) / of_Z 2 in
  let markerXInContent := (xPercent position / of_Z 100) * contentWidth in
  let markerYInContent := (yPercent position / of_Z 100) * contentHeight in
  let finalMarkerX := offsetX + markerXInContent in
  let finalMarkerY := offsetY + markerYInContent in
  let markerRadius :=
    Math_max (of_Z 5)
      (Math_min (of_Z canvas_width) (of_Z canvas_height) * decimal 15 1000) in
  {| marker_rect := {| offsetX := offsetX; offsetY := offsetY;
                       contentWidth := contentWidth; contentHeight := contentHeight |};
     finalMarkerX := finalMarkerX;
     finalMarkerY := finalMarkerY;
     markerRadius := markerRadius |}.

(** The canvas [markImage] paints: the padded image, then the red disc with
    its white outline. *)
Definition markImage_canvas (img : image) (position : position_t)
  (originalDimensions : dimensions) : canvas :=
  let width := canvas_dimension 300 (of_Z (naturalWidth img)) in
  let height := canvas_dimension 150 (of_Z (naturalHeight img)) in
  let m := markImage_marker width height position originalDimensions in
  {| cv_width := width;
     cv_height := height;
     cv_ops := [ drawImage2 img (of_Z 0) (of_Z 0);
                 beginPath;
                 arc (finalMarkerX m) (finalMarkerY m) (markerRadius m)
                   (of_Z 0) (of_Z 2 * Math_PI) false;
                 fillStyle "red";
                 fill;
                 lineWidth (markerRadius m * decimal 2 10);
                 strokeStyle "white";
                 stroke ] |}.

Definition markImage (paddedSquareFile : File) (position : position_t)
  (originalDimensions : dimensions) : result File :=
  match read_and_load paddedSquareFile "Error al leer el archivo para marcarlo."
          "Error al cargar la imagen durante el marcado: "
          "Error del lector de archivos durante el marcado: " with
  | Err e => Err e
  | Ok img =>
      let c := markImage_canvas img position originalDimensions in
      if negb (getContext2d B (cv_width c) (cv_height c))
      then Err "No se pudo obtener el contexto del canvas para marcar."
      else if toBlob_succeeds B c
      then Ok {| file_name := "marked-" ++ file_name paddedSquareFile;
                 file_type := "image/jpeg";
                 file_content := CanvasBlob c "image/jpeg" (decimal 95 100) |}
      else Err "La conversión de Canvas a Blob falló durante el marcado."
  end.

Definition getShadowDescription (intensity : num) : string :=
  if intensity <=? of_Z 10 then "very faint and almost invisible"
  else if intensity <=? of_Z 35 then "subtle and soft"
  else if intensity <=? of_Z 65 then "normal and realistic"
  else if intensity <=? of_Z 85 then "strong and defined"
  else "very dark and dramatic with high contrast".

Definition getApiKey : result string :=
  let apiKey := trim (match env_API_KEY B with Some k => k | None => EmptyString end) in
  if is_empty apiKey || String.eqb apiKey "undefined"
  then Err "La clave API (API_KEY) no está configurada. Por favor, asegúrate de añadir tu clave de Gemini en el entorno de despliegue o archivo .env."
  else Ok apiKey.

(** ** The orchestrators

    An orchestrator threads the list of requests sent to the AI service so
    far and may fail: [M A] is a computation from that list to an outcome and
    the extended list. *)

Definition M (A : Type) : Type := list request -> result A * list request.

Definition ret {A} (a : A) : M A := fun log => (Ok a, log).

Definition bind {A C} (m : M A) (k : A -> M C) : M C :=
  fun log =>
    match m log with
    | (Ok a, log') => k a log'
    | (Err e, log') => (Err e, log')
    end.

(** [await] of a helper that makes no AI call. *)
Definition await {A} (r : result A) : M A := fun log => (r, log).

(** [try { m } catch (error) { h }] *)
Definition try_catch {A} (m : M A) (h : string -> M A) : M A :=
  fun log =>
    match m log with
    | (Ok a, log') => (Ok a, log')
    | (Err e, log') => h e log'
    end.

Notation "x <- m ;; k" := (bind m (fun x => k))
  (at level 100, m at next level, right associativity).

(** [await ai.models.generateContent({ model, contents: { parts } })] *)
Definition generateContent (apiKey model : string) (parts : list Part)
  : M GenerateContentResponse :=
  fun log =>
    let req := {| model := model; contents := parts |} in
    (ai_generateContent B apiKey log req, (log ++ [req])%list).

(** [response.candidates?.[0]?.content?.parts?.find(part => part.inlineData)] *)
Definition imagePartFromResponse (response : GenerateContentResponse) : option Part :=
  match candidates response with
  | Some (first :: _) =>
      match content first with
      | Some c =>
          match parts c with
          | Some ps =>
              find (fun part => match inlineData part with Some _ => true | None => false end) ps
          | None => None
          end
      | None => None
      end
  | _ => None
  end.

(** [part?.inlineData] *)
Definition inlineData_of (part : option Part) : option inlineData_t :=
  match part with
  | Some p => inlineData p
  | None => None
  end.

Record DebugInfo : Type := {
  markedSceneUrl : string;
  resizedProductUrl : string;
  resizedSceneUrl : string;
  finalPrompt : string
}.

Record CompositeResult : Type := {
  finalImageUrl : string;
  debugInfo : DebugInfo
}.

Definition MAX_DIMENSION : num := of_Z 1024.

Definition generateCompositeImage
  (objectImage : File) (objectDescription : string)
  (environmentImage : File) (environmentDescription : string)
  (dropPosition : position_t) (customInstructions : string) (shadowIntensity : num)
  : M CompositeResult :=
  apiKey <- await getApiKey ;;
  original <- await (getImageDimensions environmentImage) ;;
  let '(originalWidth, originalHeight) := original in
  (* STEP 1 *)
  resizedObjectImage <- await (resizeImage objectImage MAX_DIMENSION) ;;
  resizedEnvironmentImage <- await (resizeImage environmentImage MAX_DIMENSION) ;;
  (* STEP 2 *)
  lightingDescription <-
    try_catch
      (cleanResizedEnvironmentImagePart <- await (fileToPart resizedEnvironmentImage) ;;
       lightingResponse <- generateContent apiKey "gemini-2.5-flash-lite"
                             [textPart lightingPrompt; cleanResizedEnvironmentImagePart] ;;
       ret (response_text lightingResponse))
      (fun _ => ret (Some lighting_fallback)) ;;
  (* STEP 3 *)
  markedResizedEnvironmentImage <-
    await (markImage resizedEnvironmentImage dropPosition
             {| originalWidth := originalWidth; originalHeight := originalHeight |}) ;;
  markedSceneUrl <- await (fileToDataUrl markedResizedEnvironmentImage) ;;
  resizedProductUrl <- await (fileToDataUrl resizedObjectImage) ;;
  resizedSceneUrl <- await (fileToDataUrl resizedEnvironmentImage) ;;
  (* STEP 4 *)
  markedEnvironmentImagePart <- await (fileToPart markedResizedEnvironmentImage) ;;
  semanticLocationDescription <-
    try_catch
      (descriptionResponse <- generateContent apiKey "gemini-2.5-flash-lite"
                                [textPart descriptionPrompt; markedEnvironmentImagePart] ;;
       ret (response_text descriptionResponse))
      (fun _ => ret (Some location_fallback)) ;;
  (* STEP 5 *)
  objectImagePart <- await (fileToPart resizedObjectImage) ;;
  cleanEnvironmentImagePart <- await (fileToPart resizedEnvironmentImage) ;;
  let shadowIntensityDescription := getShadowDescription shadowIntensity in
  let prompt := compositePrompt semanticLocationDescription lightingDescription
                  shadowIntensityDescription (customInstructionsPart customInstructions) in
  response <- generateContent apiKey "gemini-2.5-flash-image"
                [objectImagePart; cleanEnvironmentImagePart; textPart prompt] ;;
  match inlineData_of (imagePartFromResponse response) with
  | Some {| mimeType := mimeType; data := data |} =>
      (* console.log(..., data.length) *)
      match data with
      | None => await (Err data_undefined_error)
      | Some data =>
          let generatedSquareImageUrl :=
            "data:" ++ interpolate mimeType ++ ";base64," ++ data in
          finalImageUrl <- await (cropToOriginalAspectRatio generatedSquareImageUrl
                                    originalWidth originalHeight MAX_DIMENSION) ;;
          ret {| finalImageUrl := finalImageUrl;
                 debugInfo := {| markedSceneUrl := markedSceneUrl;
                                 resizedProductUrl := resizedProductUrl;
                                 resizedSceneUrl := resizedSceneUrl;
                                 finalPrompt := prompt |} |}
      end
  | None =>
      await (Err composite_no_image)
  end.

Definition rotateProductImage (productImage : File) (rotationDescription : string)
  : M File :=
  apiKey <- await getApiKey ;;
  resizedProductImage <- await (resizeImage productImage MAX_DIMENSION) ;;
  productImagePart <- await (fileToPart resizedProductImage) ;;
  let prompt := rotationPrompt rotationDescription in
  response <- generateContent apiKey "gemini-2.5-flash-image"
                [productImagePart; textPart prompt] ;;
  match inlineData_of (imagePartFromResponse response) with
  | Some {| mimeType := mimeType; data := data |} =>
      let generatedImageUrl :=
        "data:" ++ interpolate mimeType ++ ";base64," ++ interpolate data in
      let newFileName :=
        "rotated-" ++ replace_whitespace rotationDescription ++ "-" ++ file_name productImage in
      await (dataURLtoFile generatedImageUrl newFileName)
  | None =>
      await (Err rotation_no_image)
  end.

(** ** The drop point of the touch handler

    The computation of [handleTouchEnd] once the drop zone and the scene
    image are found: the image is shown letterboxed in its container, and a
    drop inside it is reported in percent of the shown image. *)

Record DOMRect : Type := {
  rect_left : num;
  rect_top : num;
  rect_width : num;
  rect_height : num
}.

Definition touch_relativePosition (img : image) (containerRect : DOMRect)
  (clientX clientY : num) : option position_t :=
  let containerWidth := rect_width containerRect in
  let containerHeight := rect_height containerRect in
  let imageAspectRatio := of_Z (naturalWidth img) / of_Z (naturalHeight img) in
  let containerAspectRatio := containerWidth / containerHeight in
  let '(renderedWidth, renderedHeight) :=
    if imageAspectRatio >? containerAspectRatio
    then (containerWidth, containerWidth / imageAspectRatio)
    else (containerHeight * imageAspectRatio, containerHeight) in
  let offsetX := (containerWidth - renderedWidth) / of_Z 2 in
  let offsetY := (containerHeight - renderedHeight) / of_Z 2 in
  let dropX := clientX - rect_left containerRect in
  let dropY := clientY - rect_top containerRect in
  let imageX := dropX - offsetX in
  let imageY := dropY - offsetY in
  if negb ((imageX <? of_Z 0) || (imageX >? renderedWidth)
           || (imageY <? of_Z 0) || (imageY >? renderedHeight))
  then Some {| xPercent := (imageX / renderedWidth) * of_Z 100;
               yPercent := (imageY / renderedHeight) * of_Z 100 |}
  else None.

End Service.

(** ** A browser to run the service in

    A scene of 800 by 600 pixels, a product of 400 by 400, a file reader that
    never fails and encodes in Base64, a decoder that knows the two uploads
    and takes every other data URL for an encoded square canvas of 1024
    pixels, the [atob] of the standard, and an AI service that answers its
    [n]-th request with [ai n]. *)

(** Base64, for the file reader and the [atob] of this browser. *)
Definition base64_alphabet : string :=
  "ABCDEFGHIJKLMNOPQRSTUVWXYZabcdefghijklmnopqrstuvwxyz0123456789+/".

Definition base64_digit (n : N) : ascii :=
  match String.get (N.to_nat n) base64_alphabet with
  | Some c => c
  | None => "="%char
  end.

Fixpoint index_from (c : ascii) (s : string) (i : N) : option N :=
  match s with
  | EmptyString => None
  | String d rest => if Ascii.eqb c d then Some i else index_from c rest (i + 1)
  end.

Definition base64_value (c : ascii) : option N := index_from c base64_alphabet 0.

Fixpoint base64_encode (s : string) : string :=
  match s with
  | EmptyString => EmptyString
  | String a EmptyString =>
      let n := N_of_ascii a in
      String (base64_digit (n / 4)) (String (base64_digit (n mod 4 * 16)) "==")
  | String a (String b EmptyString) =>
      let n := (N_of_ascii a * 256 + N_of_ascii b)%N in
      String (base64_digit (n / 1024))
        (String (base64_digit (n / 16 mod 64)) (String (base64_digit (n mod 16 * 4)) "="))
  | String a (String b (String c rest)) =>
      let n := (N_of_ascii a * 65536 + N_of_ascii b * 256 + N_of_ascii c)%N in
      String (base64_digit (n / 262144))
        (String (base64_digit (n / 4096 mod 64))
           (String (base64_digit (n / 64 mod 64))
              (String (base64_digit (n mod 64)) (base64_encode rest))))
  end.

(** The values of the digits of [s], if all are digits. *)
Fixpoint base64_values (s : string) : option (list N) :=
  match s with
  | EmptyString => Some []
  | String c rest =>
      match base64_value c, base64_values rest with
      | Some v, Some vs => Some (v :: vs)
      | _, _ => None
      end
  end.

Fixpoint base64_bytes (vs : list N) : string :=
  match vs with
  | a :: b :: c :: d :: rest =>
      let n := (a * 262144 + b * 4096 + c * 64 + d)%N in
      String (ascii_of_N (n / 65536))
        (String (ascii_of_N (n / 256 mod 256))
           (String (ascii_of_N (n mod 256)) (base64_bytes rest)))
  | [a; b; c] =>
      let n := (a * 4096 + b * 64 + c)%N in
      String (ascii_of_N (n / 1024)) (String (ascii_of_N (n / 4 mod 256)) EmptyString)
  | [a; b] => String (ascii_of_N ((a * 64 + b) / 16)) EmptyString
  | _ => EmptyString
  end.

Definition is_ascii_whitespace (c : ascii) : bool :=
  let n := nat_of_ascii c in
  ((n =? 9) || (n =? 10) || (n =? 12) || (n =? 13) || (n =? 32))%nat.

Fixpoint remove_chars (p : ascii -> bool) (s : string) : string :=
  match s with
  | EmptyString => EmptyString
  | String c rest => if p c then remove_chars p rest else String c (remove_chars p rest)
  end.

(** [s] without one or two [=] at its end. *)
Fixpoint strip_padding (s : string) : string :=
  match s with
  | String "=" EmptyString => EmptyString
  | String "=" (String "=" EmptyString) => EmptyString
  | String c rest => String c (strip_padding rest)
  | EmptyString => EmptyString
  end.

(** The forgiving Base64 decoding that [atob] performs. *)
Definition base64_decode (data : string) : option string :=
  let data := remove_chars is_ascii_whitespace data in
  let data := if (String.length data mod 4 =? 0)%nat then strip_padding data else data in
  if (String.length data mod 4 =? 1)%nat then None
  else option_map base64_bytes (base64_values data).

Section Fixture.
Context {num : Type}.

Definition scene_file : File (num := num) :=
  {| file_name := "scene.jpeg"; file_type := "image/jpeg"; file_content := RawBytes "SCENE" |}.

Definition product_file : File (num := num) :=
  {| file_name := "product.png"; file_type := "image/png"; file_content := RawBytes "PRODUCT" |}.

Definition scene_image : image :=
  {| img_src := "data:image/jpeg;base64,U0NFTkU=";
     naturalWidth := 800; naturalHeight := 600 |}.

Definition product_image : image :=
  {| img_src := "data:image/png;base64,UFJPRFVDVA==";
     naturalWidth := 400; naturalHeight := 400 |}.

(** The data URL of every canvas blob, the data URL of every canvas, and the
    payload of the generated image (the Base64 of [CANVAS], [CROPPED] and
    [GENERATED]). *)
Definition canvas_data : string := "Q0FOVkFT".
Definition canvas_url : string := "data:image/jpeg;base64,Q0FOVkFT".
Definition cropped_url : string := "data:image/jpeg;base64,Q1JPUFBFRA==".
Definition generated_data : string := "R0VORVJBVEVE".
Definition generated_url : string := "data:image/png;base64,R0VORVJBVEVE".

Definition square_image (url : string) : image :=
  {| img_src := url; naturalWidth := 1024; naturalHeight := 1024 |}.

Definition test_browser (ai : nat -> result GenerateContentResponse) : browser (num := num) :=
  {| env_API_KEY := Some "test-key";
     readAsDataURL := fun f =>
       Some ("data:" ++ file_type f ++ ";base64,"
             ++ match file_content f with
                | RawBytes b => base64_encode b
                | CanvasBlob _ _ _ => canvas_data
                end);
     loadImage := fun url =>
       if String.eqb url (img_src scene_image) then Some scene_image
       else if String.eqb url (img_src product_image) then Some product_image
       else Some (square_image url);
     getContext2d := fun _ _ => true;
     toBlob_succeeds := fun _ => true;
     toDataURL := fun _ _ _ => cropped_url;
     atob := base64_decode;
     ai_generateContent := fun _ log _ => ai (List.length log) |}.

(** A response carrying some text and one generated image. *)
Definition image_response : GenerateContentResponse :=
  {| response_text := None;
     candidates :=
       Some [ {| content :=
                   Some {| parts :=
                             Some [ textPart "Here is the image.";
                                    inlinePart {| mimeType := Some "image/png";
                                                  data := Some generated_data |} ] |} |} ] |}.


(** A response carrying text only. *)
Definition text_response (t : string) : GenerateContentResponse :=
  {| response_text := Some t;
     candidates := Some [ {| content := Some {| parts := Some [ textPart t ] |} |} ] |}.

(** Three services: every call answered; the analysis model down and the
    image model answering; the image model answering with text only. *)
Definition all_answered (n : nat) : result GenerateContentResponse :=
  match n with
  | 0%nat => Ok (text_response "Soft daylight comes from a window on the left.")
  | 1%nat => Ok (text_response "The product location is on the wooden floor.")
  | _ => Ok image_response
  end.

Definition analysis_down (n : nat) : result GenerateContentResponse :=
  match n with
  | 2%nat => Ok image_response
  | _ => Err "network error"
  end.

Definition image_refused (n : nat) : result GenerateContentResponse :=
  match n with
  | 2%nat => Ok (text_response "I cannot produce this image.")
  | _ => all_answered n
  end.

End Fixture.

(** * Properties *)

Unset Implicit Arguments.

(** ** The helpers on examples *)

Lemma exact_accurate (x : Q) :
  (1 # 2 ^ 64 <= x <= inject_Z (2 ^ 64))%Q -> (Qabs (x - x) <= x * (1 # 2 ^ 53))%Q.
Proof.
  intros [Hx _].
  assert (E : (x - x == 0)%Q) by ring.
  rewrite E. change (Qabs 0) with 0%Q.
  assert (0 < 1 # 2 ^ 64)%Q by reflexivity.
  assert (0 < 1 # 2 ^ 53)%Q by reflexivity.
  nra.
Qed.

(** Exact rational arithmetic: the rounding that changes nothing. *)
Definition exact : rounding :=
  {| rnd := fun x => x;
     rnd_monotone := fun x y H => H;
     rnd_idempotent := fun x => Qeq_refl x;
     rnd_integer := fun n _ => Qeq_refl (inject_Z n);
     rnd_accurate := exact_accurate |}.

Example float_of_Z_1024 : Prim2SF (float_of_Z 1024) = S754_finite false 4503599627370496 (-42).
Proof. vm_compute. reflexivity. Qed.
Example float_truncate_ex : float_truncate (PrimFloat.div (float_of_Z 2048) (float_of_Z 3)) = 682%Z.
Proof. vm_compute. reflexivity. Qed.
Example float_value_ex :
  (float_value (PrimFloat.div (float_of_Z 3) (float_of_Z 4)) == 3 # 4)%Q.
Proof. vm_compute. reflexivity. Qed.

Example split_ex : split "," "data:image/png;base64,AAAA" = ["data:image/png;base64"; "AAAA"].
Proof. reflexivity. Qed.
Example match_mime_ex : match_mime "data:image/png;base64" = Some "image/png".
Proof. reflexivity. Qed.
Example match_mime_none : match_mime "data:image/jpeg" = None.
Proof. reflexivity. Qed.
Example match_mime_empty : match_mime "data:;base64" = Some EmptyString.
Proof. reflexivity. Qed.
Example match_mime_line : match_mime ("data:image" ++ utf8 8232 ++ "/png;base64") = None.
Proof. vm_compute. reflexivity. Qed.
Example trim_ex : trim "  make it smaller  " = "make it smaller".
Proof. vm_compute. reflexivity. Qed.
Example trim_unicode :
  trim (utf8 160 ++ " a  b" ++ utf8 8232 ++ utf8 65279) = "a  b"
  /\ trim (utf8 160 ++ utf8 12288) = EmptyString.
Proof. vm_compute. split; reflexivity. Qed.
Example replace_ex : replace_whitespace "a view  of its left side" = "a-view-of-its-left-side".
Proof. vm_compute. reflexivity. Qed.
Example replace_unicode :
  replace_whitespace (" back" ++ utf8 160 ++ " view ") = "-back-view-".
Proof. vm_compute. reflexivity. Qed.
Example File_type_ex :
  File_type "IMAGE/Png" = "image/png" /\ File_type "imagé/png" = EmptyString.
Proof. vm_compute. split; reflexivity. Qed.
Example base64_ex :
  base64_decode generated_data = Some "GENERATED"
  /\ base64_decode "GENERATED" = None /\ base64_decode "undefined" = None
  /\ base64_encode "SCENE" = "U0NFTkU=".
Proof. vm_compute. repeat split. Qed.

(** ** Strings *)

Lemma string_app_assoc (a b c : string) : (a ++ b) ++ c = a ++ (b ++ c).
Proof. induction a as [|x a IH]; simpl; [reflexivity|now rewrite IH]. Qed.

Lemma string_app_empty (s : string) : s ++ EmptyString = s.
Proof. induction s as [|c p IH]; simpl; [reflexivity|now rewrite IH]. Qed.

Lemma string_app_length (a b : string) :
  String.length (a ++ b) = (String.length a + String.length b)%nat.
Proof. induction a as [|x a IH]; simpl; [reflexivity|now rewrite IH]. Qed.

Lemma string_app_inv_head (a b c : string) : a ++ b = a ++ c -> b = c.
Proof. induction a as [|x a IH]; simpl; [auto|]. intros [= H]. auto. Qed.

Lemma strip_prefix_spec (p s r : string) : strip_prefix p s = Some r <-> s = p ++ r.
Proof.
  revert s. induction p as [|a p IH]; intro s; simpl.
  - split; [intros [= ->]; reflexivity|intros ->; reflexivity].
  - destruct s as [|b s]; [split; discriminate|].
    destruct (Ascii.eqb a b) eqn:E.
    + apply Ascii.eqb_eq in E. subst b. rewrite IH. split; [intros ->; reflexivity|].
      intros [= ->]. reflexivity.
    + apply Ascii.eqb_neq in E. split; [discriminate|]. intros [= -> _]. contradiction.
Qed.

Lemma strip_first_sound (chars : list string) (s r : string) :
  strip_first chars s = Some r -> exists p, In p chars /\ s = p ++ r.
Proof.
  induction chars as [|p chars IH]; simpl; [discriminate|].
  destruct (strip_prefix p s) as [r'|] eqn:E.
  - intros [= <-]. exists p. split; [left; reflexivity|]. now apply strip_prefix_spec.
  - intro H. destruct (IH H) as (q & Hq & ->). exists q. auto.
Qed.

Lemma strip_first_none (chars : list string) (s : string) :
  strip_first chars s = None -> forall p r, In p chars -> s <> p ++ r.
Proof.
  induction chars as [|q chars IH]; simpl; [intros _ p r []|].
  destruct (strip_prefix q s) as [r'|] eqn:E; [discriminate|].
  intros H p r [<-|Hp] Hs.
  - apply strip_prefix_spec in Hs. congruence.
  - exact (IH H p r Hp Hs).
Qed.

(** One of two strings is a prefix of the other. *)
Fixpoint compatible (p q : string) : bool :=
  match p, q with
  | String a p', String b q' => Ascii.eqb a b && compatible p' q'
  | _, _ => true
  end.

Lemma app_compatible (p q x y : string) : p ++ x = q ++ y -> compatible p q = true.
Proof.
  revert q. induction p as [|a p IH]; intros q H; [reflexivity|].
  destruct q as [|b q]; [reflexivity|].
  simpl in H. injection H as -> H. simpl. rewrite Ascii.eqb_refl. exact (IH q H).
Qed.

(** No string of the list is a proper prefix of another. *)
Definition prefix_free (chars : list string) : bool :=
  forallb (fun p => forallb (fun q => negb (compatible p q) || String.eqb p q) chars) chars.

Lemma prefix_free_spec (chars : list string) (p q x y : string) :
  prefix_free chars = true -> In p chars -> In q chars -> p ++ x = q ++ y ->
  p = q /\ x = y.
Proof.
  intros F Hp Hq H. unfold prefix_free in F. rewrite forallb_forall in F.
  specialize (F p Hp). rewrite forallb_forall in F. specialize (F q Hq).
  rewrite (app_compatible _ _ _ _ H) in F. simpl in F.
  apply String.eqb_eq in F. subst q. split; [reflexivity|].
  exact (string_app_inv_head _ _ _ H).
Qed.

Lemma strip_first_complete (chars : list string) (p r : string) :
  prefix_free chars = true -> In p chars -> strip_first chars (p ++ r) = Some r.
Proof.
  intros F Hp. destruct (strip_first chars (p ++ r)) as [r'|] eqn:E.
  - destruct (strip_first_sound _ _ _ E) as (q & Hq & H).
    destruct (prefix_free_spec _ _ _ _ _ F Hp Hq H) as [_ ->]. reflexivity.
  - exfalso. exact (strip_first_none _ _ E p r Hp eq_refl).
Qed.

Lemma whitespace_prefix_free : prefix_free whitespace = true.
Proof. vm_compute. reflexivity. Qed.

Lemma line_terminators_prefix_free : prefix_free line_terminators = true.
Proof. vm_compute. reflexivity. Qed.

Lemma whitespace_not_empty (w : string) : In w whitespace -> w <> EmptyString.
Proof.
  intros H ->. revert H. unfold whitespace. simpl.
  repeat (intros [H|H]; [discriminate H|revert H]). intros [].
Qed.

Lemma after_whitespace_sound (s r : string) :
  after_whitespace s = Some r -> exists w, In w whitespace /\ s = w ++ r.
Proof. apply strip_first_sound. Qed.

Lemma after_whitespace_complete (w r : string) :
  In w whitespace -> after_whitespace (w ++ r) = Some r.
Proof. apply strip_first_complete. exact whitespace_prefix_free. Qed.

Lemma after_whitespace_none (s : string) :
  after_whitespace s = None -> forall w r, In w whitespace -> s <> w ++ r.
Proof. apply strip_first_none. Qed.

Lemma after_whitespace_shorter (s r : string) :
  after_whitespace s = Some r -> (String.length r < String.length s)%nat.
Proof.
  intro H. destruct (after_whitespace_sound _ _ H) as (w & Hw & ->).
  rewrite string_app_length.
  pose proof (whitespace_not_empty w Hw). destruct w; [contradiction|simpl; lia].
Qed.

(** *** Leading white space *)

Lemma trimStart_fuel_enough (n m : nat) (s : string) :
  (String.length s <= n)%nat -> (String.length s <= m)%nat ->
  trimStart_fuel n s = trimStart_fuel m s.
Proof.
  revert m s. induction n as [|n IH]; intros m s Hn Hm.
  - destruct s; [|simpl in Hn; lia]. destruct m; reflexivity.
  - destruct m as [|m].
    + destruct s; [reflexivity|simpl in Hm; lia].
    + simpl. destruct (after_whitespace s) as [r|] eqn:E; [|reflexivity].
      pose proof (after_whitespace_shorter _ _ E). apply IH; lia.
Qed.

Lemma trimStart_step (s : string) :
  trimStart s = match after_whitespace s with
                | Some rest => trimStart rest
                | None => s
                end.
Proof.
  unfold trimStart. destruct s as [|c s]; [reflexivity|].
  cbn [String.length trimStart_fuel].
  destruct (after_whitespace (String c s)) as [r|] eqn:E; [|reflexivity].
  pose proof (after_whitespace_shorter _ _ E) as L. simpl in L.
  apply trimStart_fuel_enough; lia.
Qed.

Lemma trimStart_whitespace (w s : string) :
  In w whitespace -> trimStart (w ++ s) = trimStart s.
Proof. intro H. now rewrite trimStart_step, (after_whitespace_complete w s H). Qed.

Lemma trimStart_blank (a s : string) : blank a -> trimStart (a ++ s) = trimStart s.
Proof.
  induction 1 as [|w a Hw Ha IH]; [reflexivity|].
  rewrite string_app_assoc, trimStart_whitespace by assumption. exact IH.
Qed.

Lemma trimStart_fixed (s : string) : after_whitespace s = None -> trimStart s = s.
Proof. intro H. now rewrite trimStart_step, H. Qed.

(** Induction on the length of a string. *)
Lemma string_length_ind (P : string -> Prop) :
  (forall s, (forall t, (String.length t < String.length s)%nat -> P t) -> P s) ->
  forall s, P s.
Proof.
  intros H s. remember (String.length s) as n eqn:E. revert s E.
  induction n as [n IH] using lt_wf_ind. intros s ->. apply H.
  intros t Ht. exact (IH _ Ht t eq_refl).
Qed.

Lemma trimStart_split (s : string) :
  exists a, s = a ++ trimStart s /\ blank a /\ after_whitespace (trimStart s) = None.
Proof.
  induction s as [s IH] using string_length_ind.
  rewrite trimStart_step. destruct (after_whitespace s) as [r|] eqn:E.
  - destruct (after_whitespace_sound _ _ E) as (w & Hw & ->).
    destruct (IH r (after_whitespace_shorter _ _ E)) as (a & Ha & Hb & Hn).
    exists (w ++ a). rewrite string_app_assoc, <- Ha.
    split; [reflexivity|]. split; [now constructor|exact Hn].
  - exists EmptyString. split; [reflexivity|]. split; [constructor|exact E].
Qed.

Lemma is_blank_spec (s : string) : is_blank s = true <-> blank s.
Proof.
  unfold is_blank. split.
  - intro H. destruct (trimStart_split s) as (a & Hs & Ha & _).
    destruct (trimStart s); [|discriminate]. rewrite string_app_empty in Hs. now subst.
  - intro H. rewrite <- (string_app_empty s), (trimStart_blank s EmptyString H). reflexivity.
Qed.

Lemma blank_app (a b : string) : blank a -> blank b -> blank (a ++ b).
Proof.
  induction 1 as [|w a Hw Ha IH]; intro Hb; [exact Hb|].
  rewrite string_app_assoc. constructor; auto.
Qed.

Lemma blank_ends (s : string) :
  blank s -> s <> EmptyString -> exists p w, In w whitespace /\ s = p ++ w.
Proof.
  induction 1 as [|w s Hw Hs IH]; intro Hne; [contradiction|].
  destruct s as [|c s].
  - exists EmptyString, w. rewrite string_app_empty. auto.
  - destruct IH as (p & w' & Hw' & E); [discriminate|].
    exists (w ++ p), w'. rewrite E, string_app_assoc. auto.
Qed.

(** *** Trailing white space *)

Lemma trimEnd_split (s : string) : exists b, s = trimEnd s ++ b /\ blank b.
Proof.
  induction s as [|c s IH]; [exists EmptyString; split; [reflexivity|constructor]|].
  cbn [trimEnd]. destruct (is_blank (String c s)) eqn:E.
  - exists (String c s). split; [reflexivity|]. now apply is_blank_spec.
  - destruct IH as (b & Hs & Hb). exists b. split; [|exact Hb].
    simpl. now rewrite <- Hs.
Qed.

Lemma trimEnd_ends (s p w : string) : In w whitespace -> trimEnd s <> p ++ w.
Proof.
  intro Hw. revert p. induction s as [|c s IH]; intros p H.
  - simpl in H. destruct p; [|discriminate]. simpl in H.
    exact (whitespace_not_empty w Hw (eq_sym H)).
  - cbn [trimEnd] in H. destruct (is_blank (String c s)) eqn:E.
    + destruct p; [|discriminate]. simpl in H.
      exact (whitespace_not_empty w Hw (eq_sym H)).
    + destruct p as [|d p].
      * simpl in H. destruct (trimEnd_split s) as (b & Hs & Hb).
        assert (B : blank (String c s)).
        { rewrite Hs. change (String c (trimEnd s ++ b)) with (String c (trimEnd s) ++ b).
          rewrite H. now constructor. }
        apply is_blank_spec in B. congruence.
      * simpl in H. injection H as _ H. exact (IH p H).
Qed.

Lemma trimEnd_fixed (s : string) :
  (forall p w, In w whitespace -> s <> p ++ w) -> trimEnd s = s.
Proof.
  induction s as [|c s IH]; intro H; [reflexivity|].
  cbn [trimEnd]. destruct (is_blank (String c s)) eqn:E.
  - apply is_blank_spec in E.
    destruct (blank_ends _ E) as (p & w & Hw & Hs); [discriminate|].
    exfalso. exact (H p w Hw Hs).
  - rewrite IH; [reflexivity|].
    intros p w Hw ->. exact (H (String c p) w Hw eq_refl).
Qed.

Lemma trimEnd_starts (s : string) :
  after_whitespace s = None -> after_whitespace (trimEnd s) = None.
Proof.
  intro H. destruct (after_whitespace (trimEnd s)) as [r|] eqn:E; [|reflexivity].
  destruct (after_whitespace_sound _ _ E) as (w & Hw & Ht).
  destruct (trimEnd_split s) as (b & Hs & _).
  rewrite Ht, string_app_assoc in Hs.
  exfalso. exact (after_whitespace_none _ H w _ Hw Hs).
Qed.

(** *** [trim] *)

(** What [trim] computes: the string is white space, the result, white
    space, and the result neither starts nor ends with white space. *)
Lemma trim_spec (s : string) :
  (exists a b, s = a ++ trim s ++ b /\ blank a /\ blank b)
  /\ (forall w r, In w whitespace -> trim s <> w ++ r)
  /\ (forall p w, In w whitespace -> trim s <> p ++ w).
Proof.
  unfold trim. destruct (trimStart_split s) as (a & Hs & Ha & Hn).
  destruct (trimEnd_split (trimStart s)) as (b & Ht & Hb).
  split; [|split].
  - exists a, b. rewrite <- Ht. auto.
  - intros w r Hw. apply after_whitespace_none; [|exact Hw]. now apply trimEnd_starts.
  - intros p w Hw. now apply trimEnd_ends.
Qed.

Lemma trim_idempotent (s : string) : trim (trim s) = trim s.
Proof.
  destruct (trim_spec s) as (_ & Hstart & Hend).
  unfold trim at 1. rewrite trimStart_fixed.
  - now apply trimEnd_fixed.
  - destruct (after_whitespace (trim s)) as [r|] eqn:E; [|reflexivity].
    destruct (after_whitespace_sound _ _ E) as (w & Hw & Ht).
    exfalso. exact (Hstart w r Hw Ht).
Qed.

Lemma trim_blank (s : string) : blank s -> trim s = EmptyString.
Proof.
  intro H. unfold trim.
  rewrite <- (string_app_empty s), (trimStart_blank s EmptyString H). reflexivity.
Qed.

Lemma trim_empty_iff (s : string) : trim s = EmptyString <-> blank s.
Proof.
  split; [|apply trim_blank].
  intro H. destruct (trim_spec s) as ((a & b & Hs & Ha & Hb) & _).
  rewrite H in Hs. simpl in Hs. rewrite Hs. now apply blank_app.
Qed.

(** *** Runs of white space *)

Lemma trimStart_length (s : string) : (String.length (trimStart s) <= String.length s)%nat.
Proof.
  destruct (trimStart_split s) as (a & Hs & _).
  rewrite Hs at 2. rewrite string_app_length. lia.
Qed.

Lemma replace_fuel_enough (n m : nat) (s : string) :
  (String.length s <= n)%nat -> (String.length s <= m)%nat ->
  replace_fuel n s = replace_fuel m s.
Proof.
  revert m s. induction n as [|n IH]; intros m s Hn Hm.
  - destruct s; [|simpl in Hn; lia]. destruct m; reflexivity.
  - destruct m as [|m].
    + destruct s; [reflexivity|simpl in Hm; lia].
    + destruct s as [|c s]; [reflexivity|]. cbn [replace_fuel]. simpl in Hn, Hm.
      destruct (after_whitespace (String c s)) as [r|] eqn:E.
      * pose proof (after_whitespace_shorter _ _ E) as L. simpl in L.
        pose proof (trimStart_length r). f_equal. apply IH; lia.
      * f_equal. apply IH; lia.
Qed.

Lemma replace_whitespace_step (s : string) :
  replace_whitespace s
  = match s with
    | EmptyString => EmptyString
    | String c rest =>
        match after_whitespace s with
        | Some r => String "-" (replace_whitespace (trimStart r))
        | None => String c (replace_whitespace rest)
        end
    end.
Proof.
  unfold replace_whitespace. destruct s as [|c s]; [reflexivity|].
  cbn [String.length replace_fuel].
  destruct (after_whitespace (String c s)) as [r|] eqn:E.
  - pose proof (after_whitespace_shorter _ _ E) as L. simpl in L.
    pose proof (trimStart_length r). f_equal. apply replace_fuel_enough; lia.
  - reflexivity.
Qed.

Lemma replace_whitespace_unchanged (s : string) :
  has_whitespace s = false -> replace_whitespace s = s.
Proof.
  induction s as [|c s IH]; [reflexivity|].
  cbn [has_whitespace]. intro H. apply orb_false_iff in H. destruct H as [H1 H2].
  rewrite replace_whitespace_step.
  destruct (after_whitespace (String c s)); [discriminate|]. now rewrite IH.
Qed.

(** The first byte of a white space character, and the bytes after it. *)
Definition is_lead (c : ascii) : bool :=
  existsb (fun w => match w with String a _ => Ascii.eqb a c | EmptyString => false end)
    whitespace.

Definition is_trail (c : ascii) : bool :=
  existsb (fun w => match w with String _ t => has_char c t | EmptyString => false end)
    whitespace.

Lemma lead_not_trail (c : ascii) : is_lead c = true -> is_trail c = false.
Proof.
  destruct c as [[] [] [] [] [] [] [] []]; vm_compute; intro H;
    first [reflexivity | discriminate H].
Qed.

Lemma whitespace_lead (w r : string) (c : ascii) (s : string) :
  In w whitespace -> String c s = w ++ r -> is_lead c = true.
Proof.
  intros Hw H. unfold is_lead. apply existsb_exists. exists w. split; [exact Hw|].
  destruct w as [|a w]; [exfalso; exact (whitespace_not_empty _ Hw eq_refl)|].
  simpl in H. injection H as -> _. apply Ascii.eqb_refl.
Qed.

Lemma has_char_middle (c : ascii) (a b : string) : has_char c (a ++ String c b) = true.
Proof.
  induction a as [|d a IH]; simpl; [now rewrite Ascii.eqb_refl|].
  rewrite IH. apply orb_true_r.
Qed.

Lemma whitespace_trail (w x t : string) (c : ascii) :
  In w whitespace -> x <> EmptyString -> w = x ++ String c t -> is_trail c = true.
Proof.
  intros Hw Hx H. unfold is_trail. apply existsb_exists. exists w. split; [exact Hw|].
  destruct x as [|a x]; [contradiction|]. rewrite H. simpl. apply has_char_middle.
Qed.

Lemma not_lead (c : ascii) (s : string) : is_lead c = false -> after_whitespace (String c s) = None.
Proof.
  intro H. destruct (after_whitespace (String c s)) as [r|] eqn:E; [|reflexivity].
  destruct (after_whitespace_sound _ _ E) as (w & Hw & Hs).
  rewrite (whitespace_lead _ _ _ _ Hw Hs) in H. discriminate.
Qed.

Lemma app_eq_app_split (x y w r : string) :
  x ++ y = w ++ r ->
  (exists t, x = w ++ t) \/ (exists c t, w = x ++ String c t /\ y = String c t ++ r).
Proof.
  revert w. induction x as [|a x IH]; intros w H.
  - destruct w as [|b w]; [left; exists EmptyString; reflexivity|].
    right. exists b, w. split; [reflexivity|exact H].
  - destruct w as [|b w]; [left; exists (String a x); reflexivity|].
    simpl in H. injection H as -> H.
    destruct (IH w H) as [(t & ->)|(c & t & -> & ->)].
    + left. exists t. reflexivity.
    + right. exists c, t. split; reflexivity.
Qed.

(** White space never straddles the end of a string that is followed by
    white space. *)
Lemma after_whitespace_boundary (x y : string) :
  x <> EmptyString -> after_whitespace x = None ->
  y = EmptyString \/ after_whitespace y <> None ->
  after_whitespace (x ++ y) = None.
Proof.
  intros Hx Hn Hy.
  destruct (after_whitespace (x ++ y)) as [r|] eqn:E; [|reflexivity]. exfalso.
  destruct (after_whitespace_sound _ _ E) as (w & Hw & H).
  destruct (app_eq_app_split _ _ _ _ H) as [(t & Ht)|(c & t & Hwx & Hyt)].
  - exact (after_whitespace_none _ Hn w t Hw Ht).
  - pose proof (whitespace_trail _ _ _ _ Hw Hx Hwx) as T.
    destruct Hy as [->|Hy]; [discriminate|].
    destruct (after_whitespace y) as [r'|] eqn:Ey; [|contradiction].
    destruct (after_whitespace_sound _ _ Ey) as (w' & Hw' & Hy').
    rewrite Hyt in Hy'. simpl in Hy'.
    pose proof (whitespace_lead _ _ _ _ Hw' Hy') as L.
    rewrite (lead_not_trail _ L) in T. discriminate.
Qed.

Lemma replace_whitespace_before (a y : string) :
  has_whitespace a = false ->
  y = EmptyString \/ after_whitespace y <> None ->
  replace_whitespace (a ++ y) = a ++ replace_whitespace y.
Proof.
  intros Ha Hy. induction a as [|c a IH]; [reflexivity|].
  cbn [has_whitespace] in Ha. apply orb_false_iff in Ha. destruct Ha as [H1 H2].
  assert (N : after_whitespace (String c a) = None)
    by (destruct (after_whitespace (String c a)); [discriminate|reflexivity]).
  pose proof (after_whitespace_boundary (String c a) y ltac:(discriminate) N Hy) as E.
  rewrite replace_whitespace_step. simpl in E |- *. rewrite E. now rewrite IH.
Qed.

Lemma replace_whitespace_run (ws b : string) :
  blank ws -> ws <> EmptyString -> after_whitespace b = None ->
  replace_whitespace (ws ++ b) = "-" ++ replace_whitespace b.
Proof.
  intros Hws Hne Hb. destruct Hws as [|w ws Hw Hws]; [contradiction|].
  rewrite string_app_assoc.
  pose proof (after_whitespace_complete w (ws ++ b) Hw) as E.
  rewrite replace_whitespace_step.
  destruct (w ++ ws ++ b) as [|c s] eqn:S.
  - destruct w; [exfalso; exact (whitespace_not_empty _ Hw eq_refl)|discriminate].
  - rewrite E, (trimStart_blank ws b Hws), (trimStart_fixed b Hb). reflexivity.
Qed.

(** The law of [replace(/\s+/g, '-')]: text without white space is kept, and
    the run of white space that follows it becomes one hyphen. *)
Lemma replace_whitespace_law (a ws b : string) :
  has_whitespace a = false -> blank ws -> ws <> EmptyString -> after_whitespace b = None ->
  replace_whitespace (a ++ ws ++ b) = a ++ "-" ++ replace_whitespace b.
Proof.
  intros Ha Hws Hne Hb.
  rewrite (replace_whitespace_before a (ws ++ b) Ha).
  - now rewrite (replace_whitespace_run ws b Hws Hne Hb).
  - right. destruct Hws as [|w ws Hw Hws]; [contradiction|].
    rewrite string_app_assoc, (after_whitespace_complete w _ Hw). discriminate.
Qed.

Lemma replace_keeps_trail (t x r : string) :
  all_chars is_trail t = true -> replace_whitespace x = t ++ r -> exists x', x = t ++ x'.
Proof.
  revert x. induction t as [|d t IH]; intros x Ht H; [exists x; reflexivity|].
  cbn [all_chars] in Ht. apply andb_true_iff in Ht. destruct Ht as [Hd Ht].
  rewrite replace_whitespace_step in H. destruct x as [|c x]; [discriminate|].
  destruct (after_whitespace (String c x)) as [r'|].
  - simpl in H. injection H as <- _. vm_compute in Hd. discriminate.
  - simpl in H. injection H as -> H. destruct (IH x Ht H) as (x' & ->).
    exists x'. reflexivity.
Qed.

Lemma whitespace_tail_trail (c : ascii) (t : string) :
  In (String c t) whitespace -> all_chars is_trail t = true.
Proof.
  unfold whitespace. simpl.
  repeat (intros [H|H]; [injection H as <- <-; vm_compute; reflexivity|revert H]).
  intros [].
Qed.

Lemma replace_whitespace_clean (s : string) : has_whitespace (replace_whitespace s) = false.
Proof.
  induction s as [s IH] using string_length_ind.
  rewrite replace_whitespace_step. destruct s as [|c s]; [reflexivity|].
  destruct (after_whitespace (String c s)) as [r|] eqn:E.
  - cbn [has_whitespace]. rewrite not_lead by (vm_compute; reflexivity).
    apply IH. pose proof (after_whitespace_shorter _ _ E). pose proof (trimStart_length r). lia.
  - cbn [has_whitespace]. rewrite IH by (simpl; lia). rewrite orb_false_r.
    destruct (after_whitespace (String c (replace_whitespace s))) as [r|] eqn:F;
      [|reflexivity]. exfalso.
    destruct (after_whitespace_sound _ _ F) as (w & Hw & H).
    destruct w as [|a t]; [exact (whitespace_not_empty _ Hw eq_refl)|].
    simpl in H. injection H as <- H.
    destruct (replace_keeps_trail t s r (whitespace_tail_trail _ _ Hw) H) as (x' & ->).
    exact (after_whitespace_none _ E (String c t) x' Hw eq_refl).
Qed.



(** ** Rounded arithmetic *)

Lemma Qltb_true (a b : Q) : Qltb a b = true <-> (a < b)%Q.
Proof.
  unfold Qltb. rewrite negb_true_iff.
  split; intro H.
  - apply Qnot_le_lt. intro L. apply Qle_bool_iff in L. congruence.
  - destruct (Qle_bool b a) eqn:E; [|reflexivity].
    apply Qle_bool_iff in E. exfalso. apply (Qlt_not_le _ _ H E).
Qed.

Lemma Qltb_false (a b : Q) : Qltb a b = false <-> (b <= a)%Q.
Proof.
  unfold Qltb. rewrite negb_false_iff. apply Qle_bool_iff.
Qed.

Lemma Qle_bool_false (a b : Q) : Qle_bool a b = false <-> (b < a)%Q.
Proof.
  rewrite <- Qltb_true. unfold Qltb. now rewrite negb_true_iff.
Qed.

Lemma Qtruncate_integer (q : Q) (n : Z) : (q == inject_Z n)%Q -> Qtruncate q = n.
Proof.
  unfold Qeq, Qtruncate. simpl. intro H.
  rewrite Z.mul_1_r in H. rewrite H. apply Z.quot_mul. discriminate.
Qed.

Section RoundingFacts.
Variable r : rounding.

Lemma rnd_proper (x y : Q) : (x == y)%Q -> (r x == r y)%Q.
Proof.
  intro E. apply Qle_antisym; apply rnd_monotone; rewrite E; apply Qle_refl.
Qed.

Lemma rnd_le_integer (x : Q) (n : Z) :
  (Z.abs n <= 2 ^ 53)%Z -> (x <= inject_Z n)%Q -> (r x <= inject_Z n)%Q.
Proof.
  intros Hn H. rewrite <- (rnd_integer r n Hn). now apply rnd_monotone.
Qed.

Lemma rnd_ge_integer (x : Q) (n : Z) :
  (Z.abs n <= 2 ^ 53)%Z -> (inject_Z n <= x)%Q -> (inject_Z n <= r x)%Q.
Proof.
  intros Hn H. rewrite <- (rnd_integer r n Hn). now apply rnd_monotone.
Qed.

End RoundingFacts.

Lemma read_and_load_decodes {num} (B : browser (num:=num)) file img a b c :
  decodes B file img -> read_and_load B file a b c = Ok img.
Proof.
  intros (url & Hr & He & Hl). unfold read_and_load. now rewrite Hr, He, Hl.
Qed.

(** ** Shadow descriptors *)

Section Shadow.
Variable r : rounding.
Local Hint Extern 0 (JsNumber _) => exact (Rounded r) : typeclass_instances.

Lemma leb_of_Z (x : Q) (n : Z) :
  (Z.abs n <= 2 ^ 53)%Z -> leb x (of_Z n) = Qle_bool x (inject_Z n).
Proof.
  intro Hn. change (leb x (of_Z n)) with (Qle_bool x (r (inject_Z n))).
  pose proof (rnd_integer r n Hn) as E.
  destruct (Qle_bool x (inject_Z n)) eqn:L.
  - apply Qle_bool_iff. apply Qle_bool_iff in L. now rewrite E.
  - apply Qle_bool_false. apply Qle_bool_false in L. now rewrite E.
Qed.

(** C6. The shadow descriptor is determined by the five intervals cut at 10,
    35, 65 and 85: up to 10 very faint, above 10 and up to 35 subtle, above 35
    and up to 65 normal, above 65 and up to 85 strong, above 85 very dark; it
    is always one of the five, and 0, 35, 65, 85 and 100 give the first to the
    fifth in turn. *)
Theorem getShadowDescription_buckets (intensity : Q) :
  let d := getShadowDescription intensity in
  ((intensity <= 10)%Q -> d = "very faint and almost invisible")
  /\ ((10 < intensity <= 35)%Q -> d = "subtle and soft")
  /\ ((35 < intensity <= 65)%Q -> d = "normal and realistic")
  /\ ((65 < intensity <= 85)%Q -> d = "strong and defined")
  /\ ((85 < intensity)%Q -> d = "very dark and dramatic with high contrast")
  /\ In d [ "very faint and almost invisible"; "subtle and soft";
            "normal and realistic"; "strong and defined";
            "very dark and dramatic with high contrast" ]
  /\ getShadowDescription (of_Z 0) = "very faint and almost invisible"
  /\ getShadowDescription (of_Z 35) = "subtle and soft"
  /\ getShadowDescription (of_Z 65) = "normal and realistic"
  /\ getShadowDescription (of_Z 85) = "strong and defined"
  /\ getShadowDescription (of_Z 100) = "very dark and dramatic with high contrast".
Proof.
  assert (G : forall x : Q,
             getShadowDescription x
             = if Qle_bool x 10 then "very faint and almost invisible"
               else if Qle_bool x 35 then "subtle and soft"
               else if Qle_bool x 65 then "normal and realistic"
               else if Qle_bool x 85 then "strong and defined"
               else "very dark and dramatic with high contrast").
  { intro x. unfold getShadowDescription.
    rewrite !leb_of_Z by (simpl; lia). reflexivity. }
  assert (I : forall n : Z, (Z.abs n <= 2 ^ 53)%Z ->
              getShadowDescription (of_Z n) = getShadowDescription (inject_Z n)).
  { intros n Hn. rewrite !G.
    pose proof (rnd_integer r n Hn) as E.
    change (of_Z n) with (r (inject_Z n)).
    assert (Q : forall k : Q, Qle_bool (r (inject_Z n)) k = Qle_bool (inject_Z n) k).
    { intro k. destruct (Qle_bool (inject_Z n) k) eqn:L.
      - apply Qle_bool_iff. apply Qle_bool_iff in L. now rewrite E.
      - apply Qle_bool_false. apply Qle_bool_false in L. now rewrite E. }
    now rewrite !Q. }
  intro d. unfold d. rewrite G.
  repeat split.
  - intro H. apply Qle_bool_iff in H.
    change (inject_Z 10) with 10%Q. now rewrite H.
  - intros [H1 H2]. apply Qle_bool_false in H1. apply Qle_bool_iff in H2.
    now rewrite H1, H2.
  - intros [H1 H2].
    assert (A : (10 < intensity)%Q) by lra. apply Qle_bool_false in A.
    apply Qle_bool_false in H1. apply Qle_bool_iff in H2.
    now rewrite A, H1, H2.
  - intros [H1 H2].
    assert (A : (10 < intensity)%Q) by lra. apply Qle_bool_false in A.
    assert (A' : (35 < intensity)%Q) by lra. apply Qle_bool_false in A'.
    apply Qle_bool_false in H1. apply Qle_bool_iff in H2.
    now rewrite A, A', H1, H2.
  - intros H1.
    assert (A : (10 < intensity)%Q) by lra. apply Qle_bool_false in A.
    assert (A' : (35 < intensity)%Q) by lra. apply Qle_bool_false in A'.
    assert (A'' : (65 < intensity)%Q) by lra. apply Qle_bool_false in A''.
    apply Qle_bool_false in H1.
    now rewrite A, A', A'', H1.
  - destruct (Qle_bool intensity 10); [simpl; tauto|].
    destruct (Qle_bool intensity 35); [simpl; tauto|].
    destruct (Qle_bool intensity 65); [simpl; tauto|].
    destruct (Qle_bool intensity 85); simpl; tauto.
  - rewrite I by (simpl; lia). rewrite G. reflexivity.
  - rewrite I by (simpl; lia). rewrite G. reflexivity.
  - rewrite I by (simpl; lia). rewrite G. reflexivity.
  - rewrite I by (simpl; lia). rewrite G. reflexivity.
  - rewrite I by (simpl; lia). rewrite G. reflexivity.
Qed.

End Shadow.

(** The doubles behave the same way at the cut points and next to them. *)
Example getShadowDescription_binary64 :
  map (getShadowDescription (NUM := Binary64))
    [ float_of_Z 0; float_of_Z 10; PrimFloat.next_up (float_of_Z 10);
      float_of_Z 35; PrimFloat.next_up (float_of_Z 35);
      float_of_Z 65; PrimFloat.next_up (float_of_Z 65);
      float_of_Z 85; PrimFloat.next_up (float_of_Z 85); float_of_Z 100 ]
  = [ "very faint and almost invisible"; "very faint and almost invisible";
      "subtle and soft"; "subtle and soft";
      "normal and realistic"; "normal and realistic";
      "strong and defined"; "strong and defined";
      "very dark and dramatic with high contrast";
      "very dark and dramatic with high contrast" ].
Proof. vm_compute. reflexivity. Qed.

(** ** The letterbox *)

Section Letterbox.
Variable r : rounding.
Local Hint Extern 0 (JsNumber _) => exact (Rounded r) : typeclass_instances.

Lemma of_Z_exact (n : Z) : (Z.abs n <= 2 ^ 53)%Z -> (of_Z n == inject_Z n)%Q.
Proof. apply rnd_integer. Qed.

Lemma of_Z_nonneg (n : Z) : (0 <= n)%Z -> (0 <= of_Z n)%Q.
Proof.
  intro Hn. apply (rnd_ge_integer r _ 0); [simpl; lia|].
  rewrite <- Zle_Qle. exact Hn.
Qed.

Lemma gt_one (a : Q) : ltb (of_Z 1) a = Qltb 1 a.
Proof.
  assert (E : (r (inject_Z 1) == 1)%Q) by (apply (rnd_integer r 1); simpl; lia).
  change (ltb (of_Z 1) a) with (Qltb (r (inject_Z 1)) a).
  destruct (Qltb 1 a) eqn:E1.
  - apply Qltb_true. apply Qltb_true in E1. rewrite E. exact E1.
  - apply Qltb_false. apply Qltb_false in E1. rewrite E. exact E1.
Qed.

Lemma div_two_zero (x : Q) : (x == 0)%Q -> (div (r x) (of_Z 2) == 0)%Q.
Proof.
  intro E.
  assert (R0 : (r 0 == 0)%Q) by (apply (rnd_integer r 0); simpl; lia).
  assert (Rx : (r x == 0)%Q) by (rewrite (rnd_proper r x 0 E); exact R0).
  change (div (r x) (of_Z 2)) with (r (r x / of_Z 2)%Q).
  apply Qeq_trans with (r 0); [|exact R0].
  apply rnd_proper. rewrite Rx. unfold Qdiv. ring.
Qed.

Lemma half_nonneg (x : Q) : (0 <= x)%Q -> (0 <= div (r x) (of_Z 2))%Q.
Proof.
  intro H.
  assert (E2 : (of_Z 2 == 2)%Q) by (apply (rnd_integer r 2); simpl; lia).
  assert (Rx : (0 <= r x)%Q).
  { apply (rnd_ge_integer r _ 0); [simpl; lia|exact H]. }
  change (div (r x) (of_Z 2)) with (r (r x / of_Z 2)%Q).
  apply (rnd_ge_integer r _ 0); [simpl; lia|].
  rewrite E2. change (inject_Z 0) with 0%Q. apply Qle_shift_div_l; lra.
Qed.

Lemma canvas_dimension_of_Z (default D : Z) :
  (0 <= D <= 2147483647)%Z -> canvas_dimension default (of_Z D) = D.
Proof.
  intro HD. unfold canvas_dimension, ToUint32. cbn [truncate of_Z Rounded].
  rewrite (Qtruncate_integer (r (inject_Z D)) D).
  - rewrite Z.mod_small by lia.
    destruct (D <=? 2147483647)%Z eqn:E; [reflexivity|]. apply Z.leb_gt in E. lia.
  - apply rnd_integer. lia.
Qed.

(** The two branches of the content size, for a side [T] that is a
    non-negative double. *)
Lemma letterbox_fits (a T : Q) :
  (0 <= T)%Q -> (r T == T)%Q ->
  let '(cw, ch) := if Qltb 1 a then (T, r (T / a)) else (r (T * a), T) in
  (cw <= T /\ ch <= T /\ (cw == T \/ ch == T))%Q.
Proof.
  intros HT Hfix.
  destruct (Qltb 1 a) eqn:E.
  - apply Qltb_true in E.
    split; [apply Qle_refl|]. split; [|left; reflexivity].
    rewrite <- Hfix at 2. apply rnd_monotone.
    assert (0 < a)%Q by lra.
    apply Qle_shift_div_r; [assumption|]. nra.
  - apply Qltb_false in E.
    split; [|split; [apply Qle_refl|right; reflexivity]].
    rewrite <- Hfix at 2. apply rnd_monotone. nra.
Qed.

(** C1. For an image of positive width and height and a target dimension [D]
    (a canvas size: an integer from 0 to 2^31-1), in a browser that reads and
    decodes the file, grants the context and encodes the canvas, [resizeImage]
    returns a JPEG file holding a canvas of exactly [D] by [D] pixels.  The
    content size follows the two-branch formula on the aspect ratio, neither
    side exceeds [D] and one equals [D], the offsets are half of what is left
    on each axis, and the canvas is filled with black before the image is
    drawn. *)
Theorem resizeImage_letterbox
  (B : browser) (file : File) (img : image) (D : Z) :
  decodes B file img ->
  (0 < naturalWidth img)%Z -> (0 < naturalHeight img)%Z ->
  (0 <= D <= 2147483647)%Z ->
  getContext2d B D D = true ->
  toBlob_succeeds B (resizeImage_canvas img (of_Z D)) = true ->
  let c := resizeImage_canvas img (of_Z D) in
  let rect := resizeImage_rect img (of_Z D) in
  let aspectRatio := div (of_Z (naturalWidth img)) (of_Z (naturalHeight img)) in
  resizeImage B file (of_Z D)
    = Ok {| file_name := file_name file;
            file_type := "image/jpeg";
            file_content := CanvasBlob c "image/jpeg" (decimal 95 100) |}
  /\ cv_width c = D /\ cv_height c = D
  /\ (if ltb (of_Z 1) aspectRatio
      then contentWidth rect = of_Z D
           /\ contentHeight rect = div (of_Z D) aspectRatio
      else contentHeight rect = of_Z D
           /\ contentWidth rect = mul (of_Z D) aspectRatio)
  /\ (contentWidth rect <= inject_Z D)%Q
  /\ (contentHeight rect <= inject_Z D)%Q
  /\ (contentWidth rect == inject_Z D \/ contentHeight rect == inject_Z D)%Q
  /\ offsetX rect = div (sub (of_Z D) (contentWidth rect)) (of_Z 2)
  /\ offsetY rect = div (sub (of_Z D) (contentHeight rect)) (of_Z 2)
  /\ cv_ops c = [ fillStyle "black";
                  fillRect (of_Z 0) (of_Z 0) (of_Z D) (of_Z D);
                  drawImage4 img (offsetX rect) (offsetY rect)
                    (contentWidth rect) (contentHeight rect) ].
Proof.
  intros Hdec Hw Hh HD Hctx Hblob c rect aspectRatio.
  assert (Hcw : cv_width c = D) by (apply canvas_dimension_of_Z; exact HD).
  assert (Hch : cv_height c = D) by (apply canvas_dimension_of_Z; exact HD).
  assert (HDx : (of_Z D == inject_Z D)%Q) by (apply of_Z_exact; lia).
  split.
  { unfold resizeImage. rewrite (read_and_load_decodes B file img _ _ _ Hdec).
    fold c. rewrite Hcw, Hch, Hctx. cbn [negb]. unfold c. rewrite Hblob. reflexivity. }
  split; [exact Hcw|]. split; [exact Hch|].
  assert (Hops : cv_ops c
                 = [ fillStyle "black";
                     fillRect (of_Z 0) (of_Z 0) (of_Z D) (of_Z D);
                     drawImage4 img (offsetX rect) (offsetY rect)
                       (contentWidth rect) (contentHeight rect) ]) by reflexivity.
  revert Hops. generalize (cv_ops c). intros ops Hops.
  assert (H0D : (0 <= of_Z D)%Q) by (apply of_Z_nonneg; lia).
  assert (Hfix : (r (of_Z D) == of_Z D)%Q) by apply rnd_idempotent.
  pose proof (letterbox_fits aspectRatio (of_Z D) H0D Hfix) as Hfit.
  revert Hops. unfold rect, resizeImage_rect. fold aspectRatio.
  rewrite gt_one.
  change (div (of_Z D) aspectRatio) with (r (of_Z D / aspectRatio)%Q).
  change (mul (of_Z D) aspectRatio) with (r (of_Z D * aspectRatio)%Q).
  destruct (Qltb 1 aspectRatio); cbn [offsetX offsetY contentWidth contentHeight];
    destruct Hfit as (F1 & F2 & F3); rewrite <- HDx; intro Hops; repeat split; auto.
Qed.

End Letterbox.

(** The scene of 800 by 600 pixels at [D = 1024], in exact arithmetic. *)
Lemma resizeImage_letterbox_witness :
  let B := test_browser (num := Q) (fun _ => Err "no service") in
  let c := resizeImage_canvas (NUM := Rounded exact) scene_image 1024%Q in
  let rect := resizeImage_rect (NUM := Rounded exact) scene_image 1024%Q in
  is_ok (resizeImage (NUM := Rounded exact) B scene_file 1024%Q) = true
  /\ cv_width c = 1024%Z /\ cv_height c = 1024%Z
  /\ (contentWidth rect <= 1024)%Q /\ (contentHeight rect <= 1024)%Q.
Proof.
  intros B c rect.
  assert (Hdec : decodes B scene_file scene_image).
  { exists (img_src scene_image). repeat split. }
  destruct (resizeImage_letterbox exact B scene_file scene_image 1024 Hdec)
    as (Hres & Hw & Hh & _ & Hcw & Hch & _); try reflexivity; try (simpl; lia).
  split; [exact (f_equal is_ok Hres)|].
  split; [exact Hw|]. split; [exact Hh|]. split; [exact Hcw|exact Hch].
Defined.

Example resizeImage_rect_scene :
  let rect := resizeImage_rect (NUM := Rounded exact) scene_image 1024%Q in
  (offsetX rect == 0 /\ offsetY rect == 128
   /\ contentWidth rect == 1024 /\ contentHeight rect == 768)%Q.
Proof. vm_compute. repeat split. Qed.

(** The same rectangle in doubles. *)
Example resizeImage_rect_scene_binary64 :
  let rect := resizeImage_rect (NUM := Binary64) scene_image (float_of_Z 1024) in
  map (fun x => Qred (float_value x))
    [offsetX rect; offsetY rect; contentWidth rect; contentHeight rect]
  = [0%Q; 128%Q; 1024%Q; 768%Q].
Proof. vm_compute. reflexivity. Qed.

(** ** The marker *)

Section Marker.
Variable r : rounding.
Local Hint Extern 0 (JsNumber _) => exact (Rounded r) : typeclass_instances.

(** One axis of the mapping from percent to canvas pixel. *)
Lemma marker_coordinate_inside (off size p : Q) :
  (0 <= size)%Q -> (r size == size)%Q -> (r off == off)%Q ->
  (0 <= p <= 100)%Q ->
  let x := add off (mul (div p (of_Z 100)) size) in
  (off <= x <= add off size)%Q.
Proof.
  intros Hsize Hfs Hfo [Hp0 Hp100] x.
  assert (E100 : (of_Z 100 == 100)%Q) by (apply (rnd_integer r 100); simpl; lia).
  set (a := div p (of_Z 100)) in *.
  assert (Ha : (0 <= a <= 1)%Q).
  { unfold a. change (div p (of_Z 100)) with (r (p / of_Z 100)%Q).
    split.
    - apply (rnd_ge_integer r _ 0); [simpl; lia|]. rewrite E100.
      change (inject_Z 0) with 0%Q. apply Qle_shift_div_l; lra.
    - apply (rnd_le_integer r _ 1); [simpl; lia|]. rewrite E100.
      change (inject_Z 1) with 1%Q. apply Qle_shift_div_r; lra. }
  set (m := mul a size) in *.
  assert (Hm : (0 <= m <= size)%Q).
  { unfold m. change (mul a size) with (r (a * size)%Q).
    split.
    - apply (rnd_ge_integer r _ 0); [simpl; lia|].
      change (inject_Z 0) with 0%Q. nra.
    - rewrite <- Hfs at 2. apply rnd_monotone. nra. }
  unfold x. change (add off m) with (r (off + m)%Q).
  change (add off size) with (r (off + size)%Q).
  split.
  - rewrite <- Hfo at 1. apply rnd_monotone. lra.
  - apply rnd_monotone. lra.
Qed.

(** C7. Let [padded] be the decoded padded image handed to [markImage] (its
    sides are canvas sizes) and [original] an image of positive width and
    height whose dimensions are passed as the original ones.  For a placement
    point with both percents in [0, 100], the circle that [markImage] draws is
    centred at [(finalMarkerX, finalMarkerY)], the content rectangle it uses
    is the one [resizeImage] computes for [original] at the width of [padded],
    and the centre lies inside it on both axes. *)
Theorem markImage_marker_inside
  (padded original : image) (x_percent y_percent : Q) :
  (0 <= naturalWidth padded <= 2147483647)%Z ->
  (0 <= naturalHeight padded <= 2147483647)%Z ->
  (0 < naturalWidth original)%Z -> (0 < naturalHeight original)%Z ->
  (0 <= x_percent <= 100)%Q -> (0 <= y_percent <= 100)%Q ->
  let position := {| xPercent := x_percent; yPercent := y_percent |} in
  let originalDimensions :=
    {| originalWidth := of_Z (naturalWidth original);
       originalHeight := of_Z (naturalHeight original) |} in
  let c := markImage_canvas padded position originalDimensions in
  let m := markImage_marker (naturalWidth padded) (naturalHeight padded)
             position originalDimensions in
  let rect := marker_rect m in
  In (arc (finalMarkerX m) (finalMarkerY m) (markerRadius m)
        (of_Z 0) (mul (of_Z 2) Math_PI) false) (cv_ops c)
  /\ rect = resizeImage_rect original (of_Z (naturalWidth padded))
  /\ (offsetX rect <= finalMarkerX m <= add (offsetX rect) (contentWidth rect))%Q
  /\ (offsetY rect <= finalMarkerY m <= add (offsetY rect) (contentHeight rect))%Q.
Proof.
  intros HW HH Hw Hh Hx Hy position originalDimensions c m rect.
  split.
  { unfold c, markImage_canvas.
    rewrite !canvas_dimension_of_Z by assumption.
    fold m. cbn [cv_ops]. right. right. left. reflexivity. }
  split.
  { unfold rect, m, markImage_marker, resizeImage_rect. cbn.
    destruct (Qltb _ _); reflexivity. }
  set (T := of_Z (naturalWidth padded)).
  assert (HT0 : (0 <= T)%Q) by (apply of_Z_nonneg; lia).
  assert (HTf : (r T == T)%Q) by apply rnd_idempotent.
  set (aspectRatio := div (of_Z (naturalWidth original)) (of_Z (naturalHeight original))).
  assert (Har : (0 <= aspectRatio)%Q).
  { apply (rnd_ge_integer r _ 0); [simpl; lia|].
    assert (0 <= of_Z (naturalWidth original))%Q by (apply of_Z_nonneg; lia).
    assert (0 <= of_Z (naturalHeight original))%Q by (apply of_Z_nonneg; lia).
    change (inject_Z 0) with 0%Q.
    unfold Qdiv. apply Qmult_le_0_compat; [assumption|].
    apply Qinv_le_0_compat. assumption. }
  unfold rect, m, markImage_marker, position, originalDimensions.
  cbn [originalWidth originalHeight xPercent yPercent].
  fold T. fold aspectRatio.
  rewrite gt_one.
  destruct (Qltb 1 aspectRatio) eqn:E;
    cbn [marker_rect finalMarkerX finalMarkerY offsetX offsetY contentWidth contentHeight].
  - apply Qltb_true in E.
    assert (Hch : (0 <= div T aspectRatio)%Q).
    { apply (rnd_ge_integer r _ 0); [simpl; lia|]. change (inject_Z 0) with 0%Q.
      apply Qle_shift_div_l; lra. }
    split; apply marker_coordinate_inside; auto; apply rnd_idempotent.
  - assert (Hcw : (0 <= mul T aspectRatio)%Q).
    { apply (rnd_ge_integer r _ 0); [simpl; lia|]. change (inject_Z 0) with 0%Q.
      apply Qmult_le_0_compat; assumption. }
    split; apply marker_coordinate_inside; auto; apply rnd_idempotent.
Qed.

End Marker.

(** The centre of the scene, marked on its padded square. *)
Lemma markImage_marker_inside_witness :
  let N := Rounded exact in
  let m := markImage_marker 1024 1024 {| xPercent := 50%Q; yPercent := 50%Q |}
             {| originalWidth := 800%Q; originalHeight := 600%Q |} in
  let rect := marker_rect m in
  (offsetX rect <= finalMarkerX m <= add (offsetX rect) (contentWidth rect))%Q
  /\ (offsetY rect <= finalMarkerY m <= add (offsetY rect) (contentHeight rect))%Q.
Proof.
  intros N m rect.
  destruct (markImage_marker_inside exact (square_image "padded") scene_image 50 50)
    as (_ & _ & Hx & Hy);
    try (simpl; lia); try (split; discriminate).
  split; [exact Hx|exact Hy].
Defined.

Example markImage_marker_scene_binary64 :
  let N := Binary64 in
  let m := markImage_marker 1024 1024 {| xPercent := of_Z 50; yPercent := of_Z 50 |}
             {| originalWidth := of_Z 800; originalHeight := of_Z 600 |} in
  map (fun x => Qred (float_value x))
    [offsetX (marker_rect m); offsetY (marker_rect m); finalMarkerX m; finalMarkerY m]
  = [0%Q; 128%Q; 512%Q; 512%Q].
Proof. vm_compute. reflexivity. Qed.

(** The far corner of a 3 by 1 image, in doubles: the centre is at most the
    program's own sum [offsetY + contentHeight], and here equal to it. *)
Example markImage_marker_corner_binary64 :
  let N := Binary64 in
  let m := markImage_marker 1024 1024 {| xPercent := of_Z 100; yPercent := of_Z 100 |}
             {| originalWidth := of_Z 3; originalHeight := of_Z 1 |} in
  let rect := marker_rect m in
  leb (offsetY rect) (finalMarkerY m) = true
  /\ leb (finalMarkerY m) (add (offsetY rect) (contentHeight rect)) = true
  /\ leb (finalMarkerX m) (add (offsetX rect) (contentWidth rect)) = true.
Proof.
  cbv zeta.
  split; [vm_compute; reflexivity|].
  split; vm_compute; reflexivity.
Qed.


(** ** Pixels *)

Lemma Qtruncate_between (q : Q) (m M : Z) :
  (0 <= m)%Z -> (inject_Z m <= q <= inject_Z M)%Q ->
  (m <= Qtruncate q <= M)%Z.
Proof.
  intros Hm [H1 H2].
  assert (Hq : (0 <= q)%Q).
  { apply Qle_trans with (inject_Z m); [|exact H1].
    change 0%Q with (inject_Z 0). rewrite <- Zle_Qle. exact Hm. }
  assert (E : Qtruncate q = Qfloor q).
  { unfold Qtruncate, Qfloor. destruct q as [n d]. simpl.
    apply Z.quot_div_nonneg; [|reflexivity].
    unfold Qle in Hq. simpl in Hq. lia. }
  rewrite E. split.
  - rewrite <- (Qfloor_Z m). apply Qfloor_resp_le. exact H1.
  - rewrite <- (Qfloor_Z M). apply Qfloor_resp_le. exact H2.
Qed.

(** [x] is within a relative [2^-52] of [n/b]: its rounding, truncated, is
    within one of [n/b]. *)
Lemma pixel_within_one (r : rounding) (n b : Z) (x : Q) :
  (0 < n <= 2 ^ 52)%Z -> (0 < b)%Z ->
  let E := (inject_Z n / inject_Z b)%Q in
  (E * (1 - (1 # 2 ^ 52)) <= x <= E * (1 + (1 # 2 ^ 52)))%Q ->
  let p := Qtruncate (r x) in
  (0 <= p <= n / b + 1)%Z /\ (Qabs (inject_Z p - E) <= 1)%Q.
Proof.
  intros Hn Hb E [Hlo Hhi] p.
  set (m := ((n - 1) / b)%Z).
  set (M := (n / b + 1)%Z).
  assert (Hm0 : (0 <= m)%Z) by (apply Z.div_pos; lia).
  assert (Hmb : (m * b <= n - 1)%Z).
  { unfold m. rewrite Z.mul_comm. apply Z.mul_div_le. lia. }
  assert (Hmb' : (n - b <= m * b)%Z).
  { unfold m. pose proof (Z.mod_pos_bound (n - 1) b Hb).
    pose proof (Z.div_mod (n - 1) b ltac:(lia)). lia. }
  assert (HMb : (n + 1 <= M * b)%Z).
  { unfold M. pose proof (Z.mod_pos_bound n b Hb).
    pose proof (Z.div_mod n b ltac:(lia)). lia. }
  assert (HMb' : ((M - 1) * b <= n)%Z).
  { unfold M. replace (n / b + 1 - 1)%Z with (n / b)%Z by lia.
    rewrite Z.mul_comm. apply Z.mul_div_le. lia. }
  assert (Hbq : (0 < inject_Z b)%Q).
  { change 0%Q with (inject_Z 0). rewrite <- Zlt_Qlt. exact Hb. }
  assert (HEb : (E * inject_Z b == inject_Z n)%Q).
  { unfold E. field. lra. }
  assert (Hnq : (0 < inject_Z n <= inject_Z (2 ^ 52))%Q).
  { split; [change 0%Q with (inject_Z 0); rewrite <- Zlt_Qlt; lia|rewrite <- Zle_Qle; lia]. }
  assert (Qmb : (inject_Z m * inject_Z b <= inject_Z n - 1)%Q).
  { rewrite <- inject_Z_mult. change 1%Q with (inject_Z 1).
    unfold Qminus. rewrite <- inject_Z_opp, <- inject_Z_plus, <- Zle_Qle. lia. }
  assert (Qmb' : (inject_Z n - inject_Z b <= inject_Z m * inject_Z b)%Q).
  { rewrite <- inject_Z_mult.
    unfold Qminus. rewrite <- inject_Z_opp, <- inject_Z_plus, <- Zle_Qle. lia. }
  assert (QMb : (inject_Z n + 1 <= inject_Z M * inject_Z b)%Q).
  { rewrite <- inject_Z_mult. change 1%Q with (inject_Z 1).
    rewrite <- inject_Z_plus, <- Zle_Qle. lia. }
  assert (QMb' : ((inject_Z M - 1) * inject_Z b <= inject_Z n)%Q).
  { change 1%Q with (inject_Z 1). unfold Qminus.
    rewrite <- inject_Z_opp, <- inject_Z_plus, <- inject_Z_mult, <- Zle_Qle. lia. }
  assert (Hmx : (inject_Z m <= x)%Q).
  { apply Qle_trans with (E * (1 - (1 # 2 ^ 52)))%Q; [|exact Hlo].
    apply Qmult_le_r with (inject_Z b); [exact Hbq|].
    assert (E * (1 - (1 # 2 ^ 52)) * inject_Z b == inject_Z n * (1 - (1 # 2^52)))%Q as ->.
    { rewrite <- HEb. ring. }
    assert (inject_Z (2 ^ 52) * (1 # 2 ^ 52) == 1)%Q by reflexivity.
    nra. }
  assert (HxM : (x <= inject_Z M)%Q).
  { apply Qle_trans with (E * (1 + (1 # 2 ^ 52)))%Q; [exact Hhi|].
    apply Qmult_le_r with (inject_Z b); [exact Hbq|].
    assert (E * (1 + (1 # 2 ^ 52)) * inject_Z b == inject_Z n * (1 + (1 # 2^52)))%Q as ->.
    { rewrite <- HEb. ring. }
    assert (inject_Z (2 ^ 52) * (1 # 2 ^ 52) == 1)%Q by reflexivity.
    nra. }
  assert (HM53 : (Z.abs M <= 2 ^ 53)%Z).
  { assert (0 <= n / b)%Z by (apply Z.div_pos; lia).
    assert (n / b <= n)%Z by (apply Z.div_le_upper_bound; nia).
    unfold M. lia. }
  assert (Hm53 : (Z.abs m <= 2 ^ 53)%Z).
  { assert (m <= n - 1)%Z by (unfold m; apply Z.div_le_upper_bound; nia). lia. }
  assert (Hp : (m <= p <= M)%Z).
  { apply Qtruncate_between; [exact Hm0|]. split.
    - apply rnd_ge_integer; assumption.
    - apply rnd_le_integer; assumption. }
  split; [unfold M in Hp; lia|].
  apply Qabs_Qle_condition.
  assert (Hpq : (inject_Z m <= inject_Z p <= inject_Z M)%Q).
  { split; rewrite <- Zle_Qle; lia. }
  split.
  - apply Qmult_le_r with (inject_Z b); [exact Hbq|].
    assert ((inject_Z p - E) * inject_Z b == inject_Z p * inject_Z b - inject_Z n)%Q as ->.
    { rewrite <- HEb. ring. }
    nra.
  - apply Qmult_le_r with (inject_Z b); [exact Hbq|].
    assert ((inject_Z p - E) * inject_Z b == inject_Z p * inject_Z b - inject_Z n)%Q as ->.
    { rewrite <- HEb. ring. }
    nra.
Qed.

(** ** Crop-back *)

Section CropBack.
Variable r : rounding.
Local Hint Extern 0 (JsNumber _) => exact (Rounded r) : typeclass_instances.

Lemma inject_Z_pos (n : Z) : (0 < n)%Z -> (0 < inject_Z n)%Q.
Proof. intro H. change 0%Q with (inject_Z 0). now rewrite <- Zlt_Qlt. Qed.

(** The computed aspect ratio is within a relative [2^-53] of [w/h]. *)
Lemma aspectRatio_accurate (w h : Z) :
  (0 < w <= 2 ^ 24)%Z -> (0 < h <= 2 ^ 24)%Z ->
  let k := (inject_Z w / inject_Z h)%Q in
  let aspectRatio := div (of_Z w) (of_Z h) in
  (k * (1 - (1 # 2 ^ 53)) <= aspectRatio <= k * (1 + (1 # 2 ^ 53)))%Q.
Proof.
  intros Hw Hh k aspectRatio.
  assert (Ew : (of_Z w == inject_Z w)%Q) by (apply of_Z_exact; lia).
  assert (Eh : (of_Z h == inject_Z h)%Q) by (apply of_Z_exact; lia).
  assert (Ea : (aspectRatio == r k)%Q).
  { unfold aspectRatio. change (div (of_Z w) (of_Z h)) with (r (of_Z w / of_Z h)%Q).
    apply rnd_proper. unfold k. now rewrite Ew, Eh. }
  pose proof (inject_Z_pos w ltac:(lia)) as Pw.
  pose proof (inject_Z_pos h ltac:(lia)) as Ph.
  assert (Bw : (inject_Z w <= inject_Z (2 ^ 24))%Q) by (rewrite <- Zle_Qle; lia).
  assert (Bh : (inject_Z h <= inject_Z (2 ^ 24))%Q) by (rewrite <- Zle_Qle; lia).
  assert (W1 : (1 <= inject_Z w)%Q).
  { change 1%Q with (inject_Z 1). rewrite <- Zle_Qle. lia. }
  assert (H1 : (1 <= inject_Z h)%Q).
  { change 1%Q with (inject_Z 1). rewrite <- Zle_Qle. lia. }
  assert (Hk : (k * inject_Z h == inject_Z w)%Q) by (unfold k; field; lra).
  assert (Hrange : (1 # 2 ^ 64 <= k <= inject_Z (2 ^ 64))%Q).
  { split.
    - apply Qmult_le_r with (inject_Z h); [exact Ph|]. rewrite Hk.
      assert ((1 # 2 ^ 64) * inject_Z (2 ^ 24) <= 1)%Q by (unfold Qle; simpl; lia).
      assert (0 < 1 # 2 ^ 64)%Q by reflexivity.
      nra.
    - apply Qmult_le_r with (inject_Z h); [exact Ph|]. rewrite Hk.
      assert (inject_Z (2 ^ 24) <= inject_Z (2 ^ 64))%Q by (rewrite <- Zle_Qle; lia).
      assert (0 < inject_Z (2 ^ 64))%Q by reflexivity.
      nra. }
  pose proof (rnd_accurate r Hrange) as Hacc.
  apply Qabs_Qle_condition in Hacc. destruct Hacc as [A1 A2].
  rewrite Ea. split; lra.
Qed.

Lemma landscape_iff (w h : Z) :
  (0 < w <= 2 ^ 24)%Z -> (0 < h <= 2 ^ 24)%Z ->
  ltb (of_Z 1) (div (of_Z w) (of_Z h)) = true <-> (h < w)%Z.
Proof.
  intros Hw Hh.
  pose proof (aspectRatio_accurate w h Hw Hh) as [A1 A2]. cbv zeta in A1, A2.
  set (aspectRatio := div (of_Z w) (of_Z h)) in *.
  set (k := (inject_Z w / inject_Z h)%Q) in *.
  pose proof (inject_Z_pos w ltac:(lia)) as Pw.
  pose proof (inject_Z_pos h ltac:(lia)) as Ph.
  assert (Hk : (k * inject_Z h == inject_Z w)%Q) by (unfold k; field; lra).
  rewrite gt_one, Qltb_true.
  split.
  - intro H. apply Z.nle_gt. intro L.
    assert (Lq : (inject_Z w <= inject_Z h)%Q) by (rewrite <- Zle_Qle; exact L).
    assert (K1 : (k <= 1)%Q).
    { apply Qmult_le_r with (inject_Z h); [exact Ph|]. rewrite Hk. lra. }
    assert (Ew : (of_Z w == inject_Z w)%Q) by (apply of_Z_exact; lia).
    assert (Eh : (of_Z h == inject_Z h)%Q) by (apply of_Z_exact; lia).
    assert (aspectRatio <= 1)%Q.
    { unfold aspectRatio. change (div (of_Z w) (of_Z h)) with (r (of_Z w / of_Z h)%Q).
      apply (rnd_le_integer r _ 1); [simpl; lia|].
      rewrite Ew, Eh. exact K1. }
    lra.
  - intro L.
    assert (Lq : (inject_Z h + 1 <= inject_Z w)%Q).
    { change 1%Q with (inject_Z 1). rewrite <- inject_Z_plus, <- Zle_Qle. lia. }
    assert (Bh : (inject_Z h <= inject_Z (2 ^ 24))%Q) by (rewrite <- Zle_Qle; lia).
    apply Qlt_le_trans with (k * (1 - (1 # 2 ^ 53)))%Q; [|exact A1].
    apply Qmult_lt_r with (inject_Z h); [exact Ph|].
    assert (k * (1 - (1 # 2 ^ 53)) * inject_Z h == inject_Z w * (1 - (1 # 2 ^ 53)))%Q as ->.
    { rewrite <- Hk. ring. }
    assert (inject_Z (2 ^ 24) * (1 # 2 ^ 53) + (1 # 2 ^ 53) < 1)%Q by reflexivity.
    nra.
Qed.

Lemma canvas_dimension_truncate (default : Z) (q : Q) :
  (0 <= Qtruncate q <= 2147483647)%Z -> canvas_dimension default q = Qtruncate q.
Proof.
  intro H. unfold canvas_dimension, ToUint32. cbn [truncate Rounded].
  rewrite Z.mod_small by lia.
  destruct (Qtruncate q <=? 2147483647)%Z eqn:E; [reflexivity|].
  apply Z.leb_gt in E. lia.
Qed.

(** The side computed by a quotient, in the landscape branch. *)
Lemma quotient_side (D w h : Z) :
  (0 < w <= 2 ^ 24)%Z -> (0 < h <= 2 ^ 24)%Z -> (0 < D <= 2 ^ 24)%Z -> (h < w)%Z ->
  let side := div (of_Z D) (div (of_Z w) (of_Z h)) in
  let p := canvas_dimension 150 side in
  (Qabs (inject_Z p - inject_Z (D * h) / inject_Z w) <= 1)%Q.
Proof.
  intros Hw Hh HD Hlt side p.
  pose proof (aspectRatio_accurate w h Hw Hh) as [A1 A2]. cbv zeta in A1, A2.
  set (aspectRatio := div (of_Z w) (of_Z h)) in *.
  set (k := (inject_Z w / inject_Z h)%Q) in *.
  pose proof (inject_Z_pos w ltac:(lia)) as Pw.
  pose proof (inject_Z_pos h ltac:(lia)) as Ph.
  pose proof (inject_Z_pos D ltac:(lia)) as PD.
  assert (ED : (of_Z D == inject_Z D)%Q) by (apply of_Z_exact; lia).
  assert (Hk : (k * inject_Z h == inject_Z w)%Q) by (unfold k; field; lra).
  assert (Pk : (0 < k)%Q).
  { unfold k. apply Qlt_shift_div_l; lra. }
  assert (Pa : (0 < aspectRatio)%Q).
  { apply Qlt_le_trans with (k * (1 - (1 # 2 ^ 53)))%Q; [|exact A1].
    assert (0 < 1 - (1 # 2 ^ 53))%Q by reflexivity. nra. }
  set (x := (of_Z D / aspectRatio)%Q).
  set (E := (inject_Z (D * h) / inject_Z w)%Q).
  assert (HE : (E * k == inject_Z D)%Q).
  { unfold E, k. rewrite inject_Z_mult. field. lra. }
  assert (Hx : (x * aspectRatio == inject_Z D)%Q).
  { unfold x. rewrite ED. field. lra. }
  assert (PE : (0 < E)%Q).
  { unfold E. apply Qlt_shift_div_l; [exact Pw|]. rewrite inject_Z_mult. nra. }
  assert (Hbounds : (E * (1 - (1 # 2 ^ 52)) <= x <= E * (1 + (1 # 2 ^ 52)))%Q).
  { split.
    - apply Qmult_le_r with aspectRatio; [exact Pa|]. rewrite Hx.
      apply Qle_trans with (E * (1 - (1 # 2 ^ 52)) * (k * (1 + (1 # 2 ^ 53))))%Q.
      + apply Qmult_le_l; [|exact A2].
        assert (0 < 1 - (1 # 2 ^ 52))%Q by reflexivity. nra.
      + assert (E * (1 - (1 # 2 ^ 52)) * (k * (1 + (1 # 2 ^ 53)))
                == inject_Z D * ((1 - (1 # 2 ^ 52)) * (1 + (1 # 2 ^ 53))))%Q as ->.
        { rewrite <- HE. ring. }
        assert ((1 - (1 # 2 ^ 52)) * (1 + (1 # 2 ^ 53)) <= 1)%Q by (unfold Qle; simpl; lia).
        nra.
    - apply Qmult_le_r with aspectRatio; [exact Pa|]. rewrite Hx.
      apply Qle_trans with (E * (1 + (1 # 2 ^ 52)) * (k * (1 - (1 # 2 ^ 53))))%Q.
      + assert (E * (1 + (1 # 2 ^ 52)) * (k * (1 - (1 # 2 ^ 53)))
                == inject_Z D * ((1 + (1 # 2 ^ 52)) * (1 - (1 # 2 ^ 53))))%Q as ->.
        { rewrite <- HE. ring. }
        assert (1 <= (1 + (1 # 2 ^ 52)) * (1 - (1 # 2 ^ 53)))%Q by (unfold Qle; simpl; lia).
        nra.
      + apply Qmult_le_l; [|exact A1].
        assert (0 < 1 + (1 # 2 ^ 52))%Q by reflexivity. nra. }
  assert (Hn : (0 < D * h <= 2 ^ 52)%Z) by nia.
  destruct (pixel_within_one r (D * h) w x Hn ltac:(lia) Hbounds) as [Hp Habs].
  assert (Hle : (D * h / w <= D)%Z) by (apply Z.div_le_upper_bound; nia).
  unfold p, side. change (div (of_Z D) aspectRatio) with (r x).
  rewrite canvas_dimension_truncate by lia.
  exact Habs.
Qed.

(** The side computed by a product, in the other branch. *)
Lemma product_side (D w h : Z) :
  (0 < w <= 2 ^ 24)%Z -> (0 < h <= 2 ^ 24)%Z -> (0 < D <= 2 ^ 24)%Z -> (w <= h)%Z ->
  let side := mul (of_Z D) (div (of_Z w) (of_Z h)) in
  let p := canvas_dimension 300 side in
  (Qabs (inject_Z p - inject_Z (D * w) / inject_Z h) <= 1)%Q.
Proof.
  intros Hw Hh HD Hle side p.
  pose proof (aspectRatio_accurate w h Hw Hh) as [A1 A2]. cbv zeta in A1, A2.
  set (aspectRatio := div (of_Z w) (of_Z h)) in *.
  set (k := (inject_Z w / inject_Z h)%Q) in *.
  pose proof (inject_Z_pos w ltac:(lia)) as Pw.
  pose proof (inject_Z_pos h ltac:(lia)) as Ph.
  pose proof (inject_Z_pos D ltac:(lia)) as PD.
  assert (ED : (of_Z D == inject_Z D)%Q) by (apply of_Z_exact; lia).
  set (x := (of_Z D * aspectRatio)%Q).
  set (E := (inject_Z (D * w) / inject_Z h)%Q).
  assert (HE : (E == inject_Z D * k)%Q).
  { unfold E, k. rewrite inject_Z_mult. field. lra. }
  assert (Pk : (0 < k)%Q).
  { unfold k. apply Qlt_shift_div_l; lra. }
  assert (Hbounds : (E * (1 - (1 # 2 ^ 52)) <= x <= E * (1 + (1 # 2 ^ 52)))%Q).
  { unfold x. rewrite HE, ED.
    assert (L1 : (k * (1 - (1 # 2 ^ 52)) <= k * (1 - (1 # 2 ^ 53)))%Q).
    { apply Qmult_le_l; [exact Pk|]. unfold Qle; simpl; lia. }
    assert (L2 : (k * (1 + (1 # 2 ^ 53)) <= k * (1 + (1 # 2 ^ 52)))%Q).
    { apply Qmult_le_l; [exact Pk|]. unfold Qle; simpl; lia. }
    split.
    - rewrite <- Qmult_assoc. apply Qmult_le_l; [exact PD|].
      apply Qle_trans with (k * (1 - (1 # 2 ^ 53)))%Q; assumption.
    - rewrite <- Qmult_assoc. apply Qmult_le_l; [exact PD|].
      apply Qle_trans with (k * (1 + (1 # 2 ^ 53)))%Q; assumption. }
  assert (Hn : (0 < D * w <= 2 ^ 52)%Z) by nia.
  destruct (pixel_within_one r (D * w) h x Hn ltac:(lia) Hbounds) as [Hp Habs].
  assert (Hle' : (D * w / h <= D)%Z) by (apply Z.div_le_upper_bound; nia).
  unfold p, side. change (mul (of_Z D) aspectRatio) with (r x).
  rewrite canvas_dimension_truncate by lia.
  exact Habs.
Qed.

(** C2. The original image has sides [w] and [h], the square has side [D]
    (all positive and at most 2^24).  [cropToOriginalAspectRatio] computes the
    very rectangle [resizeImage] drew the image into, copies exactly that
    rectangle of the square image onto a canvas of the truncated content
    size, and each side of that canvas is within one pixel of the side of the
    exact fit of [w : h] into the square, [D * w / max w h] by
    [D * h / max w h]. *)
Theorem crop_recovers_aspect_ratio
  (B : browser) (imageDataUrl : string) (generated original : image) (D : Z) :
  let w := naturalWidth original in
  let h := naturalHeight original in
  (0 < w <= 2 ^ 24)%Z -> (0 < h <= 2 ^ 24)%Z -> (0 < D <= 2 ^ 24)%Z ->
  let rect := resizeImage_rect original (of_Z D) in
  let c := crop_canvas generated (of_Z w) (of_Z h) (of_Z D) in
  loadImage B imageDataUrl = Some generated ->
  getContext2d B (cv_width c) (cv_height c) = true ->
  crop_rect (of_Z w) (of_Z h) (of_Z D) = rect
  /\ cropToOriginalAspectRatio B imageDataUrl (of_Z w) (of_Z h) (of_Z D)
     = Ok (toDataURL B c "image/jpeg" (decimal 95 100))
  /\ cv_ops c = [ drawImage8 generated
                    (offsetX rect) (offsetY rect) (contentWidth rect) (contentHeight rect)
                    (of_Z 0) (of_Z 0) (contentWidth rect) (contentHeight rect) ]
  /\ (Qabs (inject_Z (cv_width c) - inject_Z (D * w) / inject_Z (Z.max w h)) <= 1)%Q
  /\ (Qabs (inject_Z (cv_height c) - inject_Z (D * h) / inject_Z (Z.max w h)) <= 1)%Q.
Proof.
  intros w h Hw Hh HD rect c Hload Hctx.
  assert (Hrect : crop_rect (of_Z w) (of_Z h) (of_Z D) = rect) by reflexivity.
  split; [exact Hrect|].
  split.
  { unfold cropToOriginalAspectRatio. rewrite Hload. fold c. rewrite Hctx. reflexivity. }
  split.
  { unfold c, crop_canvas. rewrite Hrect. reflexivity. }
  assert (Same : forall a b : Z, (0 < b)%Z ->
                 (inject_Z (a * b) / inject_Z b == inject_Z a)%Q).
  { intros a b Hb. rewrite inject_Z_mult. field.
    pose proof (inject_Z_pos b Hb). lra. }
  unfold c, crop_canvas, crop_rect. cbn [cv_width cv_height].
  destruct (ltb (of_Z 1) (div (of_Z w) (of_Z h))) eqn:L;
    cbn [contentWidth contentHeight].
  - apply landscape_iff in L; [|assumption|assumption].
    rewrite Z.max_l by lia. split.
    + rewrite canvas_dimension_of_Z by lia. rewrite Same by lia.
      assert (inject_Z D - inject_Z D == 0)%Q as -> by ring. discriminate.
    + apply quotient_side; assumption.
  - assert (Hle : (w <= h)%Z).
    { apply Z.nlt_ge. intro Hlt. apply landscape_iff in Hlt; [|assumption|assumption].
      congruence. }
    rewrite Z.max_r by lia. split.
    + apply product_side; assumption.
    + rewrite canvas_dimension_of_Z by lia. rewrite Same by lia.
      assert (inject_Z D - inject_Z D == 0)%Q as -> by ring. discriminate.
Qed.

End CropBack.

(** The scene of 800 by 600 pixels comes back as 1024 by 768. *)
Lemma crop_recovers_aspect_ratio_witness :
  let B := test_browser (num := Q) (fun _ => Err "no service") in
  let c := crop_canvas (NUM := Rounded exact)
             (square_image generated_url) 800%Q 600%Q 1024%Q in
  (Qabs (inject_Z (cv_width c) - 1024) <= 1)%Q
  /\ (Qabs (inject_Z (cv_height c) - 768) <= 1)%Q.
Proof.
  intros B c.
  destruct (crop_recovers_aspect_ratio exact B generated_url
              (square_image generated_url) scene_image 1024)
    as (_ & _ & _ & Hw & Hh); try reflexivity; try (simpl; lia).
  split; [exact Hw|exact Hh].
Defined.

Example crop_canvas_scene :
  let c := crop_canvas (NUM := Rounded exact) (square_image "g") 800%Q 600%Q 1024%Q in
  cv_width c = 1024%Z /\ cv_height c = 768%Z.
Proof. vm_compute. split; reflexivity. Qed.

Example crop_canvas_scene_binary64 :
  let c := crop_canvas (NUM := Binary64) (square_image "g")
             (float_of_Z 800) (float_of_Z 600) (float_of_Z 1024) in
  cv_width c = 1024%Z /\ cv_height c = 768%Z.
Proof. vm_compute. split; reflexivity. Qed.

(** A side that is not a whole number of pixels is cut down: 1024 * 2 / 3. *)
Example crop_canvas_portrait_binary64 :
  let c := crop_canvas (NUM := Binary64) (square_image "g")
             (float_of_Z 2) (float_of_Z 3) (float_of_Z 1024) in
  cv_width c = 682%Z /\ cv_height c = 1024%Z.
Proof. vm_compute. split; reflexivity. Qed.

(** ** Percent to canvas pixel and back *)

(** Powers of two as literals, for linear arithmetic. *)
Ltac literals :=
  change (inject_Z (2 ^ 64)) with (18446744073709551616 # 1)%Q in *;
  change (inject_Z (2 ^ 24)) with (16777216 # 1)%Q in *;
  change (2 ^ 64)%positive with 18446744073709551616%positive in *;
  change (2 ^ 63)%positive with 9223372036854775808%positive in *;
  change (2 ^ 53)%positive with 9007199254740992%positive in *;
  change (2 ^ 51)%positive with 2251799813685248%positive in *;
  change (2 ^ 43)%positive with 8796093022208%positive in *;
  change (2 ^ 24)%positive with 16777216%positive in *;
  change (2 ^ 18)%positive with 262144%positive in *.

Section RoundTrip.
Variable r : rounding.
Local Hint Extern 0 (JsNumber _) => exact (Rounded r) : typeclass_instances.

(** The absolute error of one rounding, down to 0: the relative error of
    the normal range, and below it at most [2^-63]. *)
Lemma rnd_error (x : Q) :
  (0 <= x <= inject_Z (2 ^ 64))%Q ->
  (x - (x * (1 # 2 ^ 53) + (1 # 2 ^ 63)) <= r x
   /\ r x <= x + (x * (1 # 2 ^ 53) + (1 # 2 ^ 63)))%Q.
Proof.
  intros [H0 H1].
  destruct (Qlt_le_dec x (1 # 2 ^ 64)) as [S|L].
  - assert (R0 : (0 <= r x)%Q).
    { apply (rnd_ge_integer r _ 0); [simpl; lia|exact H0]. }
    assert (R1 : (r x <= r (1 # 2 ^ 64))%Q) by (apply rnd_monotone; lra).
    assert (Hr : (1 # 2 ^ 64 <= 1 # 2 ^ 64 <= inject_Z (2 ^ 64))%Q)
      by (split; unfold Qle; simpl; lia).
    pose proof (rnd_accurate r Hr) as A.
    apply Qabs_Qle_condition in A. destruct A as [_ A].
    literals. split; lra.
  - pose proof (rnd_accurate r (conj L H1)) as A.
    apply Qabs_Qle_condition in A. destruct A as [A1 A2].
    literals. split; lra.
Qed.

(** One axis of the round trip: the marker coordinate of a percent [p] in a
    content of size [s] at offset [off] on a canvas of side [D], and what the
    touch handler makes of that coordinate. *)
Lemma axis_roundtrip (D off s p : Q) :
  (1 <= D <= inject_Z (2 ^ 24))%Q -> (0 <= off <= D)%Q -> (0 < s <= D)%Q ->
  (r off == off)%Q -> (r s == s)%Q -> (0 <= p <= 100)%Q ->
  let X := add off (mul (div p (of_Z 100)) s) in
  let i := sub (sub X (of_Z 0)) off in
  let tau := ((1 + D / s) * (1 # 2 ^ 43))%Q in
  (0 <= i)%Q
  /\ ((p <= 100 - tau)%Q -> (i <= s)%Q)
  /\ ((i <= s)%Q -> (Qabs (mul (div i s) (of_Z 100) - p) <= tau)%Q).
Proof.
  intros [HD1 HD2] [Hoff0 Hoff1] [Hs0 Hs1] Foff Fs [Hp0 Hp1] X i tau.
  assert (E100 : (r (inject_Z 100) == 100)%Q) by (apply (rnd_integer r 100); simpl; lia).
  assert (E0 : (r (inject_Z 0) == 0)%Q) by (apply (rnd_integer r 0); simpl; lia).
  assert (E1 : (r 1 == 1)%Q) by (apply (rnd_integer r 1); simpl; lia).
  assert (R0 : (r 0 == 0)%Q) by (apply (rnd_integer r 0); simpl; lia).
  set (k := (D / s)%Q).
  assert (Hk : (k * s == D)%Q) by (unfold k; field; lra).
  assert (Etau : (tau == (1 + k) * (1 # 2 ^ 43))%Q) by reflexivity.
  assert (Etaus : (tau * s == (s + D) * (1 # 2 ^ 43))%Q).
  { rewrite Etau, <- Hk. ring. }
  assert (Hk0 : (0 <= k)%Q) by (unfold k; apply Qle_shift_div_l; lra).
  (* a = percent / 100 *)
  set (P := (p / 100)%Q).
  assert (HP : (P * 100 == p)%Q) by (unfold P; field).
  assert (HP0 : (0 <= P)%Q) by (unfold P; apply Qle_shift_div_l; lra).
  assert (HP1 : (P <= 1)%Q) by (unfold P; apply Qle_shift_div_r; lra).
  set (a := div p (of_Z 100)) in *.
  assert (Ea : (a == r P)%Q).
  { unfold a. change (div p (of_Z 100)) with (r (p / r (inject_Z 100))%Q).
    apply rnd_proper. unfold P. now rewrite E100. }
  assert (Ha0 : (0 <= a)%Q).
  { rewrite Ea, <- R0. apply rnd_monotone. exact HP0. }
  assert (Ha1 : (a <= 1)%Q).
  { rewrite Ea, <- E1. apply rnd_monotone. exact HP1. }
  assert (Ba : (P - (P * (1 # 2 ^ 53) + (1 # 2 ^ 63)) <= a
                /\ a <= P + (P * (1 # 2 ^ 53) + (1 # 2 ^ 63)))%Q).
  { rewrite Ea. apply rnd_error. literals. split; lra. }
  (* m = a * s *)
  set (Ps := (P * s)%Q).
  set (as_ := (a * s)%Q).
  assert (Has0 : (0 <= as_)%Q) by (unfold as_; apply Qmult_le_0_compat; lra).
  assert (Has1 : (as_ <= s)%Q).
  { unfold as_. rewrite <- (Qmult_1_l s) at 2. apply Qmult_le_compat_r; lra. }
  assert (Bas : (Ps - ((1 # 2 ^ 53) + (1 # 2 ^ 63)) * s <= as_
                 /\ as_ <= Ps + ((1 # 2 ^ 53) + (1 # 2 ^ 63)) * s)%Q).
  { destruct Ba as [Ba1 Ba2]. unfold as_, Ps. literals. split.
    - setoid_replace (P * s - ((1 # 9007199254740992) + (1 # 9223372036854775808)) * s)%Q
        with ((P - ((1 # 9007199254740992) + (1 # 9223372036854775808))) * s)%Q by ring.
      apply Qmult_le_compat_r; lra.
    - setoid_replace (P * s + ((1 # 9007199254740992) + (1 # 9223372036854775808)) * s)%Q
        with ((P + ((1 # 9007199254740992) + (1 # 9223372036854775808))) * s)%Q by ring.
      apply Qmult_le_compat_r; lra. }
  set (m := mul a s) in *.
  assert (Em : (m = r as_)%Q) by reflexivity.
  assert (Hm0 : (0 <= m)%Q).
  { rewrite Em, <- R0. apply rnd_monotone. exact Has0. }
  assert (Hm1 : (m <= s)%Q).
  { rewrite Em, <- Fs. apply rnd_monotone. exact Has1. }
  assert (Bm : (as_ - (as_ * (1 # 2 ^ 53) + (1 # 2 ^ 63)) <= m
                /\ m <= as_ + (as_ * (1 # 2 ^ 53) + (1 # 2 ^ 63)))%Q).
  { rewrite Em. apply rnd_error. literals. split; lra. }
  (* X = off + m *)
  assert (EX : X = r (off + m)%Q) by reflexivity.
  assert (HX0 : (off <= X)%Q).
  { rewrite EX, <- Foff at 1. apply rnd_monotone. lra. }
  assert (BX : ((off + m) - ((off + m) * (1 # 2 ^ 53) + (1 # 2 ^ 63)) <= X
                /\ X <= (off + m) + ((off + m) * (1 # 2 ^ 53) + (1 # 2 ^ 63)))%Q).
  { rewrite EX. apply rnd_error. literals. split; lra. }
  (* the touch handler *)
  assert (Ei : (i == r (X - off))%Q).
  { unfold i. change (sub (sub X (of_Z 0)) off) with (r (r (X - r (inject_Z 0)) - off)%Q).
    apply rnd_proper.
    assert (E : (r (X - r (inject_Z 0)) == X)%Q).
    { rewrite (rnd_proper r (X - r (inject_Z 0)) X) by (rewrite E0; ring).
      rewrite EX. apply rnd_idempotent. }
    now rewrite E. }
  set (d := (X - off)%Q) in *.
  assert (Hd0 : (0 <= d)%Q) by (unfold d; lra).
  assert (Hi0 : (0 <= i)%Q).
  { rewrite Ei, <- R0. apply rnd_monotone. exact Hd0. }
  assert (Bi : (d - (d * (1 # 2 ^ 53) + (1 # 2 ^ 63)) <= r d
                /\ r d <= d + (d * (1 # 2 ^ 53) + (1 # 2 ^ 63)))%Q).
  { apply rnd_error. destruct BX as [_ BX2]. unfold d. literals. split; lra. }
  split; [exact Hi0|]. split.
  - intro Hedge.
    rewrite Ei, <- Fs. apply rnd_monotone.
    assert (A1 : (p * s <= (100 - tau) * s)%Q) by (apply Qmult_le_compat_r; lra).
    assert (A2 : (p * s == 100 * Ps)%Q) by (unfold Ps; rewrite <- HP; ring).
    assert (A3 : ((100 - tau) * s == 100 * s - (s + D) * (1 # 2 ^ 43))%Q).
    { rewrite <- Etaus. ring. }
    rewrite A2, A3 in A1.
    destruct Bas as [_ Bas2]. destruct Bm as [_ Bm2]. destruct BX as [_ BX2].
    unfold d. literals. lra.
  - intro Hedge.
    set (q := (i / s)%Q).
    assert (Hq : (q * s == i)%Q) by (unfold q; field; lra).
    assert (Hq0 : (0 <= q)%Q) by (unfold q; apply Qle_shift_div_l; lra).
    assert (Hq1 : (q <= 1)%Q) by (unfold q; apply Qle_shift_div_r; lra).
    set (b := div i s).
    assert (Eb : b = r q) by reflexivity.
    assert (Hb0 : (0 <= b)%Q).
    { rewrite Eb, <- R0. apply rnd_monotone. exact Hq0. }
    assert (Hb1 : (b <= 1)%Q).
    { rewrite Eb, <- E1. apply rnd_monotone. exact Hq1. }
    assert (Bb : (q - (q * (1 # 2 ^ 53) + (1 # 2 ^ 63)) <= b
                  /\ b <= q + (q * (1 # 2 ^ 53) + (1 # 2 ^ 63)))%Q).
    { rewrite Eb. apply rnd_error. literals. split; lra. }
    set (back := mul b (of_Z 100)).
    assert (Eback : (back == r (b * 100))%Q).
    { unfold back. change (mul b (of_Z 100)) with (r (b * r (inject_Z 100))%Q).
      apply rnd_proper. now rewrite E100. }
    assert (Bback : (b * 100 - (b * 100 * (1 # 2 ^ 53) + (1 # 2 ^ 63)) <= r (b * 100)
                     /\ r (b * 100) <= b * 100 + (b * 100 * (1 # 2 ^ 53) + (1 # 2 ^ 63)))%Q).
    { apply rnd_error. literals. split; lra. }
    (* the pixel inside the content, against the percent *)
    assert (Bd : (Ps - 6 * (1 # 2 ^ 53) * D <= i /\ i <= Ps + 6 * (1 # 2 ^ 53) * D)%Q).
    { rewrite Ei.
      destruct Bas as [Bas1 Bas2]. destruct Bm as [Bm1 Bm2]. destruct BX as [BX1 BX2].
      destruct Bi as [Bi1 Bi2]. unfold d in *. literals. split; lra. }
    assert (Bq : (P - 6 * (1 # 2 ^ 53) * k <= q /\ q <= P + 6 * (1 # 2 ^ 53) * k)%Q).
    { destruct Bd as [Bd1 Bd2]. split.
      - apply (Qmult_le_r _ _ s Hs0).
        setoid_replace ((P - 6 * (1 # 2 ^ 53) * k) * s)%Q
          with (Ps - 6 * (1 # 2 ^ 53) * (k * s))%Q by (unfold Ps; ring).
        rewrite Hk, Hq. exact Bd1.
      - apply (Qmult_le_r _ _ s Hs0).
        setoid_replace ((P + 6 * (1 # 2 ^ 53) * k) * s)%Q
          with (Ps + 6 * (1 # 2 ^ 53) * (k * s))%Q by (unfold Ps; ring).
        rewrite Hk, Hq. exact Bd2. }
    rewrite Eback, Etau.
    apply Qabs_Qle_condition.
    destruct Bq as [Bq1 Bq2]. destruct Bb as [Bb1 Bb2]. destruct Bback as [Bk1 Bk2].
    literals. split; lra.
Qed.

(** Both axes: the answer of the touch handler to the marker of a position,
    given the content rectangle they share. *)
Lemma axes_roundtrip (D offX offY cw ch px py : Q) :
  (1 <= D <= inject_Z (2 ^ 24))%Q ->
  (0 <= offX <= D)%Q -> (0 < cw <= D)%Q -> (r offX == offX)%Q -> (r cw == cw)%Q ->
  (0 <= offY <= D)%Q -> (0 < ch <= D)%Q -> (r offY == offY)%Q -> (r ch == ch)%Q ->
  (0 <= px <= 100)%Q -> (0 <= py <= 100)%Q ->
  let X := add offX (mul (div px (of_Z 100)) cw) in
  let Y := add offY (mul (div py (of_Z 100)) ch) in
  let imageX := sub (sub X (of_Z 0)) offX in
  let imageY := sub (sub Y (of_Z 0)) offY in
  let answer :=
    if negb (ltb imageX (of_Z 0) || ltb cw imageX || ltb imageY (of_Z 0) || ltb ch imageY)
    then Some {| xPercent := mul (div imageX cw) (of_Z 100);
                 yPercent := mul (div imageY ch) (of_Z 100) |}
    else None in
  let tolerance size := ((1 + D / size) * (1 # 2 ^ 43))%Q in
  (forall back, answer = Some back ->
     (Qabs (xPercent back - px) <= tolerance cw)%Q
     /\ (Qabs (yPercent back - py) <= tolerance ch)%Q)
  /\ ((px <= 100 - tolerance cw)%Q -> (py <= 100 - tolerance ch)%Q ->
      exists back, answer = Some back).
Proof.
  intros HD HoX HcX FoX FcX HoY HcY FoY FcY Hpx Hpy X Y imageX imageY answer tolerance.
  destruct (axis_roundtrip _ _ _ _ HD HoX HcX FoX FcX Hpx) as (X0 & X1 & X2).
  destruct (axis_roundtrip _ _ _ _ HD HoY HcY FoY FcY Hpy) as (Y0 & Y1 & Y2).
  cbv zeta in X0, X1, X2, Y0, Y1, Y2.
  fold X in X0, X1, X2. fold imageX in X0, X1, X2.
  fold Y in Y0, Y1, Y2. fold imageY in Y0, Y1, Y2.
  assert (E0 : (of_Z 0 == 0)%Q) by (apply (rnd_integer r 0); simpl; lia).
  assert (G1 : ltb imageX (of_Z 0) = false).
  { apply Qltb_false. rewrite E0. exact X0. }
  assert (G3 : ltb imageY (of_Z 0) = false).
  { apply Qltb_false. rewrite E0. exact Y0. }
  unfold answer. rewrite G1, G3. cbn [orb]. split.
  - intro back.
    destruct (ltb cw imageX) eqn:G2; cbn [orb negb]; [discriminate|].
    destruct (ltb ch imageY) eqn:G4; cbn [orb negb]; [discriminate|].
    intros [= <-]. cbn [xPercent yPercent].
    apply Qltb_false in G2, G4. split; [apply X2|apply Y2]; assumption.
  - intros Ex Ey.
    assert (G2 : ltb cw imageX = false) by (apply Qltb_false, X1, Ex).
    assert (G4 : ltb ch imageY = false) by (apply Qltb_false, Y1, Ey).
    rewrite G2, G4. cbn [orb negb]. eexists. reflexivity.
Qed.

(** The padding before the content, for a content that fits. *)
Lemma offset_range (t s : Q) :
  (r t == t)%Q -> (0 <= s <= t)%Q ->
  let off := div (sub t s) (of_Z 2) in
  (0 <= off <= t)%Q /\ (r off == off)%Q.
Proof.
  intros Ft [Hs0 Hs1] off.
  assert (E2 : (of_Z 2 == 2)%Q) by (apply (rnd_integer r 2); simpl; lia).
  assert (R0 : (r 0 == 0)%Q) by (apply (rnd_integer r 0); simpl; lia).
  assert (Hd0 : (0 <= r (t - s))%Q).
  { rewrite <- R0. apply rnd_monotone. lra. }
  assert (Hd1 : (r (t - s) <= t)%Q).
  { rewrite <- Ft at 2. apply rnd_monotone. lra. }
  unfold off. change (div (sub t s) (of_Z 2)) with (r (r (t - s) / of_Z 2)%Q).
  split; [|apply rnd_idempotent]. split.
  - rewrite <- R0. apply rnd_monotone. rewrite E2. apply Qle_shift_div_l; lra.
  - rewrite <- Ft at 2. apply rnd_monotone. rewrite E2. apply Qle_shift_div_r; lra.
Qed.

(** The computed aspect ratio of an image with sides up to [2^24]. *)
Lemma aspectRatio_range (w h : Z) :
  (0 < w <= 2 ^ 24)%Z -> (0 < h <= 2 ^ 24)%Z ->
  let aspectRatio := div (of_Z w) (of_Z h) in
  ((1 # 2 ^ 24) * (1 - (1 # 2 ^ 53)) <= aspectRatio
   /\ aspectRatio <= inject_Z (2 ^ 24) * (1 + (1 # 2 ^ 53)))%Q.
Proof.
  intros Hw Hh aspectRatio.
  pose proof (aspectRatio_accurate r w h Hw Hh) as [A1 A2]. cbv zeta in A1, A2.
  fold aspectRatio in A1, A2.
  set (k := (inject_Z w / inject_Z h)%Q) in *.
  pose proof (inject_Z_pos w ltac:(lia)) as Pw.
  pose proof (inject_Z_pos h ltac:(lia)) as Ph.
  assert (Bw : (inject_Z w <= inject_Z (2 ^ 24))%Q) by (rewrite <- Zle_Qle; lia).
  assert (Bh : (inject_Z h <= inject_Z (2 ^ 24))%Q) by (rewrite <- Zle_Qle; lia).
  assert (W1 : (1 <= inject_Z w)%Q).
  { change 1%Q with (inject_Z 1). rewrite <- Zle_Qle. lia. }
  assert (H1 : (1 <= inject_Z h)%Q).
  { change 1%Q with (inject_Z 1). rewrite <- Zle_Qle. lia. }
  assert (Hk : (k * inject_Z h == inject_Z w)%Q) by (unfold k; field; lra).
  assert (K1 : (1 # 2 ^ 24 <= k)%Q).
  { apply Qmult_le_r with (inject_Z h); [exact Ph|]. rewrite Hk.
    apply Qle_trans with ((1 # 2 ^ 24) * inject_Z (2 ^ 24))%Q;
      [apply Qmult_le_l; [reflexivity|exact Bh]|].
    apply Qle_trans with 1%Q; [unfold Qle; simpl; lia|exact W1]. }
  assert (K2 : (k <= inject_Z (2 ^ 24))%Q).
  { apply Qmult_le_r with (inject_Z h); [exact Ph|]. rewrite Hk.
    apply Qle_trans with (inject_Z (2 ^ 24) * 1)%Q; [lra|].
    apply Qmult_le_l; [reflexivity|exact H1]. }
  split.
  - apply Qle_trans with (k * (1 - (1 # 2 ^ 53)))%Q; [|exact A1].
    apply Qmult_le_compat_r; [exact K1|unfold Qle; simpl; lia].
  - apply Qle_trans with (k * (1 + (1 # 2 ^ 53)))%Q; [exact A2|].
    apply Qmult_le_compat_r; [exact K2|unfold Qle; simpl; lia].
Qed.

(** The short side of the content: positive, and not below the canvas side
    divided by [2^25]. *)
Lemma quotient_content (t a : Q) :
  (1 <= t <= inject_Z (2 ^ 24))%Q ->
  ((1 # 2 ^ 24) * (1 - (1 # 2 ^ 53)) <= a
   /\ a <= inject_Z (2 ^ 24) * (1 + (1 # 2 ^ 53)))%Q ->
  let s := div t a in
  (0 < s)%Q /\ (t <= 33554431 * s)%Q.
Proof.
  intros [Ht1 Ht2] [Ha1 Ha2] s.
  assert (Pa : (0 < a)%Q).
  { apply Qlt_le_trans with ((1 # 2 ^ 24) * (1 - (1 # 2 ^ 53)))%Q; [reflexivity|exact Ha1]. }
  set (g := (t / a)%Q).
  assert (Hg : (g * a == t)%Q) by (unfold g; field; lra).
  assert (Pg : (0 < g)%Q) by (unfold g; apply Qlt_shift_div_l; lra).
  assert (G1 : (g * a <= g * (inject_Z (2 ^ 24) * (1 + (1 # 2 ^ 53))))%Q).
  { apply Qmult_le_l; assumption. }
  assert (G2 : (g * ((1 # 2 ^ 24) * (1 - (1 # 2 ^ 53))) <= g * a)%Q).
  { apply Qmult_le_l; assumption. }
  rewrite Hg in G1, G2.
  assert (Hr : (1 # 2 ^ 64 <= g <= inject_Z (2 ^ 64))%Q).
  { literals. split; lra. }
  pose proof (rnd_accurate r Hr) as A.
  apply Qabs_Qle_condition in A. destruct A as [A _].
  change s with (r g). literals. split; lra.
Qed.

Lemma product_content (t a : Q) :
  (1 <= t <= inject_Z (2 ^ 24))%Q ->
  ((1 # 2 ^ 24) * (1 - (1 # 2 ^ 53)) <= a
   /\ a <= inject_Z (2 ^ 24) * (1 + (1 # 2 ^ 53)))%Q ->
  let s := mul t a in
  (0 < s)%Q /\ (t <= 33554431 * s)%Q.
Proof.
  intros [Ht1 Ht2] [Ha1 Ha2] s.
  assert (Pa : (0 < a)%Q).
  { apply Qlt_le_trans with ((1 # 2 ^ 24) * (1 - (1 # 2 ^ 53)))%Q; [reflexivity|exact Ha1]. }
  set (g := (t * a)%Q).
  assert (Pt : (0 < t)%Q) by lra.
  assert (G1 : (t * a <= t * (inject_Z (2 ^ 24) * (1 + (1 # 2 ^ 53))))%Q).
  { apply Qmult_le_l; assumption. }
  assert (G2 : (t * ((1 # 2 ^ 24) * (1 - (1 # 2 ^ 53))) <= t * a)%Q).
  { apply Qmult_le_l; assumption. }
  fold g in G1, G2.
  assert (Hr : (1 # 2 ^ 64 <= g <= inject_Z (2 ^ 64))%Q).
  { literals. split; lra. }
  pose proof (rnd_accurate r Hr) as A.
  apply Qabs_Qle_condition in A. destruct A as [A _].
  change s with (r g). literals. split; lra.
Qed.

(** The tolerance of the round trip, for a content that is not below the
    canvas side divided by [2^25]. *)
Lemma tolerance_small (D s : Q) :
  (0 < s)%Q -> (D <= 33554431 * s)%Q ->
  ((1 + D / s) * (1 # 2 ^ 43) <= 1 # 2 ^ 18)%Q.
Proof.
  intros Hs HD.
  assert (K : (D / s <= 33554431)%Q) by (apply Qle_shift_div_r; lra).
  literals. lra.
Qed.

(** C3, as amended.  [markImage] maps a percent to the canvas pixel
    [offset + (percent / 100) * content size] on each axis.  In any rounded
    arithmetic, for an original image with sides from 1 to [2^24], a square
    canvas of side [T] from 1 to [2^24] and percents in [0, 100]: the content
    rectangle has positive sides; whenever the drop-point computation of the
    touch handler, run on that pixel with the square as its container,
    accepts the pixel, the percents it returns are those one started from
    within the absolute tolerance [(1 + T / content size) * 2^-43] of a
    percentage point on each axis, which is at most [2^-18]; and it does
    accept the pixel when both percents are at most 100 minus that
    tolerance.  Neither a relative tolerance nor the acceptance of the far
    edge is claimed: the counterexample below refutes both. *)
Theorem percent_roundtrip_tolerance
  (original : image) (T : Z) (x_percent y_percent : Q) :
  (0 < naturalWidth original <= 2 ^ 24)%Z -> (0 < naturalHeight original <= 2 ^ 24)%Z ->
  (0 < T <= 2 ^ 24)%Z ->
  (0 <= x_percent <= 100)%Q -> (0 <= y_percent <= 100)%Q ->
  let position := {| xPercent := x_percent; yPercent := y_percent |} in
  let m := markImage_marker T T position
             {| originalWidth := of_Z (naturalWidth original);
                originalHeight := of_Z (naturalHeight original) |} in
  let rect := marker_rect m in
  let container := {| rect_left := of_Z 0; rect_top := of_Z 0;
                      rect_width := of_Z T; rect_height := of_Z T |} in
  let tolerance size := ((1 + inject_Z T / size) * (1 # 2 ^ 43))%Q in
  finalMarkerX m = add (offsetX rect) (mul (div x_percent (of_Z 100)) (contentWidth rect))
  /\ finalMarkerY m = add (offsetY rect) (mul (div y_percent (of_Z 100)) (contentHeight rect))
  /\ (0 < contentWidth rect)%Q /\ (0 < contentHeight rect)%Q
  /\ (tolerance (contentWidth rect) <= 1 # 2 ^ 18)%Q
  /\ (tolerance (contentHeight rect) <= 1 # 2 ^ 18)%Q
  /\ (forall back,
        touch_relativePosition original container (finalMarkerX m) (finalMarkerY m)
        = Some back ->
        (Qabs (xPercent back - x_percent) <= tolerance (contentWidth rect))%Q
        /\ (Qabs (yPercent back - y_percent) <= tolerance (contentHeight rect))%Q)
  /\ ((x_percent <= 100 - tolerance (contentWidth rect))%Q ->
      (y_percent <= 100 - tolerance (contentHeight rect))%Q ->
      exists back,
        touch_relativePosition original container (finalMarkerX m) (finalMarkerY m)
        = Some back).
Proof.
  intros Hw Hh HT Hx Hy position m rect container tolerance.
  set (t := of_Z T).
  assert (Et : (t == inject_Z T)%Q) by (apply of_Z_exact; lia).
  assert (Ft : (r t == t)%Q) by apply rnd_idempotent.
  assert (Ht : (1 <= t <= inject_Z (2 ^ 24))%Q).
  { rewrite Et. change 1%Q with (inject_Z 1). rewrite <- !Zle_Qle. lia. }
  assert (HD : (1 <= inject_Z T <= inject_Z (2 ^ 24))%Q) by (rewrite <- Et; exact Ht).
  set (a := div (of_Z (naturalWidth original)) (of_Z (naturalHeight original))).
  pose proof (aspectRatio_range _ _ Hw Hh)
    as Ha. cbv zeta in Ha. fold a in Ha.
  assert (E1 : (div t t == 1)%Q).
  { change (div t t) with (r (t / t)%Q).
    apply Qeq_trans with (r (inject_Z 1)); [|apply (rnd_integer r 1); simpl; lia].
    apply rnd_proper. change (inject_Z 1) with 1%Q. field. lra. }
  assert (Lk : ltb (div t t) a = Qltb 1 a).
  { change (ltb (div t t) a) with (Qltb (div t t) a).
    destruct (Qltb 1 a) eqn:L.
    - apply Qltb_true. apply Qltb_true in L. now rewrite E1.
    - apply Qltb_false. apply Qltb_false in L. now rewrite E1. }
  assert (Z0 : (div (sub t t) (of_Z 2) == 0)%Q).
  { change (sub t t) with (r (t - t)%Q). apply div_two_zero. ring. }
  assert (Fz : (r (div (sub t t) (of_Z 2)) == div (sub t t) (of_Z 2))%Q)
    by apply rnd_idempotent.
  assert (Hz : (0 <= div (sub t t) (of_Z 2) <= inject_Z T)%Q) by (rewrite Z0; lra).
  assert (Ht' : (0 < t <= inject_Z T)%Q) by (rewrite Et; lra).
  assert (Tt : (inject_Z T <= 33554431 * t)%Q) by (rewrite Et; lra).
  pose proof (letterbox_fits r a t ltac:(lra) Ft) as Hfit.
  unfold rect, m, markImage_marker, touch_relativePosition, container.
  cbn [originalWidth originalHeight rect_left rect_top rect_width rect_height
       naturalWidth naturalHeight].
  fold t. fold a. rewrite gt_one, Lk.
  destruct (Qltb 1 a) eqn:L;
    cbn [marker_rect finalMarkerX finalMarkerY offsetX offsetY contentWidth contentHeight].
  - destruct Hfit as (_ & F2 & _).
    destruct (quotient_content _ _ Ht Ha) as [Ps Bs].
    set (s := div t a) in *. change (r (t / a)%Q) with s in F2.
    assert (Fs : (r s == s)%Q) by apply rnd_idempotent.
    destruct (offset_range _ _ Ft (conj (Qlt_le_weak _ _ Ps) F2)) as [Ho Fo].
    assert (Hs' : (0 < s <= inject_Z T)%Q) by (rewrite <- Et; lra).
    assert (Ho' : (0 <= div (sub t s) (of_Z 2) <= inject_Z T)%Q) by (rewrite <- Et; exact Ho).
    assert (Ts : (inject_Z T <= 33554431 * s)%Q) by (rewrite <- Et; exact Bs).
    split; [reflexivity|]. split; [reflexivity|].
    split; [lra|]. split; [exact Ps|].
    split; [apply tolerance_small; lra|].
    split; [apply tolerance_small; lra|].
    exact (axes_roundtrip _ _ _ _ _ _ _ HD Hz Ht' Fz Ft Ho' Hs' Fo Fs Hx Hy).
  - destruct Hfit as (F1 & _ & _).
    destruct (product_content _ _ Ht Ha) as [Ps Bs].
    set (s := mul t a) in *. change (r (t * a)%Q) with s in F1.
    assert (Fs : (r s == s)%Q) by apply rnd_idempotent.
    destruct (offset_range _ _ Ft (conj (Qlt_le_weak _ _ Ps) F1)) as [Ho Fo].
    assert (Hs' : (0 < s <= inject_Z T)%Q) by (rewrite <- Et; lra).
    assert (Ho' : (0 <= div (sub t s) (of_Z 2) <= inject_Z T)%Q) by (rewrite <- Et; exact Ho).
    assert (Ts : (inject_Z T <= 33554431 * s)%Q) by (rewrite <- Et; exact Bs).
    split; [reflexivity|]. split; [reflexivity|].
    split; [exact Ps|]. split; [lra|].
    split; [apply tolerance_small; lra|].
    split; [apply tolerance_small; lra|].
    exact (axes_roundtrip _ _ _ _ _ _ _ HD Ho' Hs' Fo Fs Hz Ht' Fz Ft Hx Hy).
Qed.

End RoundTrip.

(** The centre of the scene of 800 by 600 pixels on the canvas of 1024, in
    exact arithmetic: accepted, and returned within the tolerance. *)
Lemma percent_roundtrip_tolerance_witness :
  let N := Rounded exact in
  let m := markImage_marker 1024 1024 {| xPercent := 50%Q; yPercent := 50%Q |}
             {| originalWidth := of_Z 800; originalHeight := of_Z 600 |} in
  let rect := marker_rect m in
  let container := {| rect_left := of_Z 0; rect_top := of_Z 0;
                      rect_width := of_Z 1024; rect_height := of_Z 1024 |} in
  exists back,
    touch_relativePosition scene_image container (finalMarkerX m) (finalMarkerY m)
    = Some back
    /\ (Qabs (xPercent back - 50)
        <= (1 + inject_Z 1024 / contentWidth rect) * (1 # 2 ^ 43))%Q
    /\ (Qabs (yPercent back - 50)
        <= (1 + inject_Z 1024 / contentHeight rect) * (1 # 2 ^ 43))%Q.
Proof.
  intros N m rect container.
  destruct (percent_roundtrip_tolerance exact scene_image 1024%Z 50%Q 50%Q)
    as (_ & _ & _ & _ & _ & _ & Hback & Haccepted);
    try (simpl; lia); try (split; discriminate).
  destruct Haccepted as [back Hb]; [vm_compute; discriminate|vm_compute; discriminate|].
  exists back. split; [exact Hb|]. exact (Hback back Hb).
Defined.

(** In doubles, at the first point of the counterexample below: the percent
    [2^-60] comes back as 0, and 50 as 50, within the tolerance. *)
Example percent_roundtrip_binary64_tolerance :
  let N := Binary64 in
  let container := {| rect_left := of_Z 0; rect_top := of_Z 0;
                      rect_width := of_Z 1024; rect_height := of_Z 1024 |} in
  let original := {| img_src := "portrait.png"; naturalWidth := 3; naturalHeight := 4 |} in
  let x_percent := div (of_Z 1) (of_Z (2 ^ 60)) in
  let y_percent := of_Z 50 in
  let m := markImage_marker 1024 1024 {| xPercent := x_percent; yPercent := y_percent |}
             {| originalWidth := of_Z 3; originalHeight := of_Z 4 |} in
  let tolerance size := ((1 + 1024 / float_value size) * (1 # 2 ^ 43))%Q in
  exists back,
    touch_relativePosition original container (finalMarkerX m) (finalMarkerY m) = Some back
    /\ (Qabs (float_value (xPercent back) - float_value x_percent)
        <= tolerance (contentWidth (marker_rect m)))%Q
    /\ (Qabs (float_value (yPercent back) - float_value y_percent)
        <= tolerance (contentHeight (marker_rect m)))%Q.
Proof.
  cbv zeta. eexists. split; [vm_compute; reflexivity|].
  split; vm_compute; discriminate.
Qed.

(** In doubles the claim fails as stated.  On the padded square of a 3 by 4
    image the content starts at pixel 128, and the percent [2^-60] is absorbed
    by that offset: what comes back is 0, a relative error of 1.  And on the
    padded square of a 3 by 1 image the pixel of the point at 100 percent,
    brought back into the content, exceeds the content height in the last
    place: the point is rejected as outside the image. *)
Lemma percent_roundtrip_binary64_counterexample :
  let N := Binary64 in
  let container := {| rect_left := of_Z 0; rect_top := of_Z 0;
                      rect_width := of_Z 1024; rect_height := of_Z 1024 |} in
  (let original := {| img_src := "portrait.png"; naturalWidth := 3; naturalHeight := 4 |} in
   let x_percent := div (of_Z 1) (of_Z (2 ^ 60)) in
   let y_percent := of_Z 50 in
   let m := markImage_marker 1024 1024 {| xPercent := x_percent; yPercent := y_percent |}
              {| originalWidth := of_Z 3; originalHeight := of_Z 4 |} in
   leb (of_Z 0) x_percent = true /\ leb x_percent (of_Z 100) = true
   /\ ltb (of_Z 0) (contentWidth (marker_rect m)) = true
   /\ ltb (of_Z 0) (contentHeight (marker_rect m)) = true
   /\ exists back,
        touch_relativePosition original container (finalMarkerX m) (finalMarkerY m)
        = Some back
        /\ float_value (xPercent back) = 0%Q
        /\ ~ (Qabs (float_value (xPercent back) - float_value x_percent)
              <= (1 # 1000000) * Qabs (float_value x_percent))%Q)
  /\ (let original := {| img_src := "banner.png"; naturalWidth := 3; naturalHeight := 1 |} in
      let m := markImage_marker 1024 1024 {| xPercent := of_Z 100; yPercent := of_Z 100 |}
                 {| originalWidth := of_Z 3; originalHeight := of_Z 1 |} in
      ltb (of_Z 0) (contentWidth (marker_rect m)) = true
      /\ ltb (of_Z 0) (contentHeight (marker_rect m)) = true
      /\ touch_relativePosition original container (finalMarkerX m) (finalMarkerY m)
         = None).
Proof.
  cbv zeta. split.
  - split; [vm_compute; reflexivity|].
    split; [vm_compute; reflexivity|].
    split; [vm_compute; reflexivity|].
    split; [vm_compute; reflexivity|].
    eexists. split; [vm_compute; reflexivity|].
    split; [vm_compute; reflexivity|].
    vm_compute. intro H. apply H. reflexivity.
  - split; [vm_compute; reflexivity|].
    split; vm_compute; reflexivity.
Qed.

(** ** No geometry check *)

Definition markImage_errors : list string :=
  [ "Error del lector de archivos durante el marcado: [object ProgressEvent]";
    "Error al leer el archivo para marcarlo.";
    "Error al cargar la imagen durante el marcado: [object Event]";
    "No se pudo obtener el contexto del canvas para marcar.";
    "La conversión de Canvas a Blob falló durante el marcado." ].

Lemma markImage_fails_with {num : Type} {NUM : JsNumber num} (B : browser)
  (paddedSquareFile : File) (position : position_t) (originalDimensions : dimensions)
  (e : string) :
  markImage B paddedSquareFile position originalDimensions = Err e -> In e markImage_errors.
Proof.
  unfold markImage, read_and_load, markImage_errors.
  destruct (readAsDataURL B paddedSquareFile) as [url|]; [|intros [= <-]; simpl; tauto].
  destruct (is_empty url); [intros [= <-]; simpl; tauto|].
  destruct (loadImage B url) as [img|]; [|intros [= <-]; simpl; tauto].
  destruct (getContext2d B _ _); cbn [negb]; [|intros [= <-]; simpl; tauto].
  destruct (toBlob_succeeds B _); [discriminate|intros [= <-]; simpl; tauto].
Qed.

(** C8, as amended.  [markImage] checks no geometry, in any arithmetic.  It
    fails only with one of the five messages of the file reader, the
    decoder, the context and the encoder.  And whenever the file decodes, the
    context is granted and the canvas encodes, whatever the placement point
    and the original dimensions, it returns the marked file: the canvas has
    the size of the image, and the circle is drawn with its centre at
    [offset + (percent / 100) * content size] on each axis, for the content
    rectangle of the two-branch formula on the canvas width, neither clamped
    nor compared with the canvas. *)
Theorem markImage_no_geometry_check
  (num : Type) (NUM : JsNumber num) (B : browser)
  (paddedSquareFile : File) (img : image)
  (position : position_t) (originalDimensions : dimensions) :
  let width := canvas_dimension 300 (of_Z (naturalWidth img)) in
  let height := canvas_dimension 150 (of_Z (naturalHeight img)) in
  let targetDimension := of_Z width in
  let aspectRatio :=
    div (originalWidth originalDimensions) (originalHeight originalDimensions) in
  let contentWidth :=
    if ltb (of_Z 1) aspectRatio then targetDimension else mul targetDimension aspectRatio in
  let contentHeight :=
    if ltb (of_Z 1) aspectRatio then div targetDimension aspectRatio else targetDimension in
  let offsetX := div (sub targetDimension contentWidth) (of_Z 2) in
  let offsetY := div (sub targetDimension contentHeight) (of_Z 2) in
  let finalMarkerX :=
    add offsetX (mul (div (xPercent position) (of_Z 100)) contentWidth) in
  let finalMarkerY :=
    add offsetY (mul (div (yPercent position) (of_Z 100)) contentHeight) in
  let markerRadius :=
    Math_max (of_Z 5) (mul (Math_min (of_Z width) (of_Z height)) (decimal 15 1000)) in
  let marked :=
    {| cv_width := width;
       cv_height := height;
       cv_ops := [ drawImage2 img (of_Z 0) (of_Z 0);
                   beginPath;
                   arc finalMarkerX finalMarkerY markerRadius
                     (of_Z 0) (mul (of_Z 2) Math_PI) false;
                   fillStyle "red";
                   fill;
                   lineWidth (mul markerRadius (decimal 2 10));
                   strokeStyle "white";
                   stroke ] |} in
  decodes B paddedSquareFile img ->
  getContext2d B width height = true ->
  toBlob_succeeds B marked = true ->
  markImage B paddedSquareFile position originalDimensions
  = Ok {| file_name := "marked-" ++ file_name paddedSquareFile;
          file_type := "image/jpeg";
          file_content := CanvasBlob marked "image/jpeg" (decimal 95 100) |}
  /\ (forall (file : File) (p : position_t) (d : dimensions) (e : string),
        markImage B file p d = Err e -> In e markImage_errors).
Proof.
  intros width height targetDimension aspectRatio contentWidth contentHeight
    offsetX offsetY finalMarkerX finalMarkerY markerRadius marked Hdec Hctx Hblob.
  split; [|intros file p d e; apply markImage_fails_with].
  assert (Hcanvas : markImage_canvas img position originalDimensions = marked).
  { unfold markImage_canvas, markImage_marker, marked.
    fold width height. fold targetDimension. fold aspectRatio.
    unfold finalMarkerX, finalMarkerY, offsetX, offsetY, contentWidth, contentHeight,
      markerRadius.
    destruct (ltb (of_Z 1) aspectRatio); reflexivity. }
  unfold markImage.
  rewrite (read_and_load_decodes B paddedSquareFile img _ _ _ Hdec).
  rewrite Hcanvas. cbn [cv_width cv_height marked]. rewrite Hctx. cbn [negb].
  fold marked. rewrite Hblob. reflexivity.
Qed.

(** The marker of the centre of the scene on its padded square, in doubles:
    pixel 512 on both axes. *)
Lemma markImage_no_geometry_check_witness :
  let N := Binary64 in
  let B := test_browser (fun _ => Err "no service") in
  let padded := {| file_name := "scene.jpeg"; file_type := "image/jpeg";
                   file_content := RawBytes "PADDED" |} in
  let position := {| xPercent := of_Z 50; yPercent := of_Z 50 |} in
  let originalDimensions := {| originalWidth := of_Z 800; originalHeight := of_Z 600 |} in
  exists c,
    markImage B padded position originalDimensions
    = Ok {| file_name := "marked-scene.jpeg"; file_type := "image/jpeg";
            file_content := CanvasBlob c "image/jpeg" (decimal 95 100) |}
    /\ cv_width c = 1024%Z
    /\ In (arc (of_Z 512) (of_Z 512)
             (Math_max (of_Z 5) (mul (of_Z 1024) (decimal 15 1000)))
             (of_Z 0) (mul (of_Z 2) Math_PI) false) (cv_ops c).
Proof.
  intros N B padded position originalDimensions.
  destruct (markImage_no_geometry_check float Binary64 B padded
              (square_image "data:image/jpeg;base64,UEFEREVE")
              position originalDimensions) as [H _].
  - exists "data:image/jpeg;base64,UEFEREVE". repeat split.
  - reflexivity.
  - reflexivity.
  - eexists. split; [exact H|]. split; [vm_compute; reflexivity|].
    right. right. left. vm_compute. reflexivity.
Defined.

(** C8 as stated fails: a placement point at 150 percent puts the centre at
    pixel 1536 of a canvas 1024 pixels wide, and [markImage] returns the
    marked file all the same. *)
Lemma markImage_draws_outside_canvas :
  let N := Binary64 in
  let B := test_browser (fun _ => Err "no service") in
  let padded := {| file_name := "scene.jpeg"; file_type := "image/jpeg";
                   file_content := RawBytes "PADDED" |} in
  let img := square_image "data:image/jpeg;base64,UEFEREVE" in
  let position := {| xPercent := of_Z 150; yPercent := of_Z 50 |} in
  let originalDimensions := {| originalWidth := of_Z 800; originalHeight := of_Z 600 |} in
  let c := markImage_canvas img position originalDimensions in
  let m := markImage_marker 1024 1024 position originalDimensions in
  markImage B padded position originalDimensions
  = Ok {| file_name := "marked-scene.jpeg"; file_type := "image/jpeg";
          file_content := CanvasBlob c "image/jpeg" (decimal 95 100) |}
  /\ cv_width c = 1024%Z
  /\ In (arc (finalMarkerX m) (finalMarkerY m) (markerRadius m)
           (of_Z 0) (mul (of_Z 2) Math_PI) false) (cv_ops c)
  /\ Qred (float_value (finalMarkerX m)) = 1536%Q
  /\ ltb (of_Z (cv_width c)) (finalMarkerX m) = true.
Proof.
  cbv zeta.
  split; [vm_compute; reflexivity|].
  split; [vm_compute; reflexivity|].
  split; [vm_compute; right; right; left; reflexivity|].
  split; vm_compute; reflexivity.
Qed.

(** ** Data URLs *)

Lemma split_never_empty (sep : ascii) (s : string) : split sep s <> [].
Proof.
  destruct s as [|c rest]; simpl; [discriminate|].
  destruct (Ascii.eqb c sep); [discriminate|].
  destruct (split sep rest); discriminate.
Qed.

Lemma split_header (header tail : string) :
  has_char "," header = false ->
  split "," (header ++ "," ++ tail) = header :: split "," tail.
Proof.
  induction header as [|c rest IH]; intro H.
  - reflexivity.
  - simpl in H. apply orb_false_iff in H. destruct H as [Hc Hrest].
    change (String c rest ++ "," ++ tail) with (String c (rest ++ "," ++ tail)).
    cbn [split]. rewrite Hc, (IH Hrest). reflexivity.
Qed.

Lemma lazy_group_semicolon_sound (s g : string) :
  lazy_group_semicolon s = Some g -> exists post, s = g ++ ";" ++ post.
Proof.
  revert g. induction s as [|c rest IH]; intros g H; [discriminate|].
  cbn [lazy_group_semicolon] in H.
  destruct (Ascii.eqb c ";") eqn:E.
  - apply Ascii.eqb_eq in E. subst c. injection H as <-. exists rest. reflexivity.
  - destruct (is_some (after_line_terminator (String c rest))); [discriminate|].
    destruct (lazy_group_semicolon rest) as [g'|]; [|discriminate].
    injection H as <-. destruct (IH g' eq_refl) as [post ->].
    exists post. reflexivity.
Qed.

Lemma match_mime_sound (s g : string) :
  match_mime s = Some g -> exists pre post, s = pre ++ ":" ++ g ++ ";" ++ post.
Proof.
  induction s as [|c rest IH]; intro H; [discriminate|].
  cbn [match_mime] in H.
  destruct (Ascii.eqb c ":") eqn:E.
  - destruct (lazy_group_semicolon rest) as [g'|] eqn:L.
    + injection H as <-. apply Ascii.eqb_eq in E. subst c.
      destruct (lazy_group_semicolon_sound _ _ L) as [post ->].
      exists EmptyString, post. reflexivity.
    + destruct (IH H) as (pre & post & ->).
      exists (String c pre), post. reflexivity.
  - destruct (IH H) as (pre & post & ->).
    exists (String c pre), post. reflexivity.
Qed.

Lemma has_char_app (c : ascii) (a b : string) :
  has_char c (a ++ b) = has_char c a || has_char c b.
Proof.
  induction a as [|d rest IH]; simpl; [reflexivity|].
  rewrite IH. apply orb_assoc.
Qed.

(** A header without a semicolon has no [:] ... [;] pair. *)
Lemma no_semicolon_no_pair (header : string) :
  has_char ";" header = false ->
  forall pre mime post : string, header <> pre ++ ":" ++ mime ++ ";" ++ post.
Proof.
  intros H pre mime post E. rewrite E in H.
  rewrite !has_char_app in H. simpl in H.
  rewrite !orb_true_r in H. discriminate.
Qed.

Section DataUrl.
Context {num : Type} {NUM : JsNumber num}.
Variable B : browser (num := num).

Lemma parse_data_url_no_mime (header tail : string) :
  has_char "," header = false ->
  (forall pre mime post : string,
      mime <> EmptyString -> header <> pre ++ ":" ++ mime ++ ";" ++ post) ->
  parse_data_url (header ++ "," ++ tail) = Err no_mime_type.
Proof.
  intros Hcomma Hpair. unfold parse_data_url.
  rewrite (split_header header tail Hcomma).
  destruct (split "," tail) as [|payload rest] eqn:S;
    [exfalso; exact (split_never_empty _ _ S)|].
  destruct (match_mime header) as [mime|] eqn:M; [|reflexivity].
  destruct mime as [|c m]; [reflexivity|].
  exfalso. destruct (match_mime_sound _ _ M) as (pre & post & E).
  apply (Hpair pre (String c m) post); [discriminate|exact E].
Qed.

(** C10. A data URL with a comma whose part before the first comma holds no
    non-empty text between a [:] and a later [;] is rejected by
    [dataURLtoFile] with the MIME-extraction error, before its payload is
    decoded; [fileToPart] rejects a file that reads as such a URL with the
    same error. *)
Theorem data_url_without_mime_rejected (header tail filename : string) :
  has_char "," header = false ->
  (forall pre mime post : string,
      mime <> EmptyString -> header <> pre ++ ":" ++ mime ++ ";" ++ post) ->
  dataURLtoFile B (header ++ "," ++ tail) filename = Err no_mime_type
  /\ (forall file : File,
        readAsDataURL B file = Some (header ++ "," ++ tail) ->
        fileToPart B file = Err no_mime_type).
Proof.
  intros Hcomma Hpair.
  pose proof (parse_data_url_no_mime header tail Hcomma Hpair) as P.
  split.
  - unfold dataURLtoFile. now rewrite P.
  - intros file Hread. unfold fileToPart. now rewrite Hread, P.
Qed.

End DataUrl.

(** The example of a header with a comma and no semicolon. *)
Lemma data_url_without_mime_rejected_witness :
  dataURLtoFile (test_browser (num := float) (fun _ => Err "no service"))
    "data:image/jpeg,AAAA" "scene.jpeg"
  = Err no_mime_type.
Proof.
  apply (data_url_without_mime_rejected
           (test_browser (num := float) (fun _ => Err "no service"))
           "data:image/jpeg" "AAAA" "scene.jpeg").
  - reflexivity.
  - intros pre mime post _. apply no_semicolon_no_pair. reflexivity.
Defined.

(** The other rejections, a payload that is not Base64, and two accepted
    URLs: the type of the file is in lower case. *)
Example dataURLtoFile_examples :
  let B := test_browser (num := float) (fun _ => Err "no service") in
  dataURLtoFile B "image/jpeg;base64" "f" = Err invalid_data_url
  /\ dataURLtoFile B "data:;base64,QUFB" "f" = Err no_mime_type
  /\ dataURLtoFile B "data:image/png;base64,undefined" "f" = Err "InvalidCharacterError"
  /\ dataURLtoFile B "data:image/png;base64,QUFB" "f"
     = Ok {| file_name := "f"; file_type := "image/png"; file_content := RawBytes "AAA" |}
  /\ dataURLtoFile B "data:IMAGE/PNG;base64,QUFB" "f"
     = Ok {| file_name := "f"; file_type := "image/png"; file_content := RawBytes "AAA" |}.
Proof.
  cbv zeta. split; [vm_compute; reflexivity|]. split; [vm_compute; reflexivity|].
  split; [vm_compute; reflexivity|]. split; vm_compute; reflexivity.
Qed.

(** ** Rotation *)

Lemma app_one_neq {A} (l : list A) (x : A) : l <> (l ++ [x])%list.
Proof.
  intro E. apply (f_equal (@List.length A)) in E.
  rewrite length_app in E. simpl in E. lia.
Qed.

Section Rotation.
Context {num : Type} {NUM : JsNumber num}.
Variable B : browser (num := num).

(** C9. With a key, a product that resizes and a resized product that
    encodes, [rotateProductImage] sends one request, the resized product and
    the rotation prompt, to the image model, and its outcome is decided by
    the answer: a failed call fails the run with its error, an answer
    without inline image fails it with the fixed message, and an answer with
    one gives what [dataURLtoFile] makes of the generated data URL under the
    new name.  A file is returned only from such an image, and bears that
    name: ["rotated-"], the hyphenated description, a hyphen and the name of
    the product file.  The hyphenated description is given by two laws: text
    without white space is kept, up to the first run of white space, which
    becomes one hyphen, whatever its length and its characters, and so on
    after it; no white space is left in it. *)
Theorem rotateProductImage_outcome
  (productImage resized : File) (rotationDescription key : string) (part : Part)
  (log : list request) :
  getApiKey B = Ok key ->
  resizeImage B productImage MAX_DIMENSION = Ok resized ->
  fileToPart B resized = Ok part ->
  let req := {| model := "gemini-2.5-flash-image";
                contents := [part; textPart (rotationPrompt rotationDescription)] |} in
  let newFileName :=
    "rotated-" ++ replace_whitespace rotationDescription ++ "-" ++ file_name productImage in
  let run := rotateProductImage B productImage rotationDescription log in
  snd run = (log ++ [req])%list
  /\ match ai_generateContent B key log req with
     | Err e => fst run = Err e
     | Ok response =>
         match inlineData_of (imagePartFromResponse response) with
         | None => fst run = Err rotation_no_image
         | Some d =>
             fst run
             = dataURLtoFile B
                 ("data:" ++ interpolate (mimeType d) ++ ";base64," ++ interpolate (data d))
                 newFileName
         end
     end
  /\ (forall f, fst run = Ok f ->
        file_name f = newFileName
        /\ exists response d payload bytes,
             ai_generateContent B key log req = Ok response
             /\ inlineData_of (imagePartFromResponse response) = Some d
             /\ atob B payload = Some bytes
             /\ file_content f = RawBytes bytes)
  /\ (forall text, has_whitespace text = false -> replace_whitespace text = text)
  /\ (forall text run_of_spaces rest,
        has_whitespace text = false ->
        blank run_of_spaces -> run_of_spaces <> EmptyString ->
        after_whitespace rest = None ->
        replace_whitespace (text ++ run_of_spaces ++ rest)
        = text ++ "-" ++ replace_whitespace rest)
  /\ has_whitespace (replace_whitespace rotationDescription) = false.
Proof.
  intros Hkey Hres Hpart req newFileName run.
  assert (Hrun : run = match ai_generateContent B key log req with
                       | Err e => (Err e, (log ++ [req])%list)
                       | Ok response =>
                           match inlineData_of (imagePartFromResponse response) with
                           | None => (Err rotation_no_image, (log ++ [req])%list)
                           | Some d =>
                               (dataURLtoFile B
                                  ("data:" ++ interpolate (mimeType d) ++ ";base64,"
                                   ++ interpolate (data d)) newFileName,
                                (log ++ [req])%list)
                           end
                       end).
  { unfold run, rotateProductImage, bind, await, generateContent.
    rewrite Hkey, Hres, Hpart. fold req.
    destruct (ai_generateContent B key log req) as [response|e]; [|reflexivity].
    destruct (inlineData_of (imagePartFromResponse response)) as [[mt dt]|]; reflexivity. }
  split; [|split; [|split; [|split; [exact replace_whitespace_unchanged|
                                     split; [exact replace_whitespace_law|
                                             apply replace_whitespace_clean]]]]].
  - rewrite Hrun. destruct (ai_generateContent B key log req) as [response|e]; [|reflexivity].
    destruct (inlineData_of (imagePartFromResponse response)); reflexivity.
  - rewrite Hrun. destruct (ai_generateContent B key log req) as [response|e]; [|reflexivity].
    destruct (inlineData_of (imagePartFromResponse response)); reflexivity.
  - rewrite Hrun. intros f.
    destruct (ai_generateContent B key log req) as [response|e] eqn:Hai; [|discriminate].
    destruct (inlineData_of (imagePartFromResponse response)) as [d|] eqn:Hd;
      [|discriminate].
    cbn [fst]. unfold dataURLtoFile.
    destruct (parse_data_url _) as [[mime payload]|]; [|discriminate].
    destruct (atob B payload) as [bytes|] eqn:A; [|discriminate].
    intros [= <-]. split; [reflexivity|].
    exists response, d, payload, bytes.
    split; [reflexivity|]. split; [exact Hd|]. split; [exact A|reflexivity].
Qed.

End Rotation.

(** The request for a back view of the product, answered with an image. *)
Lemma rotateProductImage_outcome_witness :
  let N := Binary64 in
  let B := test_browser (fun _ => Ok image_response) in
  let run := rotateProductImage B product_file ("back " ++ utf8 160 ++ "view") [] in
  fst run = Ok {| file_name := "rotated-back-view-product.png";
                  file_type := "image/png";
                  file_content := RawBytes "GENERATED" |}
  /\ List.length (snd run) = 1%nat.
Proof.
  intros N B run.
  destruct (rotateProductImage_outcome B product_file
              {| file_name := "product.png"; file_type := "image/jpeg";
                 file_content :=
                   CanvasBlob (resizeImage_canvas product_image MAX_DIMENSION)
                     "image/jpeg" (decimal 95 100) |}
              ("back " ++ utf8 160 ++ "view") "test-key"
              (inlinePart {| mimeType := Some "image/jpeg"; data := Some canvas_data |})
              [])
    as (Hlog & Hout & _).
  - reflexivity.
  - vm_compute. reflexivity.
  - reflexivity.
  - fold run in Hlog, Hout. split.
    + cbn [ai_generateContent test_browser] in Hout.
      change (inlineData_of (imagePartFromResponse image_response))
        with (Some {| mimeType := Some "image/png"; data := Some generated_data |}) in Hout.
      rewrite Hout. vm_compute. reflexivity.
    + rewrite Hlog. reflexivity.
Defined.

(** The same run, computed. *)
Example rotateProductImage_back_view :
  let B := test_browser (num := float) (fun _ => Ok image_response) in
  let run := rotateProductImage (NUM := Binary64) B product_file "back view" [] in
  fst run = Ok {| file_name := "rotated-back-view-product.png";
                  file_type := "image/png";
                  file_content := RawBytes "GENERATED" |}
  /\ List.length (snd run) = 1%nat.
Proof. cbv zeta. split; vm_compute; reflexivity. Qed.

(** The same request answered with text only, and not answered. *)
Example rotateProductImage_no_image :
  let run (answer : result GenerateContentResponse) :=
    rotateProductImage (NUM := Binary64) (test_browser (fun _ => answer))
      product_file "back view" [] in
  fst (run (Ok (text_response "I cannot do that."))) = Err rotation_no_image
  /\ fst (run (Err "network error")) = Err "network error".
Proof. cbv zeta. split; vm_compute; reflexivity. Qed.

(** ** Composition *)


Lemma compositePrompt_contains_lighting (location : option string) (lighting shadow custom : string) :
  contains (compositePrompt location (Some lighting) shadow custom) lighting.
Proof.
  exists (prompt_text0 ++ interpolate location ++ prompt_text1).
  exists (prompt_text2 ++ shadow ++ prompt_text3 ++ custom ++ prompt_text4).
  unfold compositePrompt. cbn [interpolate].
  now rewrite !string_app_assoc.
Qed.

Lemma compositePrompt_contains_location (location : string) (lighting : option string)
  (shadow custom : string) :
  contains (compositePrompt (Some location) lighting shadow custom) location.
Proof.
  exists prompt_text0.
  exists (prompt_text1 ++ interpolate lighting ++ prompt_text2 ++ shadow
          ++ prompt_text3 ++ custom ++ prompt_text4).
  reflexivity.
Qed.

Section Composite.
Context {num : Type} {NUM : JsNumber num}.
Variable B : browser (num := num).

Lemma fileToPart_fileToDataUrl (file : File) (p : Part) :
  fileToPart B file = Ok p -> exists url, fileToDataUrl B file = Ok url.
Proof.
  unfold fileToPart, fileToDataUrl.
  destruct (readAsDataURL B file) as [url|]; [|discriminate].
  intros _. exists url. reflexivity.
Qed.

(** The run, once the steps that ask nothing of the AI service have
    succeeded. *)
Lemma generateCompositeImage_prepared
  (objectImage : File) (objectDescription : string)
  (environmentImage : File) (environmentDescription : string)
  (dropPosition : position_t) (customInstructions : string) (shadowIntensity : num)
  (log : list request)
  (key : string) (w h : num) (ro re marked : File) (po pe pm : Part)
  (markedUrl productUrl sceneUrl : string) :
  getApiKey B = Ok key ->
  getImageDimensions B environmentImage = Ok (w, h) ->
  resizeImage B objectImage MAX_DIMENSION = Ok ro ->
  resizeImage B environmentImage MAX_DIMENSION = Ok re ->
  markImage B re dropPosition {| originalWidth := w; originalHeight := h |} = Ok marked ->
  fileToPart B ro = Ok po -> fileToPart B re = Ok pe -> fileToPart B marked = Ok pm ->
  fileToDataUrl B marked = Ok markedUrl ->
  fileToDataUrl B ro = Ok productUrl ->
  fileToDataUrl B re = Ok sceneUrl ->
  let lightingRequest :=
    {| model := "gemini-2.5-flash-lite"; contents := [textPart lightingPrompt; pe] |} in
  let lightingDescription :=
    match ai_generateContent B key log lightingRequest with
    | Ok response => response_text response
    | Err _ => Some lighting_fallback
    end in
  let locationRequest :=
    {| model := "gemini-2.5-flash-lite"; contents := [textPart descriptionPrompt; pm] |} in
  let semanticLocationDescription :=
    match ai_generateContent B key (log ++ [lightingRequest])%list locationRequest with
    | Ok response => response_text response
    | Err _ => Some location_fallback
    end in
  let prompt :=
    compositePrompt semanticLocationDescription lightingDescription
      (getShadowDescription shadowIntensity) (customInstructionsPart customInstructions) in
  let synthesisRequest :=
    {| model := "gemini-2.5-flash-image"; contents := [po; pe; textPart prompt] |} in
  generateCompositeImage B objectImage objectDescription environmentImage
    environmentDescription dropPosition customInstructions shadowIntensity log
  = (match ai_generateContent B key (log ++ [lightingRequest; locationRequest])%list
             synthesisRequest with
     | Err e => Err e
     | Ok response =>
         match inlineData_of (imagePartFromResponse response) with
         | None => Err composite_no_image
         | Some d =>
             match data d with
             | None => Err data_undefined_error
             | Some payload =>
                 match cropToOriginalAspectRatio B
                         ("data:" ++ interpolate (mimeType d) ++ ";base64," ++ payload)
                         w h MAX_DIMENSION with
                 | Ok url =>
                     Ok {| finalImageUrl := url;
                           debugInfo := {| markedSceneUrl := markedUrl;
                                           resizedProductUrl := productUrl;
                                           resizedSceneUrl := sceneUrl;
                                           finalPrompt := prompt |} |}
                 | Err e => Err e
                 end
             end
         end
     end,
     (log ++ [lightingRequest; locationRequest; synthesisRequest])%list).
Proof.
  intros Hkey Hdim Hro Hre Hmk Hpo Hpe Hpm Hu1 Hu2 Hu3.
  intros lightingRequest lightingDescription locationRequest
    semanticLocationDescription prompt synthesisRequest.
  unfold generateCompositeImage.
  unfold bind, await, ret, try_catch, generateContent.
  rewrite Hkey, Hdim, Hro, Hre, Hpe.
  fold lightingRequest.
  unfold prompt, synthesisRequest, semanticLocationDescription, lightingDescription.
  fold lightingRequest.
  destruct (ai_generateContent B key log lightingRequest) as [r1|e1];
    rewrite Hmk, Hu1, Hu2, Hu3, Hpm; fold locationRequest;
    (destruct (ai_generateContent B key (log ++ [lightingRequest])%list locationRequest)
       as [r2|e2]);
    rewrite Hpo; rewrite <- !app_assoc; cbn [app];
    (destruct (ai_generateContent B key _ _) as [r3|e3]; [|reflexivity]);
    (destruct (inlineData_of (imagePartFromResponse r3)) as [[mt [dt|]]|];
       [|reflexivity|reflexivity]);
    cbn [data mimeType];
    (destruct (cropToOriginalAspectRatio B _ w h MAX_DIMENSION); reflexivity).
Qed.


(** C5. Suppose the steps that ask nothing of the AI service succeed: the
    key, the dimensions, the two resizes, the marking and the encodings of the
    three images.  Then the run makes exactly three requests, one for the
    lighting, one for the location and one for the synthesis, each once: a
    failed analysis call is not made again.  The lighting and the location
    that enter the synthesis prompt are the texts of the answers, or the fixed
    fallback sentence and the fixed fallback phrase when the call failed, in
    which case the prompt holds the fallback character for character.  And
    whatever became of the two analysis calls, when the synthesis answer has
    an inline image and its crop-back succeeds, the run returns that result,
    with the prompt in its debug information. *)
Theorem generateCompositeImage_analysis_fallback
  (objectImage : File) (objectDescription : string)
  (environmentImage : File) (environmentDescription : string)
  (dropPosition : position_t) (customInstructions : string) (shadowIntensity : num)
  (log : list request)
  (key : string) (w h : num) (ro re marked : File) (po pe pm : Part) :
  getApiKey B = Ok key ->
  getImageDimensions B environmentImage = Ok (w, h) ->
  resizeImage B objectImage MAX_DIMENSION = Ok ro ->
  resizeImage B environmentImage MAX_DIMENSION = Ok re ->
  markImage B re dropPosition {| originalWidth := w; originalHeight := h |} = Ok marked ->
  fileToPart B ro = Ok po -> fileToPart B re = Ok pe -> fileToPart B marked = Ok pm ->
  let lightingRequest :=
    {| model := "gemini-2.5-flash-lite"; contents := [textPart lightingPrompt; pe] |} in
  let lighting := ai_generateContent B key log lightingRequest in
  let lightingDescription :=
    match lighting with
    | Ok response => response_text response
    | Err _ => Some lighting_fallback
    end in
  let locationRequest :=
    {| model := "gemini-2.5-flash-lite"; contents := [textPart descriptionPrompt; pm] |} in
  let location := ai_generateContent B key (log ++ [lightingRequest])%list locationRequest in
  let semanticLocationDescription :=
    match location with
    | Ok response => response_text response
    | Err _ => Some location_fallback
    end in
  let prompt :=
    compositePrompt semanticLocationDescription lightingDescription
      (getShadowDescription shadowIntensity) (customInstructionsPart customInstructions) in
  let synthesisRequest :=
    {| model := "gemini-2.5-flash-image"; contents := [po; pe; textPart prompt] |} in
  let run := generateCompositeImage B objectImage objectDescription environmentImage
               environmentDescription dropPosition customInstructions shadowIntensity log in
  snd run = (log ++ [lightingRequest; locationRequest; synthesisRequest])%list
  /\ (forall e, lighting = Err e -> contains prompt lighting_fallback)
  /\ (forall e, location = Err e -> contains prompt location_fallback)
  /\ (forall response mimeType data url,
        ai_generateContent B key (log ++ [lightingRequest; locationRequest])%list
          synthesisRequest = Ok response ->
        inlineData_of (imagePartFromResponse response)
        = Some {| mimeType := mimeType; data := Some data |} ->
        cropToOriginalAspectRatio B ("data:" ++ interpolate mimeType ++ ";base64," ++ data)
          w h MAX_DIMENSION = Ok url ->
        exists debug,
          fst run = Ok {| finalImageUrl := url; debugInfo := debug |}
          /\ finalPrompt debug = prompt).
Proof.
  intros Hkey Hdim Hro Hre Hmk Hpo Hpe Hpm.
  intros lightingRequest lighting lightingDescription locationRequest location
    semanticLocationDescription prompt synthesisRequest run.
  destruct (fileToPart_fileToDataUrl _ _ Hpo) as [u2 Hu2].
  destruct (fileToPart_fileToDataUrl _ _ Hpe) as [u3 Hu3].
  destruct (fileToPart_fileToDataUrl _ _ Hpm) as [u1 Hu1].
  pose proof (generateCompositeImage_prepared objectImage objectDescription
                environmentImage environmentDescription dropPosition customInstructions
                shadowIntensity log key w h ro re marked po pe pm u1 u2 u3
                Hkey Hdim Hro Hre Hmk Hpo Hpe Hpm Hu1 Hu2 Hu3) as Hrun.
  cbv zeta in Hrun. fold lightingRequest in Hrun. fold lighting in Hrun.
  fold lightingDescription in Hrun.
  fold locationRequest in Hrun. fold location in Hrun.
  fold semanticLocationDescription in Hrun.
  fold prompt in Hrun. fold synthesisRequest in Hrun. fold run in Hrun.
  rewrite Hrun. cbn [fst snd].
  split; [reflexivity|].
  split.
  { intros e He. unfold prompt, lightingDescription. rewrite He.
    apply compositePrompt_contains_lighting. }
  split.
  { intros e He. unfold prompt, semanticLocationDescription. rewrite He.
    apply compositePrompt_contains_location. }
  intros response mt dt url Hai Himg Hcrop.
  rewrite Hai, Himg. cbn [data mimeType]. rewrite Hcrop. eexists. split; reflexivity.
Qed.

End Composite.



(** The scene and the product with the analysis model down. *)
Lemma generateCompositeImage_analysis_fallback_witness :
  let N := Binary64 in
  let B := test_browser analysis_down in
  let run := generateCompositeImage B product_file "product.png" scene_file "scene.jpeg"
               {| xPercent := of_Z 50; yPercent := of_Z 50 |} EmptyString (of_Z 50) [] in
  List.length (snd run) = 3%nat
  /\ exists debug,
       fst run = Ok {| finalImageUrl := cropped_url;
                      debugInfo := debug |}
       /\ contains (finalPrompt debug) lighting_fallback
       /\ contains (finalPrompt debug) location_fallback.
Proof.
  intros N B run.
  set (position := {| xPercent := of_Z 50; yPercent := of_Z 50 |}).
  set (dims := {| originalWidth := of_Z 800; originalHeight := of_Z 600 |}).
  set (canvas_part := inlinePart {| mimeType := Some "image/jpeg"; data := Some canvas_data |}).
  assert (Hkey : getApiKey B = Ok "test-key") by (vm_compute; reflexivity).
  assert (Hdim : getImageDimensions B scene_file = Ok (of_Z 800, of_Z 600))
    by (vm_compute; reflexivity).
  assert (Hro : resizeImage B product_file MAX_DIMENSION
                = Ok {| file_name := "product.png"; file_type := "image/jpeg";
                        file_content :=
                          CanvasBlob (resizeImage_canvas product_image MAX_DIMENSION)
                            "image/jpeg" (decimal 95 100) |})
    by (vm_compute; reflexivity).
  assert (Hre : resizeImage B scene_file MAX_DIMENSION
                = Ok {| file_name := "scene.jpeg"; file_type := "image/jpeg";
                        file_content :=
                          CanvasBlob (resizeImage_canvas scene_image MAX_DIMENSION)
                            "image/jpeg" (decimal 95 100) |})
    by (vm_compute; reflexivity).
  assert (Hmk : markImage B
                  {| file_name := "scene.jpeg"; file_type := "image/jpeg";
                     file_content :=
                       CanvasBlob (resizeImage_canvas scene_image MAX_DIMENSION)
                         "image/jpeg" (decimal 95 100) |} position dims
                = Ok {| file_name := "marked-scene.jpeg"; file_type := "image/jpeg";
                        file_content :=
                          CanvasBlob
                            (markImage_canvas
                               (square_image canvas_url)
                               position dims)
                            "image/jpeg" (decimal 95 100) |})
    by (vm_compute; reflexivity).
  destruct (generateCompositeImage_analysis_fallback B
              product_file "product.png" scene_file "scene.jpeg"
              position EmptyString (of_Z 50) [] "test-key" (of_Z 800) (of_Z 600)
              _ _ _ canvas_part canvas_part canvas_part
              Hkey Hdim Hro Hre Hmk eq_refl eq_refl eq_refl)
    as (Hlog & Hlight & Hloc & Hdone).
  unfold run. fold position.
  split; [rewrite Hlog; reflexivity|].
  destruct (Hdone image_response (Some "image/png") generated_data cropped_url)
    as (debug & Hrun & Hprompt); try reflexivity.
  exists debug. split; [exact Hrun|]. rewrite Hprompt. split.
  - exact (Hlight "network error" eq_refl).
  - exact (Hloc "network error" eq_refl).
Defined.

(** The complete run on the scene of 800 by 600 pixels and the product of 400
    by 400, dropped at the centre with shadow intensity 50 and no custom
    instructions. *)
Example generateCompositeImage_complete :
  let N := Binary64 in
  let B := test_browser all_answered in
  let run := generateCompositeImage B product_file "product.png" scene_file "scene.jpeg"
               {| xPercent := of_Z 50; yPercent := of_Z 50 |} EmptyString (of_Z 50) [] in
  fst run
  = Ok {| finalImageUrl := cropped_url;
          debugInfo :=
            {| markedSceneUrl := canvas_url;
               resizedProductUrl := canvas_url;
               resizedSceneUrl := canvas_url;
               finalPrompt :=
                 compositePrompt
                   (Some "The product location is on the wooden floor.")
                   (Some "Soft daylight comes from a window on the left.")
                   "normal and realistic" EmptyString |} |}
  /\ map model (snd run)
     = ["gemini-2.5-flash-lite"; "gemini-2.5-flash-lite"; "gemini-2.5-flash-image"].
Proof. cbv zeta. split; vm_compute; reflexivity. Qed.

(** The image model answers with text only: the run fails, after its three
    requests. *)
Example generateCompositeImage_no_image :
  let N := Binary64 in
  let B := test_browser image_refused in
  let run := generateCompositeImage B product_file "product.png" scene_file "scene.jpeg"
               {| xPercent := of_Z 50; yPercent := of_Z 50 |} EmptyString (of_Z 50) [] in
  fst run = Err composite_no_image /\ List.length (snd run) = 3%nat.
Proof. cbv zeta. split; vm_compute; reflexivity. Qed.

(** * Further properties *)

(** ** The API key *)

Definition missing_api_key : string :=
  "La clave API (API_KEY) no está configurada. Por favor, asegúrate de añadir tu clave de Gemini en el entorno de despliegue o archivo .env.".

(** A browser whose environment lacks the key. *)
Definition without_key {num : Type} (B : browser (num := num)) : browser (num := num) :=
  {| env_API_KEY := None;
     readAsDataURL := readAsDataURL B;
     loadImage := loadImage B;
     getContext2d := getContext2d B;
     toBlob_succeeds := toBlob_succeeds B;
     toDataURL := toDataURL B;
     atob := atob B;
     ai_generateContent := ai_generateContent B |}.

Lemma is_empty_true (s : string) : is_empty s = true <-> s = EmptyString.
Proof. destruct s; simpl; split; congruence. Qed.

Section ApiKey.
Context {num : Type} {NUM : JsNumber num}.
Variable B : browser (num := num).

Lemma getApiKey_missing :
  let raw := match env_API_KEY B with Some k => k | None => EmptyString end in
  blank raw \/ trim raw = "undefined" -> getApiKey B = Err missing_api_key.
Proof.
  intros raw H. unfold getApiKey. fold raw.
  destruct (is_empty (trim raw)) eqn:E; [reflexivity|]. cbn [orb].
  destruct H as [H|H].
  - apply trim_empty_iff in H. rewrite H in E. discriminate.
  - rewrite H. reflexivity.
Qed.

(** X1. [getApiKey] reads the key of the environment (the empty string when
    there is none) and trims it.  A key that is blank, or that trims to the
    word [undefined], is refused with the configuration message; every other
    key is returned trimmed.  A key that is returned is what is left of the
    key of the environment between the white space at its two ends: it
    neither starts nor ends with a white space character, it is not empty and
    it is not the word [undefined]. *)
Theorem getApiKey_outcome :
  let raw := match env_API_KEY B with Some k => k | None => EmptyString end in
  (blank raw \/ trim raw = "undefined" -> getApiKey B = Err missing_api_key)
  /\ (~ blank raw -> trim raw <> "undefined" -> getApiKey B = Ok (trim raw))
  /\ (forall key, getApiKey B = Ok key ->
        (exists before after, raw = before ++ key ++ after /\ blank before /\ blank after)
        /\ (forall w rest, In w whitespace -> key <> w ++ rest)
        /\ (forall rest w, In w whitespace -> key <> rest ++ w)
        /\ key <> EmptyString /\ key <> "undefined").
Proof.
  intro raw. split; [exact getApiKey_missing|].
  unfold getApiKey. fold raw.
  destruct (is_empty (trim raw)) eqn:E.
  - apply is_empty_true in E. cbn [orb]. split.
    + intros H. apply trim_empty_iff in E. contradiction.
    + intros key [=].
  - cbn [orb]. destruct (String.eqb (trim raw) "undefined") eqn:U.
    + split.
      * intros _ H. apply String.eqb_eq in U. contradiction.
      * intros key [=].
    + apply String.eqb_neq in U.
      split; [reflexivity|]. intros key [= <-].
      destruct (trim_spec raw) as (Hsplit & Hstart & Hend).
      split; [exact Hsplit|]. split; [exact Hstart|]. split; [exact Hend|].
      split; [|exact U].
      intro H. rewrite H in E. discriminate.
Qed.

(** X2. Without a usable key (none in the environment, a blank one, or one
    that trims to the word [undefined]) both orchestrators fail with the
    configuration message before anything else happens: no request is made,
    the log of requests is left as it was. *)
Theorem missing_key_no_request
  (objectImage : File) (objectDescription : string)
  (environmentImage : File) (environmentDescription : string)
  (dropPosition : position_t) (customInstructions : string) (shadowIntensity : num)
  (rotationDescription : string) (log : list request) :
  (env_API_KEY B = None
   \/ exists k, env_API_KEY B = Some k /\ (blank k \/ trim k = "undefined")) ->
  generateCompositeImage B objectImage objectDescription environmentImage
    environmentDescription dropPosition customInstructions shadowIntensity log
  = (Err missing_api_key, log)
  /\ rotateProductImage B objectImage rotationDescription log = (Err missing_api_key, log).
Proof.
  intro H.
  assert (K : getApiKey B = Err missing_api_key).
  { apply getApiKey_missing.
    destruct H as [-> | (k & -> & H)]; [left; constructor|exact H]. }
  unfold generateCompositeImage, rotateProductImage, bind, await.
  rewrite K. split; reflexivity.
Qed.

End ApiKey.

(** A key padded with a no-break space and a line separator. *)
Example getApiKey_unicode :
  let B (k : string) :=
    {| env_API_KEY := Some k;
       readAsDataURL := readAsDataURL (test_browser (num := float) all_answered);
       loadImage := loadImage (test_browser (num := float) all_answered);
       getContext2d := getContext2d (test_browser (num := float) all_answered);
       toBlob_succeeds := toBlob_succeeds (test_browser (num := float) all_answered);
       toDataURL := toDataURL (test_browser (num := float) all_answered);
       atob := atob (test_browser (num := float) all_answered);
       ai_generateContent := ai_generateContent (test_browser (num := float) all_answered) |} in
  getApiKey (B (utf8 160 ++ "AIza key" ++ utf8 8232)) = Ok "AIza key"
  /\ getApiKey (B (utf8 160 ++ " " ++ utf8 65279)) = Err missing_api_key
  /\ getApiKey (B " undefined ") = Err missing_api_key.
Proof. cbv zeta. split; [|split]; vm_compute; reflexivity. Qed.

(** The test browser with its key removed. *)
Lemma missing_key_no_request_witness :
  let B := without_key (test_browser (num := float) all_answered) in
  fst (generateCompositeImage (NUM := Binary64) B product_file "product.png" scene_file
         "scene.jpeg" {| xPercent := float_of_Z 50; yPercent := float_of_Z 50 |}
         EmptyString (float_of_Z 50) [])
  = Err missing_api_key.
Proof.
  intro B.
  destruct (missing_key_no_request (NUM := Binary64) B product_file "product.png" scene_file
              "scene.jpeg" {| xPercent := float_of_Z 50; yPercent := float_of_Z 50 |}
              EmptyString (float_of_Z 50) "back view" []) as [H _].
  - left. reflexivity.
  - rewrite H. reflexivity.
Defined.

(** ** Data URLs that are accepted *)

(** The text before the first comma. *)
Fixpoint up_to_comma (s : string) : string :=
  match s with
  | EmptyString => EmptyString
  | String c rest => if Ascii.eqb c "," then EmptyString else String c (up_to_comma rest)
  end.

(** The shape of a data URL with the MIME type [mime] and the payload
    [payload]: a header without comma that holds [:mime;] with a MIME type
    that is not empty and has neither semicolon nor line terminator, then a
    comma and the payload, which ends the URL or is followed by another
    comma. *)
Definition data_url_shape (url mime payload : string) : Prop :=
  mime <> EmptyString
  /\ has_char ";" mime = false /\ has_char "," mime = false
  /\ has_line_terminator mime = false
  /\ has_char "," payload = false
  /\ exists pre post rest,
       url = (pre ++ ":" ++ mime ++ ";" ++ post) ++ "," ++ payload ++ rest
       /\ has_char "," pre = false /\ has_char "," post = false
       /\ (rest = EmptyString \/ exists rest', rest = "," ++ rest').

Lemma split_first (s : string) : exists rest, split "," s = up_to_comma s :: rest.
Proof.
  induction s as [|c r IH]; simpl.
  - exists []. reflexivity.
  - destruct (Ascii.eqb c ","); [eexists; reflexivity|].
    destruct IH as [rest ->]. eexists. reflexivity.
Qed.

Lemma up_to_comma_no_comma (s : string) : has_char "," s = false -> up_to_comma s = s.
Proof.
  induction s as [|c r IH]; simpl; [reflexivity|].
  intro H. apply orb_false_iff in H. destruct H as [Hc Hr].
  rewrite Hc, (IH Hr). reflexivity.
Qed.

Lemma after_line_terminator_complete (t r : string) :
  In t line_terminators -> after_line_terminator (t ++ r) = Some r.
Proof. apply strip_first_complete. exact line_terminators_prefix_free. Qed.

(** No line terminator holds a semicolon: one that starts in a text ends in
    it when a semicolon follows the text. *)
Lemma after_line_terminator_semicolon (x y : string) :
  x <> EmptyString -> after_line_terminator x = None ->
  after_line_terminator (x ++ ";" ++ y) = None.
Proof.
  intros Hx Hn.
  destruct (after_line_terminator (x ++ ";" ++ y)) as [r|] eqn:E; [|reflexivity].
  exfalso. destruct (strip_first_sound _ _ _ E) as (t & Ht & H).
  destruct (app_eq_app_split _ _ _ _ H) as [(u & Hu)|(c & u & Htx & Hy)].
  - exact (strip_first_none _ _ Hn t u Ht Hu).
  - simpl in Hy. injection Hy as <- _.
    assert (S : has_char ";" t = true) by (rewrite Htx; apply has_char_middle).
    revert Ht S. clear. unfold line_terminators. simpl.
    repeat (intros [<-|H]; [vm_compute; discriminate|revert H]). intros [].
Qed.

Lemma lazy_group_semicolon_complete (mime rest : string) :
  has_char ";" mime = false -> has_line_terminator mime = false ->
  lazy_group_semicolon (mime ++ ";" ++ rest) = Some mime.
Proof.
  induction mime as [|c m IH]; intros Hs Hl.
  - reflexivity.
  - cbn [has_char] in Hs. cbn [has_line_terminator] in Hl.
    apply orb_false_iff in Hs. destruct Hs as [Hc Hm].
    apply orb_false_iff in Hl. destruct Hl as [Lc Lm].
    assert (N : after_line_terminator (String c m) = None)
      by (destruct (after_line_terminator (String c m)); [discriminate|reflexivity]).
    pose proof (after_line_terminator_semicolon (String c m) rest ltac:(discriminate) N) as L.
    change (String c m ++ ";" ++ rest) with (String c (m ++ ";" ++ rest)) in L |- *.
    cbn [lazy_group_semicolon]. rewrite L.
    rewrite Hc. cbn [is_some]. rewrite (IH Hm Lm). reflexivity.
Qed.

(** A data URL [data:<mime>;<parameters>,<tail>] parses to its MIME type and
    to its tail up to the next comma. *)
Lemma parse_data_url_shape (mime params tail : string) :
  mime <> EmptyString ->
  has_char ";" mime = false -> has_char "," mime = false ->
  has_line_terminator mime = false ->
  has_char "," params = false ->
  parse_data_url ("data:" ++ mime ++ ";" ++ params ++ "," ++ tail)
  = Ok (mime, up_to_comma tail).
Proof.
  intros Hne Hsemi Hcomma Hline Hparams. unfold parse_data_url.
  assert (E : "data:" ++ mime ++ ";" ++ params ++ "," ++ tail
              = ("data:" ++ mime ++ ";" ++ params) ++ "," ++ tail).
  { rewrite !string_app_assoc. reflexivity. }
  rewrite E, split_header.
  2:{ rewrite !has_char_app, Hcomma, Hparams. reflexivity. }
  destruct (split_first tail) as [rest ->].
  assert (M : match_mime ("data:" ++ mime ++ ";" ++ params) = Some mime).
  { pose proof (lazy_group_semicolon_complete mime params Hsemi Hline) as L.
    simpl in L. simpl. rewrite L. reflexivity. }
  rewrite M. destruct mime; [contradiction|reflexivity].
Qed.

Lemma split_cons (s h : string) (t : list string) :
  split "," s = h :: t ->
  has_char "," h = false
  /\ ((t = [] /\ s = h) \/ exists s', s = h ++ "," ++ s' /\ split "," s' = t).
Proof.
  revert h t. induction s as [|c rest IH]; intros h t H; simpl in H.
  - injection H as <- <-. split; [reflexivity|left; split; reflexivity].
  - destruct (Ascii.eqb c ",") eqn:E.
    + injection H as <- <-. apply Ascii.eqb_eq in E. subst c.
      split; [reflexivity|right; exists rest; split; reflexivity].
    + destruct (split "," rest) as [|h' t'] eqn:S;
        [exfalso; exact (split_never_empty _ _ S)|].
      injection H as <- <-.
      destruct (IH h' t' eq_refl) as [Hh Ht].
      split; [simpl; rewrite E, Hh; reflexivity|].
      destruct Ht as [[-> ->]|(s' & -> & Hs')].
      * left. split; reflexivity.
      * right. exists s'. split; [reflexivity|exact Hs'].
Qed.

Lemma lazy_group_semicolon_clean (s g : string) :
  lazy_group_semicolon s = Some g ->
  has_char ";" g = false /\ has_line_terminator g = false.
Proof.
  revert g. induction s as [|c rest IH]; intros g H; [discriminate|].
  cbn [lazy_group_semicolon] in H.
  destruct (Ascii.eqb c ";") eqn:E.
  - injection H as <-. split; reflexivity.
  - destruct (after_line_terminator (String c rest)) as [r|] eqn:L; [discriminate|].
    cbn [is_some] in H.
    destruct (lazy_group_semicolon rest) as [g'|] eqn:G; [|discriminate].
    injection H as <-. destruct (IH g' eq_refl) as [H1 H2].
    cbn [has_char has_line_terminator]. rewrite E, H1, H2.
    split; [reflexivity|]. rewrite orb_false_r.
    destruct (after_line_terminator (String c g')) as [r|] eqn:F; [|reflexivity].
    exfalso. destruct (strip_first_sound _ _ _ F) as (t & Ht & Hg).
    destruct (lazy_group_semicolon_sound _ _ G) as [post Hrest].
    assert (Hs : String c rest = t ++ (r ++ ";" ++ post)).
    { rewrite Hrest. change (String c (g' ++ ";" ++ post)) with (String c g' ++ ";" ++ post).
      rewrite Hg. apply string_app_assoc. }
    exact (strip_first_none _ _ L t _ Ht Hs).
Qed.

Lemma match_mime_clean (s g : string) :
  match_mime s = Some g ->
  has_char ";" g = false /\ has_line_terminator g = false.
Proof.
  induction s as [|c rest IH]; intro H; [discriminate|]. cbn [match_mime] in H.
  destruct (Ascii.eqb c ":").
  - destruct (lazy_group_semicolon rest) as [g'|] eqn:L.
    + injection H as <-. exact (lazy_group_semicolon_clean _ _ L).
    + exact (IH H).
  - exact (IH H).
Qed.

Lemma parse_data_url_sound (url mime payload : string) :
  parse_data_url url = Ok (mime, payload) -> data_url_shape url mime payload.
Proof.
  unfold parse_data_url.
  destruct (split "," url) as [|header [|payload' t]] eqn:S; try discriminate.
  destruct (match_mime header) as [m|] eqn:M; [|discriminate].
  destruct (is_empty m) eqn:E; [discriminate|].
  intros [= -> ->].
  destruct (split_cons _ _ _ S) as [Hh [[? _]|(s' & Hurl & S')]]; [discriminate|].
  destruct (split_cons _ _ _ S') as [Hp Hrest].
  destruct (match_mime_sound _ _ M) as (pre & post & Hheader).
  destruct (match_mime_clean _ _ M) as [Hsemi Hline].
  rewrite Hheader in Hh. rewrite !has_char_app in Hh.
  apply orb_false_iff in Hh. destruct Hh as [Hpre Hh].
  apply orb_false_iff in Hh. destruct Hh as [_ Hh].
  apply orb_false_iff in Hh. destruct Hh as [Hmime Hh].
  apply orb_false_iff in Hh. destruct Hh as [_ Hpost].
  unfold data_url_shape.
  split; [intros ->; discriminate|].
  do 4 (split; [assumption|]).
  destruct Hrest as [[_ ->]|(rest' & -> & _)].
  - exists pre, post, EmptyString. rewrite Hurl, Hheader, string_app_empty. auto.
  - exists pre, post, ("," ++ rest'). rewrite Hurl, Hheader.
    split; [reflexivity|]. split; [assumption|]. split; [assumption|].
    right. exists rest'. reflexivity.
Qed.

Section DataUrlAccepted.
Context {num : Type} {NUM : JsNumber num}.
Variable B : browser (num := num).

(** X3. A data URL built as [data:<mime>;<parameters>,<tail>], with a MIME
    type that is not empty and has no semicolon, comma or line terminator and
    parameters without comma, is accepted.  [dataURLtoFile] decodes the tail
    up to its first comma (the whole tail when it has none) and fails as the
    decoder does; otherwise it returns the decoded bytes under the given
    name, in a file whose type is the MIME type in lower case, or the empty
    string when the MIME type holds a character outside U+0020 to U+007E.
    [fileToPart] of a file that reads as this URL returns the MIME type as it
    is written, and that payload. *)
Theorem dataURLtoFile_of_built_url (mime params tail filename : string) :
  mime <> EmptyString ->
  has_char ";" mime = false -> has_char "," mime = false ->
  has_line_terminator mime = false ->
  has_char "," params = false ->
  let url := "data:" ++ mime ++ ";" ++ params ++ "," ++ tail in
  dataURLtoFile B url filename
  = match atob B (up_to_comma tail) with
    | Some bytes =>
        Ok {| file_name := filename;
              file_type := if all_chars printable mime then map_string lower mime
                           else EmptyString;
              file_content := RawBytes bytes |}
    | None => Err "InvalidCharacterError"
    end
  /\ (forall file, readAsDataURL B file = Some url ->
        fileToPart B file
        = Ok (inlinePart {| mimeType := Some mime; data := Some (up_to_comma tail) |}))
  /\ (has_char "," tail = false -> up_to_comma tail = tail).
Proof.
  intros Hne Hsemi Hcomma Hline Hparams url.
  pose proof (parse_data_url_shape mime params tail Hne Hsemi Hcomma Hline Hparams) as P.
  fold url in P.
  split; [|split].
  - unfold dataURLtoFile. rewrite P. reflexivity.
  - intros file Hread. unfold fileToPart. rewrite Hread, P. reflexivity.
  - apply up_to_comma_no_comma.
Qed.

(** X4. What acceptance guarantees.  A part that [fileToPart] returns carries
    a MIME type and a payload in which the URL read from the file has the
    shape [<pre>:<mime>;<post>,<payload>], alone or followed by a comma and
    more: the MIME type is not empty and has no semicolon, comma or line
    terminator, the payload has no comma.  A file that [dataURLtoFile]
    returns has the given name and the decoded payload of such a URL as its
    content; its type is the MIME type of the URL in lower case, or empty
    when that holds a character outside U+0020 to U+007E. *)
Theorem accepted_data_url_shape :
  (forall file part,
      fileToPart B file = Ok part ->
      exists url mime payload,
        readAsDataURL B file = Some url
        /\ part = inlinePart {| mimeType := Some mime; data := Some payload |}
        /\ data_url_shape url mime payload)
  /\ (forall dataurl filename f,
        dataURLtoFile B dataurl filename = Ok f ->
        file_name f = filename
        /\ exists mime payload bytes,
             data_url_shape dataurl mime payload
             /\ atob B payload = Some bytes
             /\ file_content f = RawBytes bytes
             /\ file_type f = (if all_chars printable mime then map_string lower mime
                               else EmptyString)).
Proof.
  split.
  - intros file part. unfold fileToPart.
    destruct (readAsDataURL B file) as [url|]; [|discriminate].
    destruct (parse_data_url url) as [[mime payload]|] eqn:P; [|discriminate].
    intros [= <-]. exists url, mime, payload.
    split; [reflexivity|]. split; [reflexivity|]. exact (parse_data_url_sound _ _ _ P).
  - intros dataurl filename f. unfold dataURLtoFile.
    destruct (parse_data_url dataurl) as [[mime payload]|] eqn:P; [|discriminate].
    destruct (atob B payload) as [bytes|] eqn:A; [|discriminate].
    intros [= <-]. split; [reflexivity|].
    exists mime, payload, bytes. split; [exact (parse_data_url_sound _ _ _ P)|].
    split; [exact A|]. split; reflexivity.
Qed.

End DataUrlAccepted.

(** The URL of a generated image, its MIME type in upper case. *)
Lemma dataURLtoFile_of_built_url_witness :
  let B := test_browser (num := Q) (fun _ => Err "no service") in
  dataURLtoFile B "data:IMAGE/PNG;base64,R0VORVJBVEVE" "rotated.png"
  = Ok {| file_name := "rotated.png"; file_type := "image/png";
          file_content := RawBytes "GENERATED" |}.
Proof.
  intro B.
  destruct (dataURLtoFile_of_built_url B "IMAGE/PNG" "base64" generated_data "rotated.png")
    as (H & _ & _); [discriminate|reflexivity..|].
  cbv zeta in H.
  change ("data:" ++ "IMAGE/PNG" ++ ";" ++ "base64" ++ "," ++ generated_data)
    with "data:IMAGE/PNG;base64,R0VORVJBVEVE" in H.
  rewrite H. vm_compute. reflexivity.
Defined.

(** A MIME type with a line separator is refused, and one with an accent
    gives a file without type. *)
Example dataURLtoFile_unicode :
  let B := test_browser (num := Q) (fun _ => Err "no service") in
  dataURLtoFile B ("data:image" ++ utf8 8232 ++ "/png;base64,QUFB") "f" = Err no_mime_type
  /\ dataURLtoFile B "data:imagé/png;base64,QUFB" "f"
     = Ok {| file_name := "f"; file_type := EmptyString; file_content := RawBytes "AAA" |}.
Proof. cbv zeta. split; vm_compute; reflexivity. Qed.

(** ** What the image helpers return *)

Definition getImageDimensions_errors : list string :=
  [ "Error del lector de archivos: [object ProgressEvent]";
    "Error al leer el archivo.";
    "Error al cargar la imagen: [object Event]" ].

Definition resizeImage_errors : list string :=
  [ "Error del lector de archivos: [object ProgressEvent]";
    "Error al leer el archivo.";
    "Error al cargar la imagen: [object Event]";
    "No se pudo obtener el contexto del canvas.";
    "La conversión de Canvas a Blob falló." ].

Definition crop_errors : list string :=
  [ "Error al cargar la imagen durante el recorte: [object Event]";
    "No se pudo obtener el contexto del canvas para recortar." ].

(** The errors of [fileToPart] and [fileToDataUrl]. *)
Definition encoding_errors : list string :=
  [ "[object ProgressEvent]"; invalid_data_url; no_mime_type ].

Definition has_inlineData (p : Part) : bool :=
  match inlineData p with Some _ => true | None => false end.

(** The parts of the first candidate, none when there is no candidate, no
    content or no part list. *)
Definition first_candidate_parts (response : GenerateContentResponse) : list Part :=
  match candidates response with
  | Some (first :: _) =>
      match content first with
      | Some c => match parts c with Some ps => ps | None => [] end
      | None => []
      end
  | _ => []
  end.

Lemma find_first {A} (f : A -> bool) (l : list A) (x : A) :
  find f l = Some x ->
  exists before after, l = (before ++ x :: after)%list /\ f x = true
                       /\ forallb (fun y => negb (f y)) before = true.
Proof.
  induction l as [|y l IH]; simpl; [discriminate|].
  destruct (f y) eqn:Fy.
  - intros [= <-]. exists [], l. auto.
  - intro H. destruct (IH H) as (before & after & -> & Fx & Hb).
    exists (y :: before), after. simpl. rewrite Fy. auto.
Qed.

Section Outcomes.
Context {num : Type} {NUM : JsNumber num}.
Variable B : browser (num := num).

Lemma read_and_load_fails (file : File) (a b c e : string) :
  read_and_load B file a b c = Err e ->
  In e [c ++ "[object ProgressEvent]"; a; b ++ "[object Event]"].
Proof.
  unfold read_and_load.
  destruct (readAsDataURL B file) as [url|]; [|intros [= <-]; simpl; tauto].
  destruct (is_empty url); [intros [= <-]; simpl; tauto|].
  destruct (loadImage B url); [discriminate|intros [= <-]; simpl; tauto].
Qed.

Lemma read_and_load_ok (file : File) (a b c : string) (img : image) :
  read_and_load B file a b c = Ok img -> decodes B file img.
Proof.
  unfold read_and_load.
  destruct (readAsDataURL B file) as [url|] eqn:Hr; [|discriminate].
  destruct (is_empty url) eqn:He; [discriminate|].
  destruct (loadImage B url) as [i|] eqn:Hl; [|discriminate].
  intros [= <-]. exists url. auto.
Qed.

Lemma getImageDimensions_fails (file : File) (e : string) :
  getImageDimensions B file = Err e -> In e getImageDimensions_errors.
Proof.
  unfold getImageDimensions.
  destruct (read_and_load B file _ _ _) eqn:R; [discriminate|].
  intros [= <-]. exact (read_and_load_fails _ _ _ _ _ R).
Qed.

Lemma resizeImage_fails (file : File) (targetDimension : num) (e : string) :
  resizeImage B file targetDimension = Err e -> In e resizeImage_errors.
Proof.
  unfold resizeImage.
  destruct (read_and_load B file _ _ _) eqn:R.
  - destruct (getContext2d B _ _); cbn [negb]; [|intros [= <-]; simpl; tauto].
    destruct (toBlob_succeeds B _); [discriminate|intros [= <-]; simpl; tauto].
  - intros [= <-]. apply read_and_load_fails in R.
    unfold resizeImage_errors. simpl in R |- *. tauto.
Qed.


Lemma parse_data_url_fails (url e : string) :
  parse_data_url url = Err e -> e = invalid_data_url \/ e = no_mime_type.
Proof.
  unfold parse_data_url.
  destruct (split "," url) as [|header [|payload t]]; try (intros [= <-]; auto).
  destruct (match_mime header) as [m|]; [|intros [= <-]; auto].
  destruct (is_empty m); [intros [= <-]; auto|discriminate].
Qed.

Lemma fileToPart_fails (file : File) (e : string) :
  fileToPart B file = Err e -> In e encoding_errors.
Proof.
  unfold fileToPart, encoding_errors.
  destruct (readAsDataURL B file) as [url|]; [|intros [= <-]; simpl; tauto].
  destruct (parse_data_url url) as [[mime payload]|] eqn:P; [discriminate|].
  intros [= <-]. destruct (parse_data_url_fails _ _ P) as [-> | ->]; simpl; tauto.
Qed.


Lemma crop_fails (url : string) (w h D : num) (e : string) :
  cropToOriginalAspectRatio B url w h D = Err e -> In e crop_errors.
Proof.
  unfold cropToOriginalAspectRatio, crop_errors.
  destruct (loadImage B url); [|intros [= <-]; simpl; tauto].
  destruct (getContext2d B _ _); cbn [negb]; [discriminate|intros [= <-]; simpl; tauto].
Qed.

(** X6. [getImageDimensions] returns the natural width and height of the
    image the file decodes to, and it returns them for every file that
    decodes; when it fails, it fails with one of the three messages of the
    file reader and the decoder. *)
Theorem getImageDimensions_outcome (file : File) :
  (forall e, getImageDimensions B file = Err e -> In e getImageDimensions_errors)
  /\ (forall width height,
        getImageDimensions B file = Ok (width, height) ->
        exists img,
          decodes B file img
          /\ width = of_Z (naturalWidth img) /\ height = of_Z (naturalHeight img))
  /\ (forall img,
        decodes B file img ->
        getImageDimensions B file = Ok (of_Z (naturalWidth img), of_Z (naturalHeight img))).
Proof.
  split; [exact (getImageDimensions_fails file)|]. split.
  - intros width height. unfold getImageDimensions.
    destruct (read_and_load B file _ _ _) as [img|] eqn:R; [|discriminate].
    intros [= <- <-]. exists img.
    split; [exact (read_and_load_ok _ _ _ _ _ R)|split; reflexivity].
  - intros img Hdec. unfold getImageDimensions.
    now rewrite (read_and_load_decodes B file img _ _ _ Hdec).
Qed.

(** X7. [resizeImage], whatever the target dimension.  When it fails, it
    fails with one of the five messages of the file reader, the decoder, the
    context and the encoder.  When it returns, the file keeps the name of the
    input, is a JPEG of quality 0.95, and holds the canvas painted for the
    image the input decodes to.  And it returns whenever the input decodes,
    the context is granted and the canvas encodes. *)
Theorem resizeImage_outcome (file : File) (targetDimension : num) :
  (forall e, resizeImage B file targetDimension = Err e -> In e resizeImage_errors)
  /\ (forall f, resizeImage B file targetDimension = Ok f ->
        exists img,
          decodes B file img
          /\ f = {| file_name := file_name file;
                    file_type := "image/jpeg";
                    file_content :=
                      CanvasBlob (resizeImage_canvas img targetDimension)
                        "image/jpeg" (decimal 95 100) |})
  /\ (forall img,
        decodes B file img ->
        let c := resizeImage_canvas img targetDimension in
        getContext2d B (cv_width c) (cv_height c) = true ->
        toBlob_succeeds B c = true ->
        is_ok (resizeImage B file targetDimension) = true).
Proof.
  split; [exact (resizeImage_fails file targetDimension)|].
  unfold resizeImage, read_and_load.
  split.
  - destruct (readAsDataURL B file) as [url|] eqn:Hr; [|intros f [=]].
    destruct (is_empty url) eqn:He; [intros f [=]|].
    destruct (loadImage B url) as [img|] eqn:Hl; [|intros f [=]].
    destruct (getContext2d B _ _); cbn [negb]; [|intros f [=]].
    destruct (toBlob_succeeds B _); [|intros f [=]].
    intros f [= <-]. exists img. split; [exists url; auto|reflexivity].
  - intros img (url & Hr & He & Hl) Hctx Hblob.
    rewrite Hr, He, Hl, Hctx. cbn [negb]. rewrite Hblob. reflexivity.
Qed.

(** X8. [cropToOriginalAspectRatio] fails with one of the two messages of the
    decoder and the context, and otherwise returns the JPEG data URL, of
    quality 0.95, of the canvas cropped from the image the URL decodes to: a
    crop cannot fail on the geometry, whatever the dimensions passed. *)
Theorem cropToOriginalAspectRatio_outcome
  (imageDataUrl : string) (originalWidth originalHeight targetDimension : num) :
  (forall e,
      cropToOriginalAspectRatio B imageDataUrl originalWidth originalHeight targetDimension
      = Err e -> In e crop_errors)
  /\ (forall url,
        cropToOriginalAspectRatio B imageDataUrl originalWidth originalHeight targetDimension
        = Ok url ->
        exists img,
          loadImage B imageDataUrl = Some img
          /\ url = toDataURL B
                     (crop_canvas img originalWidth originalHeight targetDimension)
                     "image/jpeg" (decimal 95 100)).
Proof.
  split; [exact (crop_fails imageDataUrl originalWidth originalHeight targetDimension)|].
  unfold cropToOriginalAspectRatio.
  destruct (loadImage B imageDataUrl) as [img|]; [|intros url [=]].
  destruct (getContext2d B _ _); cbn [negb]; [|intros url [=]].
  intros url [= <-]. exists img. split; reflexivity.
Qed.

End Outcomes.

(** X9. The image part both orchestrators take from an answer is the first
    part of the first candidate that carries inline data: every part before
    it carries none.  No part is found exactly when no part of the first
    candidate carries inline data; later candidates are never looked at. *)
Theorem imagePartFromResponse_first (response : GenerateContentResponse) :
  match imagePartFromResponse response with
  | Some part =>
      exists before after,
        first_candidate_parts response = (before ++ part :: after)%list
        /\ has_inlineData part = true
        /\ forallb (fun p => negb (has_inlineData p)) before = true
  | None => forallb (fun p => negb (has_inlineData p)) (first_candidate_parts response) = true
  end.
Proof.
  unfold imagePartFromResponse, first_candidate_parts.
  destruct (candidates response) as [[|first rest]|]; try reflexivity.
  destruct (content first) as [c|]; [|reflexivity].
  destruct (parts c) as [ps|]; [|reflexivity].
  change (fun part : Part => match inlineData part with Some _ => true | None => false end)
    with has_inlineData.
  destruct (find has_inlineData ps) as [part|] eqn:F.
  - exact (find_first _ _ _ F).
  - clear -F. induction ps as [|p ps IH]; [reflexivity|].
    simpl in F. simpl. destruct (has_inlineData p); [discriminate|]. exact (IH F).
Qed.

(** ** The requests, the result and the errors of a composition *)

Definition image_model : string := "gemini-2.5-flash-image".


Definition rotateProductImage_errors : list string :=
  ([missing_api_key] ++ resizeImage_errors ++ encoding_errors
   ++ [rotation_no_image; "InvalidCharacterError"])%list.


Section Runs.
Context {num : Type} {NUM : JsNumber num}.
Variable B : browser (num := num).

Lemma getApiKey_fails (e : string) : getApiKey B = Err e -> e = missing_api_key.
Proof.
  unfold getApiKey. destruct (_ || _); [|discriminate]. now intros [= <-].
Qed.

Lemma dataURLtoFile_fails (dataurl filename e : string) :
  dataURLtoFile B dataurl filename = Err e ->
  In e [invalid_data_url; no_mime_type; "InvalidCharacterError"].
Proof.
  unfold dataURLtoFile.
  destruct (parse_data_url dataurl) as [[mime payload]|] eqn:P.
  - destruct (atob B payload); [discriminate|intros [= <-]; simpl; tauto].
  - intros [= <-]. destruct (parse_data_url_fails _ _ P) as [-> | ->]; simpl; tauto.
Qed.

Ltac unfold_run :=
  unfold generateCompositeImage, rotateProductImage,
    bind, await, ret, try_catch, generateContent.

Ltac case_step :=
  match goal with
  | |- context [match ?x with Ok _ => _ | Err _ => _ end] =>
      lazymatch x with
      | context [match _ with Ok _ => _ | Err _ => _ end] => fail
      | _ => destruct x eqn:?
      end
  | |- context [match ?x with Some _ => _ | None => _ end] =>
      lazymatch x with
      | context [match _ with Ok _ => _ | Err _ => _ end] => fail
      | _ => destruct x eqn:?
      end
  | |- context [let (_, _) := ?x in _] => is_var x; destruct x
  end.





(** X13. The errors of a rotation.  A run of [rotateProductImage] that fails,
    fails with one of the fixed messages of its own steps (the missing key,
    the reading, decoding and encoding of the product, an answer without
    image, a generated data URL that is refused or does not decode), or with
    the error of its one request to the image model. *)
Theorem rotateProductImage_failure
  (productImage : File) (rotationDescription : string) (log : list request) (e : string) :
  let run := rotateProductImage B productImage rotationDescription log in
  fst run = Err e ->
  In e rotateProductImage_errors
  \/ exists key req,
       getApiKey B = Ok key
       /\ snd run = (log ++ [req])%list
       /\ model req = image_model
       /\ ai_generateContent B key log req = Err e.
Proof.
  intro run. unfold run. unfold_run.
  repeat case_step.
  all: cbn [fst snd].
  all: try (intros [=]; fail).
  all: first [intros [= <-] | intro H].
  all: unfold rotateProductImage_errors; rewrite ?in_app_iff.
  all: try (left; do 3 right; simpl; tauto).
  all: try match goal with
           | H : getApiKey B = Err ?e |- _ =>
               left; left; left; exact (eq_sym (getApiKey_fails _ H))
           | H : resizeImage B _ _ = Err ?e |- _ =>
               left; right; left; exact (resizeImage_fails B _ _ _ H)
           | H : fileToPart B _ = Err ?e |- _ =>
               left; do 2 right; left; exact (fileToPart_fails B _ _ H)
           | H : dataURLtoFile B _ _ = Err ?e |- _ =>
               left; apply dataURLtoFile_fails in H; unfold encoding_errors;
               simpl in H |- *; tauto
           end.
  all: right; do 2 eexists; split; [reflexivity|].
  all: split; [reflexivity|].
  all: split; [reflexivity|].
  all: eassumption.
Qed.

End Runs.



(** The image model cannot be reached. *)
Lemma rotateProductImage_failure_witness :
  let N := Binary64 in
  let B := test_browser (fun _ => Err "network error") in
  let run := rotateProductImage B product_file "back view" [] in
  In "network error" rotateProductImage_errors
  \/ exists key req,
       getApiKey B = Ok key
       /\ snd run = ([] ++ [req])%list
       /\ model req = image_model
       /\ ai_generateContent B key [] req = Err "network error".
Proof.
  intros N B run.
  apply (rotateProductImage_failure B product_file "back view" [] "network error").
  vm_compute. reflexivity.
Defined.

(** ** The letterbox rectangle *)

Lemma Qmult_le_compat_left (x y z : Q) : (x <= y)%Q -> (0 <= z)%Q -> (z * x <= z * y)%Q.
Proof. intros H Hz. rewrite !(Qmult_comm z). now apply Qmult_le_compat_r. Qed.

Section LetterboxShape.
Variable r : rounding.
Local Hint Extern 0 (JsNumber _) => exact (Rounded r) : typeclass_instances.

(** X14. Where [resizeImage] puts the image, in any rounded arithmetic.  Both
    offsets are at least 0, so the image starts inside the canvas; on one
    axis the offset is 0 and the image spans the whole target dimension; and
    a square image fills the canvas, with no padding at all. *)
Theorem resizeImage_rect_shape (img : image) (D : Z) :
  (0 < naturalWidth img)%Z -> (0 < naturalHeight img)%Z -> (0 <= D)%Z ->
  let rect := resizeImage_rect img (of_Z D) in
  (0 <= offsetX rect)%Q /\ (0 <= offsetY rect)%Q
  /\ ((offsetX rect == 0 /\ contentWidth rect == of_Z D)%Q
      \/ (offsetY rect == 0 /\ contentHeight rect == of_Z D)%Q)
  /\ (naturalWidth img = naturalHeight img ->
      (offsetX rect == 0 /\ offsetY rect == 0
       /\ contentWidth rect == of_Z D /\ contentHeight rect == of_Z D)%Q).
Proof.
  intros Hw Hh HD rect.
  set (T := of_Z D) in *.
  assert (HT0 : (0 <= T)%Q) by (apply of_Z_nonneg; exact HD).
  assert (HTf : (r T == T)%Q) by apply rnd_idempotent.
  set (a := div (of_Z (naturalWidth img)) (of_Z (naturalHeight img))).
  pose proof (letterbox_fits r a T HT0 HTf) as Hfit.
  assert (Hsq : naturalWidth img = naturalHeight img -> (a == 1)%Q).
  { intro E. unfold a. rewrite E.
    assert (P : (1 <= of_Z (naturalHeight img))%Q).
    { apply (rnd_ge_integer r _ 1); [simpl; lia|]. rewrite <- Zle_Qle. lia. }
    change (div (of_Z (naturalHeight img)) (of_Z (naturalHeight img)))
      with (r (of_Z (naturalHeight img) / of_Z (naturalHeight img))%Q).
    apply Qeq_trans with (r (inject_Z 1)); [|apply (rnd_integer r 1); simpl; lia].
    apply rnd_proper. change (inject_Z 1) with 1%Q. field. lra. }
  unfold rect, resizeImage_rect. fold a. fold T. rewrite gt_one.
  change (sub T T) with (r (T - T)%Q).
  destruct (Qltb 1 a) eqn:L; cbn [offsetX offsetY contentWidth contentHeight].
  - destruct Hfit as (_ & F2 & _).
    change (div T a) with (r (T / a)%Q) in *.
    assert (Z0 : (div (r (T - T)) (of_Z 2) == 0)%Q) by (apply div_two_zero; ring).
    split; [rewrite Z0; apply Qle_refl|].
    split; [apply half_nonneg; lra|].
    split; [left; split; [exact Z0|reflexivity]|].
    intro E. apply Qltb_true in L. rewrite (Hsq E) in L. exfalso. lra.
  - destruct Hfit as (F1 & _ & _).
    change (mul T a) with (r (T * a)%Q) in *.
    assert (Z0 : (div (r (T - T)) (of_Z 2) == 0)%Q) by (apply div_two_zero; ring).
    split; [apply half_nonneg; lra|].
    split; [rewrite Z0; apply Qle_refl|].
    split; [right; split; [exact Z0|reflexivity]|].
    intro E.
    assert (W : (r (T * a) == T)%Q).
    { apply Qeq_trans with (r T); [|exact HTf].
      apply rnd_proper. rewrite (Hsq E). ring. }
    split; [|split; [exact Z0|split; [exact W|reflexivity]]].
    apply div_two_zero. rewrite W. ring.
Qed.

End LetterboxShape.

(** The scene of 800 by 600 pixels at 1024, in exact arithmetic. *)
Lemma resizeImage_rect_shape_witness :
  let N := Rounded exact in
  let rect := resizeImage_rect scene_image (of_Z 1024) in
  (0 <= offsetX rect)%Q /\ (0 <= offsetY rect)%Q
  /\ ((offsetX rect == 0 /\ contentWidth rect == of_Z 1024)%Q
      \/ (offsetY rect == 0 /\ contentHeight rect == of_Z 1024)%Q).
Proof.
  intros N rect.
  destruct (resizeImage_rect_shape exact scene_image 1024) as (H1 & H2 & H3 & _);
    try (simpl; lia).
  split; [exact H1|]. split; [exact H2|exact H3].
Defined.

Section CentredLetterbox.
Variable r : rounding.
Local Hint Extern 0 (JsNumber _) => exact (Rounded r) : typeclass_instances.

(** The padding before and after a content that fits. *)
Lemma padding_centred (t s : Q) :
  (1 <= t <= inject_Z (2 ^ 24))%Q -> (0 <= s <= t)%Q ->
  let off := div (sub t s) (of_Z 2) in
  (Qabs (off + s + off - t) <= (1 # 2 ^ 51) * t)%Q.
Proof.
  intros [Ht1 Ht2] [Hs0 Hs1] off.
  assert (E2 : (of_Z 2 == 2)%Q) by (apply (rnd_integer r 2); simpl; lia).
  set (d := r (t - s)%Q).
  assert (Bd : (t - s - ((t - s) * (1 # 2 ^ 53) + (1 # 2 ^ 63)) <= d
                /\ d <= t - s + ((t - s) * (1 # 2 ^ 53) + (1 # 2 ^ 63)))%Q).
  { apply rnd_error. literals. split; lra. }
  assert (Hd0 : (0 <= d)%Q).
  { apply (rnd_ge_integer r _ 0); [simpl; lia|]. change (inject_Z 0) with 0%Q. lra. }
  assert (Eoff : (off == r (d / 2))%Q).
  { unfold off. change (div (sub t s) (of_Z 2)) with (r (d / of_Z 2)%Q).
    apply rnd_proper. now rewrite E2. }
  set (half := (d / 2)%Q) in *.
  assert (Hh : (half * 2 == d)%Q) by (unfold half; field).
  assert (Bo : (half - (half * (1 # 2 ^ 53) + (1 # 2 ^ 63)) <= r half
                /\ r half <= half + (half * (1 # 2 ^ 53) + (1 # 2 ^ 63)))%Q).
  { apply rnd_error. destruct Bd as [_ Bd2]. literals. split; lra. }
  rewrite Eoff. apply Qabs_Qle_condition.
  destruct Bd as [Bd1 Bd2]. destruct Bo as [Bo1 Bo2].
  literals. split; lra.
Qed.

(** X15. The formulas of [resizeImage], in any rounded arithmetic, for an
    image with sides from 1 to [2^24] and a target dimension from 1 to
    [2^24].  The rectangle the image is drawn into has the aspect ratio of
    the image, width times natural height against height times natural
    width, within a relative [2^-51]; and it is centred: on each axis twice
    the padding before it and the content make up the target dimension
    within [2^-51] of that dimension. *)
Theorem resizeImage_rect_centred (img : image) (D : Z) :
  (0 < naturalWidth img <= 2 ^ 24)%Z -> (0 < naturalHeight img <= 2 ^ 24)%Z ->
  (0 < D <= 2 ^ 24)%Z ->
  let rect := resizeImage_rect img (of_Z D) in
  (Qabs (contentWidth rect * inject_Z (naturalHeight img)
         - contentHeight rect * inject_Z (naturalWidth img))
   <= (1 # 2 ^ 51) * (contentWidth rect * inject_Z (naturalHeight img)))%Q
  /\ (Qabs (offsetX rect + contentWidth rect + offsetX rect - inject_Z D)
      <= (1 # 2 ^ 51) * inject_Z D)%Q
  /\ (Qabs (offsetY rect + contentHeight rect + offsetY rect - inject_Z D)
      <= (1 # 2 ^ 51) * inject_Z D)%Q.
Proof.
  intros Hw Hh HD rect.
  set (t := of_Z D).
  assert (Et : (t == inject_Z D)%Q) by (apply of_Z_exact; lia).
  assert (Ft : (r t == t)%Q) by apply rnd_idempotent.
  assert (Ht : (1 <= t <= inject_Z (2 ^ 24))%Q).
  { rewrite Et. change 1%Q with (inject_Z 1). rewrite <- !Zle_Qle. lia. }
  set (w := inject_Z (naturalWidth img)).
  set (h := inject_Z (naturalHeight img)).
  pose proof (inject_Z_pos (naturalWidth img) ltac:(lia)) as Pw. fold w in Pw.
  pose proof (inject_Z_pos (naturalHeight img) ltac:(lia)) as Ph. fold h in Ph.
  set (a := div (of_Z (naturalWidth img)) (of_Z (naturalHeight img))).
  pose proof (aspectRatio_range r _ _ Hw Hh) as Ha. cbv zeta in Ha. fold a in Ha.
  pose proof (aspectRatio_accurate r (naturalWidth img) (naturalHeight img) Hw Hh)
    as [A1 A2]. cbv zeta in A1, A2. fold a w h in A1, A2.
  set (k := (w / h)%Q) in *.
  assert (Hk : (k * h == w)%Q) by (unfold k; field; lra).
  assert (Pk : (0 < k)%Q) by (unfold k; apply Qlt_shift_div_l; lra).
  assert (Pa : (0 < a)%Q).
  { destruct Ha as [Ha1 _].
    apply Qlt_le_trans with ((1 # 2 ^ 24) * (1 - (1 # 2 ^ 53)))%Q; [reflexivity|exact Ha1]. }
  pose proof (letterbox_fits r a t ltac:(lra) Ft) as Hfit.
  assert (Pt : (0 < t)%Q) by lra.
  unfold rect, resizeImage_rect. fold t. fold a. rewrite gt_one.
  destruct (Qltb 1 a) eqn:L; cbn [offsetX offsetY contentWidth contentHeight].
  - destruct Hfit as (_ & F2 & _).
    destruct (quotient_content r _ _ Ht Ha) as [Ps _].
    set (s := div t a) in *. change (r (t / a)%Q) with s in F2.
    split; [|split; rewrite <- Et; apply padding_centred;
                    [exact Ht|lra|exact Ht|lra]].
    set (g := (t / a)%Q).
    assert (Hg : (g * a == t)%Q) by (unfold g; field; lra).
    assert (Pg : (0 < g)%Q) by (unfold g; apply Qlt_shift_div_l; lra).
    assert (G1 : (g * a <= g * (inject_Z (2 ^ 24) * (1 + (1 # 2 ^ 53))))%Q).
    { apply Qmult_le_l; [assumption|apply Ha]. }
    assert (G2 : (g * ((1 # 2 ^ 24) * (1 - (1 # 2 ^ 53))) <= g * a)%Q).
    { apply Qmult_le_l; [assumption|apply Ha]. }
    rewrite Hg in G1, G2.
    assert (Hr : (1 # 2 ^ 64 <= g <= inject_Z (2 ^ 64))%Q).
    { destruct Ht. literals. split; lra. }
    pose proof (rnd_accurate r Hr) as A.
    apply Qabs_Qle_condition in A. destruct A as [S1 S2].
    change (r g) with s in S1, S2.
    (* s * k against t *)
    assert (U1 : (s * (k * (1 - (1 # 2 ^ 53))) <= (g * (1 + (1 # 2 ^ 53))) * a)%Q).
    { apply Qle_trans with (s * a)%Q.
      - apply Qmult_le_l; assumption.
      - apply Qmult_le_compat_r; lra. }
    assert (U2 : ((g * (1 - (1 # 2 ^ 53))) * a <= s * (k * (1 + (1 # 2 ^ 53))))%Q).
    { apply Qle_trans with (s * a)%Q.
      - apply Qmult_le_compat_r; lra.
      - apply Qmult_le_l; assumption. }
    set (sk := (s * k)%Q).
    assert (V1 : (sk * (1 - (1 # 2 ^ 53)) <= (1 + (1 # 2 ^ 53)) * t)%Q).
    { rewrite <- Hg. unfold sk.
      setoid_replace (s * k * (1 - (1 # 2 ^ 53)))%Q
        with (s * (k * (1 - (1 # 2 ^ 53))))%Q by ring.
      setoid_replace ((1 + (1 # 2 ^ 53)) * (g * a))%Q
        with (g * (1 + (1 # 2 ^ 53)) * a)%Q by ring.
      exact U1. }
    assert (V2 : ((1 - (1 # 2 ^ 53)) * t <= sk * (1 + (1 # 2 ^ 53)))%Q).
    { rewrite <- Hg. unfold sk.
      setoid_replace (s * k * (1 + (1 # 2 ^ 53)))%Q
        with (s * (k * (1 + (1 # 2 ^ 53))))%Q by ring.
      setoid_replace ((1 - (1 # 2 ^ 53)) * (g * a))%Q
        with (g * (1 - (1 # 2 ^ 53)) * a)%Q by ring.
      exact U2. }
    assert (W1 : (t - sk <= (1 # 2 ^ 51) * t /\ sk - t <= (1 # 2 ^ 51) * t)%Q).
    { literals. split; lra. }
    destruct W1 as [W1 W2].
    setoid_replace (t * h - s * w)%Q with ((t - sk) * h)%Q
      by (unfold sk; rewrite <- Hk; ring).
    setoid_replace ((1 # 2 ^ 51) * (t * h))%Q with (((1 # 2 ^ 51) * t) * h)%Q by ring.
    apply Qabs_Qle_condition. split.
    + setoid_replace (- ((1 # 2 ^ 51) * t * h))%Q with ((- ((1 # 2 ^ 51) * t)) * h)%Q by ring.
      apply Qmult_le_compat_r; lra.
    + apply Qmult_le_compat_r; lra.
  - destruct Hfit as (F1 & _ & _).
    destruct (product_content r _ _ Ht Ha) as [Ps _].
    set (s := mul t a) in *. change (r (t * a)%Q) with s in F1.
    split; [|split; rewrite <- Et; apply padding_centred;
                    [exact Ht|lra|exact Ht|lra]].
    set (g := (t * a)%Q).
    assert (G1 : (t * a <= t * (inject_Z (2 ^ 24) * (1 + (1 # 2 ^ 53))))%Q).
    { apply Qmult_le_l; [assumption|apply Ha]. }
    assert (G2 : (t * ((1 # 2 ^ 24) * (1 - (1 # 2 ^ 53))) <= t * a)%Q).
    { apply Qmult_le_l; [assumption|apply Ha]. }
    fold g in G1, G2.
    assert (Hr : (1 # 2 ^ 64 <= g <= inject_Z (2 ^ 64))%Q).
    { destruct Ht. literals. split; lra. }
    pose proof (rnd_accurate r Hr) as A.
    apply Qabs_Qle_condition in A. destruct A as [S1 S2].
    change (r g) with s in S1, S2.
    set (tk := (t * k)%Q).
    assert (U1 : (tk * (1 - (1 # 2 ^ 53)) <= g)%Q).
    { unfold tk, g.
      setoid_replace (t * k * (1 - (1 # 2 ^ 53)))%Q
        with (t * (k * (1 - (1 # 2 ^ 53))))%Q by ring.
      apply Qmult_le_l; assumption. }
    assert (U2 : (g <= tk * (1 + (1 # 2 ^ 53)))%Q).
    { unfold tk, g.
      setoid_replace (t * k * (1 + (1 # 2 ^ 53)))%Q
        with (t * (k * (1 + (1 # 2 ^ 53))))%Q by ring.
      apply Qmult_le_l; assumption. }
    assert (Ptk : (0 < tk)%Q) by (unfold tk; apply Qmult_lt_0_compat; assumption).
    assert (W1 : (s - tk <= (1 # 2 ^ 51) * s /\ tk - s <= (1 # 2 ^ 51) * s)%Q).
    { literals. split; lra. }
    destruct W1 as [W1 W2].
    setoid_replace (s * h - t * w)%Q with ((s - tk) * h)%Q
      by (unfold tk; rewrite <- Hk; ring).
    setoid_replace ((1 # 2 ^ 51) * (s * h))%Q with (((1 # 2 ^ 51) * s) * h)%Q by ring.
    apply Qabs_Qle_condition. split.
    + setoid_replace (- ((1 # 2 ^ 51) * s * h))%Q with ((- ((1 # 2 ^ 51) * s)) * h)%Q by ring.
      apply Qmult_le_compat_r; lra.
    + apply Qmult_le_compat_r; lra.
Qed.

End CentredLetterbox.

Lemma resizeImage_rect_centred_witness :
  let N := Rounded exact in
  let rect := resizeImage_rect scene_image (of_Z 1024) in
  (Qabs (contentWidth rect * inject_Z 600 - contentHeight rect * inject_Z 800)
   <= (1 # 2 ^ 51) * (contentWidth rect * inject_Z 600))%Q
  /\ (Qabs (offsetX rect + contentWidth rect + offsetX rect - inject_Z 1024)
      <= (1 # 2 ^ 51) * inject_Z 1024)%Q
  /\ (Qabs (offsetY rect + contentHeight rect + offsetY rect - inject_Z 1024)
      <= (1 # 2 ^ 51) * inject_Z 1024)%Q.
Proof.
  intros N rect.
  apply (resizeImage_rect_centred exact scene_image 1024); simpl; lia.
Defined.

(** In doubles, a banner of 7 by 3 pixels: the aspect ratio is not kept
    exactly, and it is kept within the tolerance. *)
Example resizeImage_rect_centred_binary64 :
  let N := Binary64 in
  let img := {| img_src := "banner.png"; naturalWidth := 7; naturalHeight := 3 |} in
  let rect := resizeImage_rect img (of_Z 1024) in
  let cw := float_value (contentWidth rect) in
  let ch := float_value (contentHeight rect) in
  let y := float_value (offsetY rect) in
  ~ (cw * 3 == ch * 7)%Q
  /\ (Qabs (cw * 3 - ch * 7) <= (1 # 2 ^ 51) * (cw * 3))%Q
  /\ (Qabs (y + ch + y - 1024) <= (1 # 2 ^ 51) * 1024)%Q.
Proof.
  cbv zeta. split; [vm_compute; discriminate|].
  split; vm_compute; discriminate.
Qed.

(** ** The radius of the marker *)

Section MarkerRadius.
Variable r : rounding.
Local Hint Extern 0 (JsNumber _) => exact (Rounded r) : typeclass_instances.

Lemma Math_min_of_Z (a b : Z) :
  (Z.abs a <= 2 ^ 53)%Z -> (Z.abs b <= 2 ^ 53)%Z ->
  (Math_min (of_Z a) (of_Z b) == inject_Z (Z.min a b))%Q.
Proof.
  intros Ha Hb.
  pose proof (rnd_integer r a Ha) as Ea. pose proof (rnd_integer r b Hb) as Eb.
  change (Math_min (of_Z a) (of_Z b)) with (Qmin (r (inject_Z a)) (r (inject_Z b))).
  unfold Qmin. destruct (Qltb _ _) eqn:L.
  - apply Qltb_true in L. rewrite Ea, Eb in L. rewrite <- Zlt_Qlt in L.
    rewrite Eb, Z.min_r by lia. reflexivity.
  - apply Qltb_false in L. rewrite Ea, Eb in L. rewrite <- Zle_Qle in L.
    rewrite Ea, Z.min_l by lia. reflexivity.
Qed.

(** The factor 0.015 as the program computes it. *)
Lemma factor_accurate :
  ((3 # 200) * (1 - (1 # 2 ^ 53)) <= decimal 15 1000 <= (3 # 200) * (1 + (1 # 2 ^ 53)))%Q.
Proof.
  assert (E15 : (of_Z 15 == 15)%Q) by (apply (rnd_integer r 15); simpl; lia).
  assert (E1000 : (of_Z 1000 == 1000)%Q) by (apply (rnd_integer r 1000); simpl; lia).
  assert (E : (decimal 15 1000 == r (3 # 200))%Q).
  { unfold decimal. change (div (of_Z 15) (of_Z 1000)) with (r (of_Z 15 / of_Z 1000)%Q).
    apply rnd_proper. rewrite E15, E1000. reflexivity. }
  assert (Hr : (1 # 2 ^ 64 <= 3 # 200 <= inject_Z (2 ^ 64))%Q)
    by (split; unfold Qle; simpl; lia).
  pose proof (rnd_accurate r Hr) as A. apply Qabs_Qle_condition in A.
  rewrite E. destruct A as [A1 A2]. split; lra.
Qed.

(** X16. The radius of the marker, whatever the placement point and the
    original dimensions, in any rounded arithmetic.  It is never less than 5
    pixels; it is exactly 5 on a canvas whose shorter side is at most 333
    pixels; and from 334 pixels on it exceeds 5 and is 1.5 percent of the
    shorter side, within a relative [2^-51]. *)
Theorem markImage_marker_radius
  (canvas_width canvas_height : Z) (position : position_t) (originalDimensions : dimensions) :
  (0 <= canvas_width <= 2 ^ 24)%Z -> (0 <= canvas_height <= 2 ^ 24)%Z ->
  let side := Z.min canvas_width canvas_height in
  let m := markImage_marker canvas_width canvas_height position originalDimensions in
  (5 <= markerRadius m)%Q
  /\ ((side <= 333)%Z -> (markerRadius m == 5)%Q)
  /\ ((334 <= side)%Z ->
      (5 < markerRadius m)%Q
      /\ (Qabs (markerRadius m - (3 # 200) * inject_Z side)
          <= (3 # 200) * inject_Z side * (1 # 2 ^ 51))%Q).
Proof.
  intros Hw Hh side m.
  assert (E5 : (of_Z 5 == 5)%Q) by (apply (rnd_integer r 5); simpl; lia).
  pose proof (Math_min_of_Z canvas_width canvas_height ltac:(lia) ltac:(lia)) as Emin.
  fold side in Emin.
  pose proof factor_accurate as [F1 F2].
  set (f := decimal 15 1000) in *.
  set (s := Math_min (of_Z canvas_width) (of_Z canvas_height)) in *.
  assert (Hm : markerRadius m = Qmax (of_Z 5) (r (s * f)%Q)).
  { unfold m, markImage_marker. destruct (ltb _ _); reflexivity. }
  rewrite Hm. clear Hm m.
  assert (Hs0 : (0 <= inject_Z side)%Q).
  { change 0%Q with (inject_Z 0). rewrite <- Zle_Qle. lia. }
  split; [|split].
  - unfold Qmax. destruct (Qltb _ _) eqn:L.
    + apply Qltb_true in L. lra.
    + rewrite E5. apply Qle_refl.
  - intro Hs.
    assert (Hs' : (inject_Z side <= 333)%Q).
    { change 333%Q with (inject_Z 333). rewrite <- Zle_Qle. exact Hs. }
    assert (B : (r (s * f) <= 5)%Q).
    { apply (rnd_le_integer r _ 5); [simpl; lia|]. rewrite Emin.
      change (inject_Z 5) with 5%Q.
      apply Qle_trans with (333 * ((3 # 200) * (1 + (1 # 2 ^ 53))))%Q;
        [|unfold Qle; simpl; lia].
      apply Qle_trans with (inject_Z side * ((3 # 200) * (1 + (1 # 2 ^ 53))))%Q.
      - apply Qmult_le_compat_left; [exact F2|exact Hs0].
      - apply Qmult_le_compat_r; [exact Hs'|unfold Qle; simpl; lia]. }
    unfold Qmax. destruct (Qltb _ _) eqn:L; [|exact E5].
    apply Qltb_true in L. lra.
  - intro Hs.
    assert (Hs1 : (334 <= inject_Z side)%Q).
    { change 334%Q with (inject_Z 334). rewrite <- Zle_Qle. exact Hs. }
    assert (Hs2 : (inject_Z side <= inject_Z (2 ^ 24))%Q).
    { rewrite <- Zle_Qle. unfold side. lia. }
    set (x := (s * f)%Q).
    set (e := (1 # 2 ^ 53)%Q) in *.
    set (k := ((3 # 200) * inject_Z side)%Q).
    assert (Pe : (0 < e)%Q) by reflexivity.
    assert (Pk : (5 + (1 # 100) <= k)%Q).
    { unfold k. apply Qle_trans with ((3 # 200) * 334)%Q; [unfold Qle; simpl; lia|].
      apply Qmult_le_l; [reflexivity|exact Hs1]. }
    assert (Kb : (k <= inject_Z (2 ^ 24))%Q).
    { unfold k. apply Qle_trans with (1 * inject_Z side)%Q; [|lra].
      apply Qmult_le_compat_r; [unfold Qle; simpl; lia|exact Hs0]. }
    assert (X1 : (k * (1 - e) <= x)%Q).
    { unfold x, k. rewrite Emin.
      setoid_replace ((3 # 200) * inject_Z side * (1 - e))%Q
        with (inject_Z side * ((3 # 200) * (1 - e)))%Q by ring.
      apply Qmult_le_compat_left; [exact F1|exact Hs0]. }
    assert (X2 : (x <= k * (1 + e))%Q).
    { unfold x, k. rewrite Emin.
      setoid_replace ((3 # 200) * inject_Z side * (1 + e))%Q
        with (inject_Z side * ((3 # 200) * (1 + e)))%Q by ring.
      apply Qmult_le_compat_left; [exact F2|exact Hs0]. }
    assert (C24 : (inject_Z (2 ^ 24) == 16777216)%Q) by reflexivity.
    assert (Ee : (e <= 1 # 100000)%Q) by (unfold Qle; simpl; lia).
    assert (Ke' : (k * e <= k * (1 # 100000))%Q)
      by (apply Qmult_le_compat_left; lra).
    assert (Ke : (0 <= k * e <= 1)%Q).
    { split; [apply Qmult_le_0_compat; lra|].
      apply Qle_trans with (inject_Z (2 ^ 24) * e)%Q;
        [apply Qmult_le_compat_r; lra|unfold Qle; simpl; lia]. }
    assert (Hx : (1 # 2 ^ 64 <= x <= inject_Z (2 ^ 64))%Q).
    { split.
      - apply Qle_trans with 5%Q; [unfold Qle; simpl; lia|lra].
      - apply Qle_trans with (inject_Z (2 ^ 24) + 1)%Q; [lra|unfold Qle; simpl; lia]. }
    pose proof (rnd_accurate r Hx) as A. fold e in A.
    apply Qabs_Qle_condition in A. destruct A as [A1 A2].
    assert (Xe : (0 <= x * e <= k * e * (1 + e))%Q).
    { split; [apply Qmult_le_0_compat; lra|].
      setoid_replace (k * e * (1 + e))%Q with (k * (1 + e) * e)%Q by ring.
      apply Qmult_le_compat_r; lra. }
    assert (Kee : (k * e * e <= k * e)%Q).
    { setoid_replace (k * e)%Q with (k * e * 1)%Q at 2 by ring.
      apply Qmult_le_compat_left; lra. }
    assert (R1 : (k - k * e * 3 <= r x)%Q) by lra.
    assert (R2 : (r x <= k + k * e * 3)%Q) by lra.
    assert (G : (5 < r x)%Q) by lra.
    assert (M : (Qmax (of_Z 5) (r x) == r x)%Q).
    { unfold Qmax. destruct (Qltb _ _) eqn:L; [reflexivity|].
      apply Qltb_false in L. lra. }
    rewrite M. split; [exact G|].
    apply Qabs_Qle_condition. fold k.
    assert (E51 : (k * (1 # 2 ^ 51) == k * e * 4)%Q).
    { unfold e. setoid_replace (1 # 2 ^ 51)%Q with ((1 # 2 ^ 53) * 4)%Q by reflexivity.
      ring. }
    rewrite E51. split; lra.
Qed.

End MarkerRadius.

(** The marker on the padded square of 1024 pixels. *)
Lemma markImage_marker_radius_witness :
  let N := Rounded exact in
  let m := markImage_marker 1024 1024 {| xPercent := 50%Q; yPercent := 50%Q |}
             {| originalWidth := 800%Q; originalHeight := 600%Q |} in
  (5 < markerRadius m)%Q.
Proof.
  intros N m.
  destruct (markImage_marker_radius exact 1024 1024 {| xPercent := 50%Q; yPercent := 50%Q |}
              {| originalWidth := 800%Q; originalHeight := 600%Q |})
    as (_ & _ & H); try (simpl; lia).
  apply H. simpl. lia.
Defined.

(** ** From the drop point to the marker *)

Section TouchDrop.
Variable r : rounding.
Local Hint Extern 0 (JsNumber _) => exact (Rounded r) : typeclass_instances.

Lemma rnd_positive (x : Q) :
  (1 # 2 ^ 64 <= x <= inject_Z (2 ^ 64))%Q -> (0 < r x)%Q.
Proof.
  intro H. pose proof (rnd_accurate r H) as A.
  apply Qabs_Qle_condition in A. destruct A as [A _].
  destruct H as [H _].
  assert (0 < 1 # 2 ^ 64)%Q by reflexivity.
  assert (x * (1 # 2 ^ 53) <= x * (1 # 2))%Q.
  { apply Qmult_le_l; [lra|]. unfold Qle; simpl; lia. }
  lra.
Qed.

(** One axis of the percent the handler reports. *)
Lemma percent_in_range (i s : Q) :
  (0 < s)%Q -> (0 <= i <= s)%Q ->
  (0 <= mul (div i s) (of_Z 100) <= 100)%Q.
Proof.
  intros Hs [H0 H1].
  assert (E100 : (of_Z 100 == 100)%Q) by (apply (rnd_integer r 100); simpl; lia).
  set (q := div i s).
  assert (Hq : (0 <= q <= 1)%Q).
  { unfold q. change (div i s) with (r (i / s)%Q). split.
    - apply (rnd_ge_integer r _ 0); [simpl; lia|].
      change (inject_Z 0) with 0%Q. apply Qle_shift_div_l; lra.
    - apply (rnd_le_integer r _ 1); [simpl; lia|].
      change (inject_Z 1) with 1%Q. apply Qle_shift_div_r; lra. }
  change (mul q (of_Z 100)) with (r (q * of_Z 100)%Q). split.
  - apply (rnd_ge_integer r _ 0); [simpl; lia|]. rewrite E100.
    change (inject_Z 0) with 0%Q. lra.
  - apply (rnd_le_integer r _ 100); [simpl; lia|]. rewrite E100.
    change (inject_Z 100) with 100%Q. lra.
Qed.

(** The percents of a drop the handler accepts. *)
Lemma touch_percent_range
  (img : image) (containerRect : DOMRect) (clientX clientY : Q) (position : position_t) :
  (0 < naturalWidth img <= 2 ^ 24)%Z -> (0 < naturalHeight img <= 2 ^ 24)%Z ->
  (1 <= rect_width containerRect <= inject_Z (2 ^ 24))%Q ->
  (1 <= rect_height containerRect <= inject_Z (2 ^ 24))%Q ->
  touch_relativePosition img containerRect clientX clientY = Some position ->
  (0 <= xPercent position <= 100)%Q /\ (0 <= yPercent position <= 100)%Q.
Proof.
  intros Hw Hh HcW HcH.
  pose proof (aspectRatio_accurate r (naturalWidth img) (naturalHeight img) Hw Hh)
    as [A1 A2]. cbv zeta in A1, A2.
  unfold touch_relativePosition.
  set (cW := rect_width containerRect) in *.
  set (cH := rect_height containerRect) in *.
  set (a := div (of_Z (naturalWidth img)) (of_Z (naturalHeight img))) in *.
  set (k := (inject_Z (naturalWidth img) / inject_Z (naturalHeight img))%Q) in *.
  pose proof (inject_Z_pos (naturalWidth img) ltac:(lia)) as Pw.
  pose proof (inject_Z_pos (naturalHeight img) ltac:(lia)) as Ph.
  assert (Bw : (inject_Z (naturalWidth img) <= inject_Z (2 ^ 24))%Q)
    by (rewrite <- Zle_Qle; lia).
  assert (Bh : (inject_Z (naturalHeight img) <= inject_Z (2 ^ 24))%Q)
    by (rewrite <- Zle_Qle; lia).
  assert (W1 : (1 <= inject_Z (naturalWidth img))%Q).
  { change 1%Q with (inject_Z 1). rewrite <- Zle_Qle. lia. }
  assert (H1 : (1 <= inject_Z (naturalHeight img))%Q).
  { change 1%Q with (inject_Z 1). rewrite <- Zle_Qle. lia. }
  assert (Hk : (k * inject_Z (naturalHeight img) == inject_Z (naturalWidth img))%Q)
    by (unfold k; field; lra).
  assert (C24 : (inject_Z (2 ^ 24) == 16777216)%Q) by reflexivity.
  assert (Kb : (1 # 2 ^ 24 <= k <= inject_Z (2 ^ 24))%Q).
  { split.
    - apply Qmult_le_r with (inject_Z (naturalHeight img)); [exact Ph|]. rewrite Hk.
      assert ((1 # 2 ^ 24) * inject_Z (2 ^ 24) == 1)%Q by reflexivity.
      assert (0 < 1 # 2 ^ 24)%Q by reflexivity. nra.
    - apply Qmult_le_r with (inject_Z (naturalHeight img)); [exact Ph|]. rewrite Hk.
      assert (0 < inject_Z (2 ^ 24))%Q by reflexivity. nra. }
  assert (Ab : (1 # 2 ^ 25 <= a <= inject_Z (2 ^ 25))%Q).
  { destruct Kb as [K1 K2]. split.
    - apply Qle_trans with (k * (1 - (1 # 2 ^ 53)))%Q; [|exact A1].
      apply Qle_trans with ((1 # 2 ^ 24) * (1 - (1 # 2 ^ 53)))%Q;
        [unfold Qle; simpl; lia|].
      apply Qmult_le_r; [reflexivity|exact K1].
    - apply Qle_trans with (k * (1 + (1 # 2 ^ 53)))%Q; [exact A2|].
      apply Qle_trans with (inject_Z (2 ^ 24) * (1 + (1 # 2 ^ 53)))%Q;
        [|unfold Qle; simpl; lia].
      apply Qmult_le_r; [reflexivity|exact K2]. }
  assert (Pa : (0 < a)%Q).
  { destruct Ab as [Ab1 _]. assert (0 < 1 # 2 ^ 25)%Q by reflexivity. lra. }
  assert (PcW : (0 < cW)%Q) by lra.
  assert (PcH : (0 < cH)%Q) by lra.
  assert (Pq : (0 < div cW a)%Q).
  { change (div cW a) with (r (cW / a)%Q). apply rnd_positive.
    destruct Ab as [Ab1 Ab2]. split.
    - apply Qle_shift_div_l; [exact Pa|].
      apply Qle_trans with ((1 # 2 ^ 64) * inject_Z (2 ^ 25))%Q.
      + apply Qmult_le_l; [reflexivity|exact Ab2].
      + apply Qle_trans with 1%Q; [unfold Qle; simpl; lia|lra].
    - apply Qle_shift_div_r; [exact Pa|].
      apply Qle_trans with (inject_Z (2 ^ 64) * (1 # 2 ^ 25))%Q.
      + apply Qle_trans with (inject_Z (2 ^ 24)); [lra|unfold Qle; simpl; lia].
      + apply Qmult_le_l; [reflexivity|exact Ab1]. }
  assert (Pp : (0 < mul cH a)%Q).
  { change (mul cH a) with (r (cH * a)%Q). apply rnd_positive.
    destruct Ab as [Ab1 Ab2]. split.
    - apply Qle_trans with (1 * (1 # 2 ^ 25))%Q; [unfold Qle; simpl; lia|].
      apply Qle_trans with (cH * (1 # 2 ^ 25))%Q.
      + apply Qmult_le_r; [reflexivity|lra].
      + apply Qmult_le_l; [exact PcH|exact Ab1].
    - apply Qle_trans with (inject_Z (2 ^ 24) * inject_Z (2 ^ 25))%Q;
        [|unfold Qle; simpl; lia].
      apply Qle_trans with (cH * inject_Z (2 ^ 25))%Q.
      + apply Qmult_le_l; [exact PcH|exact Ab2].
      + apply Qmult_le_r; [reflexivity|lra]. }
  destruct (ltb (div cW cH) a);
    match goal with
    | |- context [negb (?g1 || ?g2 || ?g3 || ?g4)] =>
        destruct g1 eqn:G1; cbn [orb negb]; [discriminate|];
        destruct g2 eqn:G2; cbn [orb negb]; [discriminate|];
        destruct g3 eqn:G3; cbn [orb negb]; [discriminate|];
        destruct g4 eqn:G4; cbn [orb negb]; [discriminate|]
    end;
    intros [= <-]; cbn [xPercent yPercent];
    change (ltb ?x ?y) with (Qltb x y) in *;
    apply Qltb_false in G1, G2, G3, G4;
    assert (E0 : (of_Z 0 == 0)%Q) by (apply (rnd_integer r 0); simpl; lia);
    rewrite E0 in G1, G3;
    split; apply percent_in_range; try assumption; split; assumption.
Qed.

(** The marker of a point with percents in [0, 100], on a square canvas. *)
Lemma marker_inside_content (D : Z) (original : image) (position : position_t) :
  (0 <= D)%Z -> (0 < naturalWidth original)%Z -> (0 < naturalHeight original)%Z ->
  (0 <= xPercent position <= 100)%Q -> (0 <= yPercent position <= 100)%Q ->
  let m := markImage_marker D D position
             {| originalWidth := of_Z (naturalWidth original);
                originalHeight := of_Z (naturalHeight original) |} in
  let rect := marker_rect m in
  (offsetX rect <= finalMarkerX m <= add (offsetX rect) (contentWidth rect))%Q
  /\ (offsetY rect <= finalMarkerY m <= add (offsetY rect) (contentHeight rect))%Q.
Proof.
  intros HD Hw Hh Hx Hy m rect.
  set (T := of_Z D).
  assert (HT0 : (0 <= T)%Q) by (apply of_Z_nonneg; lia).
  assert (HTf : (r T == T)%Q) by apply rnd_idempotent.
  set (aspectRatio := div (of_Z (naturalWidth original)) (of_Z (naturalHeight original))).
  assert (Har : (0 <= aspectRatio)%Q).
  { apply (rnd_ge_integer r _ 0); [simpl; lia|].
    assert (0 <= of_Z (naturalWidth original))%Q by (apply of_Z_nonneg; lia).
    assert (0 <= of_Z (naturalHeight original))%Q by (apply of_Z_nonneg; lia).
    change (inject_Z 0) with 0%Q.
    unfold Qdiv. apply Qmult_le_0_compat; [assumption|].
    apply Qinv_le_0_compat. assumption. }
  unfold rect, m, markImage_marker.
  cbn [originalWidth originalHeight].
  fold T. fold aspectRatio.
  rewrite gt_one.
  destruct (Qltb 1 aspectRatio) eqn:E;
    cbn [marker_rect finalMarkerX finalMarkerY offsetX offsetY contentWidth contentHeight].
  - apply Qltb_true in E.
    assert (Hch : (0 <= div T aspectRatio)%Q).
    { apply (rnd_ge_integer r _ 0); [simpl; lia|]. change (inject_Z 0) with 0%Q.
      apply Qle_shift_div_l; lra. }
    split; apply marker_coordinate_inside; auto; apply rnd_idempotent.
  - assert (Hcw : (0 <= mul T aspectRatio)%Q).
    { apply (rnd_ge_integer r _ 0); [simpl; lia|]. change (inject_Z 0) with 0%Q.
      apply Qmult_le_0_compat; assumption. }
    split; apply marker_coordinate_inside; auto; apply rnd_idempotent.
Qed.

(** X17. From the touch handler to the marker, in any rounded arithmetic.
    The scene has sides up to 2^24 and is shown in a container with sides
    from 1 to 2^24.  A drop that [handleTouchEnd] accepts is reported with
    both percents in [0, 100], whatever the container and the touch point;
    and the marker that [markImage] computes for that position, on a square
    canvas and with the dimensions of the scene, is centred inside the
    content rectangle on both axes. *)
Theorem accepted_drop_marked_inside
  (original : image) (containerRect : DOMRect) (clientX clientY : Q)
  (position : position_t) (D : Z) :
  (0 < naturalWidth original <= 2 ^ 24)%Z -> (0 < naturalHeight original <= 2 ^ 24)%Z ->
  (1 <= rect_width containerRect <= inject_Z (2 ^ 24))%Q ->
  (1 <= rect_height containerRect <= inject_Z (2 ^ 24))%Q ->
  (0 <= D)%Z ->
  touch_relativePosition original containerRect clientX clientY = Some position ->
  ((0 <= xPercent position <= 100)%Q /\ (0 <= yPercent position <= 100)%Q)
  /\ let m := markImage_marker D D position
                {| originalWidth := of_Z (naturalWidth original);
                   originalHeight := of_Z (naturalHeight original) |} in
     let rect := marker_rect m in
     (offsetX rect <= finalMarkerX m <= add (offsetX rect) (contentWidth rect))%Q
     /\ (offsetY rect <= finalMarkerY m <= add (offsetY rect) (contentHeight rect))%Q.
Proof.
  intros Hw Hh HcW HcH HD Htouch.
  pose proof (touch_percent_range original containerRect clientX clientY position
                Hw Hh HcW HcH Htouch) as [Hx Hy].
  split; [split; assumption|].
  apply marker_inside_content; try assumption; lia.
Qed.

End TouchDrop.

(** The scene in a container of 400 by 400 pixels, touched at its centre. *)
Lemma accepted_drop_marked_inside_witness :
  let N := Rounded exact in
  let container := {| rect_left := 10%Q; rect_top := 20%Q;
                      rect_width := 400%Q; rect_height := 400%Q |} in
  exists position,
    touch_relativePosition scene_image container 210%Q 220%Q = Some position
    /\ (0 <= xPercent position <= 100)%Q /\ (0 <= yPercent position <= 100)%Q.
Proof.
  intros N container.
  destruct (touch_relativePosition scene_image container 210%Q 220%Q) as [position|] eqn:T;
    [|discriminate T].
  exists position. split; [reflexivity|].
  apply (accepted_drop_marked_inside exact scene_image container 210%Q 220%Q position 1024);
    try (simpl; lia); try (split; discriminate).
  exact T.
Defined.

(** ** The custom instructions in the prompt *)

Lemma customInstructionsPart_blank (customInstructions : string) :
  blank customInstructions -> customInstructionsPart customInstructions = EmptyString.
Proof.
  intro H. unfold customInstructionsPart. now rewrite (trim_blank customInstructions H).
Qed.

Lemma contains_quoted (a1 a2 a3 a4 b s c d : string) :
  contains (a1 ++ a2 ++ a3 ++ a4 ++ (dq ++ b ++ dq) ++ s ++ (dq ++ c) ++ d) (dq ++ s ++ dq).
Proof.
  exists (a1 ++ a2 ++ a3 ++ a4 ++ dq ++ b), (c ++ d).
  now rewrite !string_app_assoc.
Qed.

Lemma contains_after (a b : string) (sub : string) :
  contains b sub -> contains (a ++ b) sub.
Proof.
  intros (pre & post & ->). exists (a ++ pre), post. now rewrite !string_app_assoc.
Qed.

(** X19. What the user's settings become in the synthesis prompt.  The
    custom instructions enter it trimmed: what enters is what is left of them
    between the white space at their two ends, so that instructions and
    their trimmed form give the same prompt; blank instructions (white space
    of any kind, or nothing) give the prompt of no instructions at all,
    without the override clause; instructions that are not blank appear in
    it trimmed, between double quotes.  The shadow descriptor always appears
    in it between double quotes. *)
Theorem compositePrompt_custom_instructions
  (location lighting : option string) (shadow customInstructions : string) :
  let prompt c := compositePrompt location lighting shadow (customInstructionsPart c) in
  let trimmed := trim customInstructions in
  ((exists before after,
       customInstructions = before ++ trimmed ++ after /\ blank before /\ blank after)
   /\ (forall w rest, In w whitespace -> trimmed <> w ++ rest)
   /\ (forall rest w, In w whitespace -> trimmed <> rest ++ w))
  /\ prompt trimmed = prompt customInstructions
  /\ (blank customInstructions -> prompt customInstructions = prompt EmptyString)
  /\ (~ blank customInstructions ->
      contains (prompt customInstructions) (dq ++ trimmed ++ dq))
  /\ contains (prompt customInstructions) (dq ++ shadow ++ dq).
Proof.
  intros prompt trimmed. unfold prompt, trimmed.
  split; [exact (trim_spec customInstructions)|].
  split; [|split; [|split]].
  - unfold customInstructionsPart. now rewrite trim_idempotent.
  - intro H. now rewrite (customInstructionsPart_blank _ H).
  - intro H. unfold customInstructionsPart.
    destruct (is_empty (trim customInstructions)) eqn:E.
    + apply is_empty_true in E. apply trim_empty_iff in E. contradiction.
    + unfold compositePrompt.
      do 7 apply contains_after.
      unfold custom_head.
      match goal with
      | |- contains (((?h ++ dq) ++ ?s ++ dq) ++ ?d) _ =>
          exists h, d; now rewrite !string_app_assoc
      end.
  - unfold compositePrompt, prompt_text2, prompt_text3. apply contains_quoted.
Qed.

(** Instructions edged by a no-break space, and instructions made of one. *)
Example customInstructionsPart_unicode :
  customInstructionsPart (utf8 160 ++ "smaller" ++ utf8 160)
  = custom_head ++ "smaller" ++ dq
  /\ customInstructionsPart (utf8 160) = EmptyString.
Proof. split; vm_compute; reflexivity. Qed.
